(** * MelodyAI: the arrangement and rendering engine, embedded in Rocq

    The development follows the two generations of the audio engine of the
    repository:

    - [AudioEngine]: [src/services/audioEngine.ts], the genre-aware live
      arrangement engine (master bus, drum voices, [playArrangement],
      [playSongDemo], [stopAudio]);
    - [OfflineEngine]: [src/unnamed/part_000], the engine with the shared
      [renderMusicToContext] walk, the offline [renderSongToBlob] and the
      WAV encoder [audioBufferToWav].

    Conventions of the embedding.

    - JavaScript strings are [string]s, one [ascii] per code unit (code
      units below 256); the regular expressions of the source are written
      out as character-class scanners.
    - Times and durations are exact rationals ([Q], compared with [==]).
      JavaScript computes them in IEEE doubles; the two agree on every
      finite quantity up to rounding, and [60 / bpm] is only meaningful
      in [Q] for [bpm <> 0] (JavaScript yields [Infinity] at [0]).
      Where the source rounds a double to an integer, the length of the
      offline buffer, the double itself is computed ([JS.number],
      [JS.ceil]).
    - A Web Audio call that is given a negative time throws a
      [RangeError].  [OfflineEngine] describes the routines of the shared
      walk when no call throws; [Exceptions] adds the throws.
    - A frequency [base * 2^(semitones/12) * k] is kept symbolically
      ([Freq]), the power being irrational.
    - The Web Audio graph is a heap of nodes (a list, a node's identity is
      its index); the module-level [activeNodes] array holds indices into
      it, so that [stopAudio] acts on the shared nodes. *)

From Stdlib Require Import ZArith QArith Qabs Qround Lqa Lia Bool Ascii String List.
From Stdlib Require Floats.
From stdpp Require Import base list.
Import ListNotations.

Set Default Proof Using "Type".
Local Open Scope string_scope.
Local Open Scope list_scope.

(* ================================================================== *)
(** * JavaScript built-ins used by the engine *)
(* ================================================================== *)

Module JS.

Definition code (c : ascii) : N := N_of_ascii c.

(** [\d] *)
Definition isDigit (c : ascii) : bool :=
  ((48 <=? code c) && (code c <=? 57))%N.

(** [\s] restricted to code units below 256: TAB, LF, VT, FF, CR, SP, NBSP. *)
Definition isWhiteSpace (c : ascii) : bool :=
  let n := code c in
  ((n =? 9) || (n =? 10) || (n =? 11) || (n =? 12) || (n =? 13)
   || (n =? 32) || (n =? 160))%N.

(** The characters [.] refuses (LF and CR below 256). *)
Definition isLineTerminator (c : ascii) : bool :=
  let n := code c in ((n =? 10) || (n =? 13))%N.

Fixpoint forallb_string (p : ascii -> bool) (s : string) : bool :=
  match s with
  | EmptyString => true
  | String c s' => p c && forallb_string p s'
  end.

Definition isEmpty (s : string) : bool :=
  match s with EmptyString => true | _ => false end.

(** [s.startsWith(k)] *)
Definition startsWith (s k : string) : bool := String.prefix k s.

(** [s.split(/[sep]+/)]: the pieces between maximal runs of separator
    characters, empty pieces at the edges included (as JavaScript
    returns them).  [cur] is the piece being read, [inSep] tells that
    the previous character was a separator. *)
Fixpoint splitRuns (sep : ascii -> bool) (s : string) (cur : string)
         (inSep : bool) : list string :=
  match s with
  | EmptyString => [cur]
  | String c s' =>
      if sep c then
        if inSep then splitRuns sep s' cur true
        else cur :: splitRuns sep s' "" true
      else splitRuns sep s' (cur ++ String c "") false
  end.

Definition split (sep : ascii -> bool) (s : string) : list string :=
  splitRuns sep s "" false.

(** [.filter(c => c.length > 0)] *)
Definition nonEmpty (l : list string) : list string :=
  List.filter (fun c => negb (isEmpty c)) l.

(** ** Numbers read from strings *)

Definition hexValue (c : ascii) : option Z :=
  let n := Z.of_N (code c) in
  if isDigit c then Some (n - 48)%Z
  else if ((97 <=? n) && (n <=? 102))%Z then Some (n - 87)%Z
  else if ((65 <=? n) && (n <=? 70))%Z then Some (n - 55)%Z
  else None.

(** The value of the longest prefix of radix-[r] digits, with the number
    of digits read. *)
Fixpoint readDigits (r : Z) (s : string) (acc : Z) (n : nat) : Z * nat :=
  match s with
  | EmptyString => (acc, n)
  | String c s' =>
      match hexValue c with
      | Some d => if (d <? r)%Z then readDigits r s' (acc * r + d)%Z (S n)
                  else (acc, n)
      | None => (acc, n)
      end
  end.

Fixpoint trimStart (s : string) : string :=
  match s with
  | String c s' => if isWhiteSpace c then trimStart s' else s
  | EmptyString => EmptyString
  end.

(** [parseInt(s)] with no radix: leading white space, an optional sign,
    an optional [0x]/[0X] prefix, then the longest run of digits.
    [None] is [NaN].  The result is the integer that the digits spell;
    the source rounds it to a double, the same number up to [2^53]. *)
Definition parseInt (s : string) : option Z :=
  let s := trimStart s in
  let '(sign, s) :=
    match s with
    | String "-" s' => ((-1)%Z, s')
    | String "+" s' => (1%Z, s')
    | _ => (1%Z, s)
    end in
  let '(radix, s) :=
    match s with
    | String "0" (String "x" s') => (16%Z, s')
    | String "0" (String "X" s') => (16%Z, s')
    | _ => (10%Z, s)
    end in
  match readDigits radix s 0 0 with
  | (_, O) => None
  | (v, S _) => Some (sign * v)%Z
  end.

(** [s.match(/(\d+)/)]: the first maximal run of decimal digits. *)
Fixpoint takeDigits (s : string) : string :=
  match s with
  | String c s' => if isDigit c then String c (takeDigits s') else ""
  | EmptyString => ""
  end.

Fixpoint matchDigits (s : string) : option string :=
  match s with
  | EmptyString => None
  | String c s' => if isDigit c then Some (takeDigits s) else matchDigits s'
  end.

(** ** Doubles *)

(** The double nearest to an integer, ties to even: the value of an
    integer literal, and of the integer that [parseInt] reads. *)
Definition number (n : Z) : PrimFloat.float :=
  FloatOps.SF2Prim (SpecFloat.binary_normalize FloatOps.prec FloatOps.emax n 0 false).

(** [Math.ceil(x)], an integer when [x] is finite; [None] stands for
    [NaN] and the two infinities. *)
Definition ceil (x : PrimFloat.float) : option Z :=
  match FloatOps.Prim2SF x with
  | SpecFloat.S754_zero _ => Some 0%Z
  | SpecFloat.S754_finite negative m e =>
      Some (if (0 <=? e)%Z
            then (if negative then - (Z.pos m * 2 ^ e) else Z.pos m * 2 ^ e)
            else if negative then - (Z.pos m / 2 ^ (- e))
            else - ((- Z.pos m) / 2 ^ (- e)))%Z
  | _ => None
  end.

(** The conversion of an integral number to the [unsigned long] of a Web
    IDL argument: modulo [2^32], and [0] for [NaN] and the infinities. *)
Definition toUint32 (x : option Z) : Z :=
  match x with
  | Some n => (n mod 4294967296)%Z
  | None => 0%Z
  end.

(** ** Object keys and sorting *)

(** A property name is an array index when it is the canonical decimal
    form of an integer below [2^32 - 1]. *)
Definition isArrayIndex (k : string) : bool :=
  match k with
  | EmptyString => false
  | String "0" EmptyString => true
  | String "0" _ => false
  | _ => forallb_string isDigit k
         && (fst (readDigits 10 k 0 0) <? 4294967295)%Z
  end.

Fixpoint insertBy {A} (le : A -> A -> bool) (x : A) (l : list A) : list A :=
  match l with
  | [] => [x]
  | y :: l' => if le x y then x :: l else y :: insertBy le x l'
  end.

(** A stable sort ([Array.prototype.sort] is stable): [le a b] says that
    the comparator does not put [a] after [b]. *)
Definition stableSort {A} (le : A -> A -> bool) (l : list A) : list A :=
  foldr (insertBy le) [] l.

(** [Object.keys(o)] for an object literal whose properties are listed in
    [o]: array-index keys first, in increasing numeric order, then the
    other keys in the order they were written. *)
Definition keys {V} (o : list (string * V)) : list string :=
  let ks := List.map fst o in
  stableSort (fun a b => (fst (readDigits 10 a 0 0) <=? fst (readDigits 10 b 0 0))%Z)
             (List.filter isArrayIndex ks)
  ++ List.filter (fun k => negb (isArrayIndex k)) ks.

(** [o[k]] *)
Fixpoint get {V} (o : list (string * V)) (k : string) : option V :=
  match o with
  | [] => None
  | (k', v) :: o' => if String.eqb k k' then Some v else get o' k
  end.

End JS.

(* ================================================================== *)
(** * [src/types.ts] *)
(* ================================================================== *)

Inductive SongSectionType := VERSE | CHORUS | BRIDGE | OUTRO.

Inductive SongGenre := rnb | pop | country | chinese.

Record SongSection := {
  type : SongSectionType;
  lyrics : list string;
  chords : list string
}.

Record Song := {
  title : string;
  genre : SongGenre;
  artistStyle : string;
  tempo : string;
  key : string;
  description : string;
  sections : list SongSection
}.

(* ================================================================== *)
(** * Frequencies and the chord tables *)
(* ================================================================== *)

(** The number [f_base * 2^(f_semitones/12) * f_mult]. *)
Record Freq := mkFreq {
  f_base : Q;
  f_semitones : Z;
  f_mult : Q
}.

Definition scaleFreq (k : Q) (f : Freq) : Freq :=
  {| f_base := f_base f; f_semitones := f_semitones f; f_mult := f_mult f * k |}.

Module ChordTables.

Definition NOTES : list (string * Q) :=
  [ ("Cb", 24694 # 100); ("C", 26163 # 100); ("C#", 27718 # 100); ("Db", 27718 # 100);
    ("D", 29366 # 100); ("D#", 31113 # 100); ("Eb", 31113 # 100);
    ("E", 32963 # 100); ("E#", 34923 # 100);
    ("F", 34923 # 100); ("F#", 36999 # 100); ("Gb", 36999 # 100);
    ("G", 39200 # 100); ("G#", 41530 # 100); ("Ab", 41530 # 100);
    ("A", 44000 # 100); ("A#", 46616 # 100); ("Bb", 46616 # 100);
    ("B", 49388 # 100); ("B#", 52325 # 100) ].

(** [CHORD_SHAPES] of [src/services/audioEngine.ts]. *)
Definition CHORD_SHAPES : list (string * list Z) :=
  [ ("maj", [0; 4; 7]);
    ("min", [0; 3; 7]);
    ("m", [0; 3; 7]);
    ("dim", [0; 3; 6]);
    ("aug", [0; 4; 8]);
    ("7", [0; 4; 7; 10]);
    ("maj7", [0; 4; 7; 11]);
    ("m7", [0; 3; 7; 10]);
    ("9", [0; 4; 7; 10; 14]);
    ("maj9", [0; 4; 7; 11; 14]);
    ("m9", [0; 3; 7; 10; 14]);
    ("sus4", [0; 5; 7]);
    ("sus2", [0; 2; 7]);
    ("add9", [0; 4; 7; 14]) ]%Z.

(** [CHORD_SHAPES] of [src/unnamed/part_000]. *)
Definition CHORD_SHAPES_offline : list (string * list Z) :=
  [ ("maj", [0; 4; 7]); ("min", [0; 3; 7]); ("m", [0; 3; 7]); ("dim", [0; 3; 6]);
    ("7", [0; 4; 7; 10]); ("maj7", [0; 4; 7; 11]); ("m7", [0; 3; 7; 10]);
    ("9", [0; 4; 7; 10; 14]); ("add9", [0; 4; 7; 14]); ("sus4", [0; 5; 7]);
    ("sus2", [0; 2; 7]) ]%Z.

End ChordTables.

(* ================================================================== *)
(** * The chord resolver *)
(* ================================================================== *)

Module ChordResolver.
Import ChordTables.

Definition isRootLetter (c : ascii) : bool :=
  ((65 <=? JS.code c) && (JS.code c <=? 71))%N.

Definition isAccidental (c : ascii) : bool :=
  ((JS.code c =? 35) || (JS.code c =? 98))%N.

(** The two groups of the root pattern applied to [chordName]: a letter
    A to G with an optional [#] or [b], then any rest with no line
    terminator (anchored at both ends).  The match fails when the name
    does not start with a root letter, or when a line terminator follows
    (the dot does not accept one). *)
Definition rootMatch (chordName : string) : option (string * string) :=
  match chordName with
  | String c rest =>
      if isRootLetter c && JS.forallb_string (fun x => negb (JS.isLineTerminator x)) rest
      then match rest with
           | String a rest' =>
               if isAccidental a then Some (String c (String a ""), rest')
               else Some (String c "", rest)
           | EmptyString => Some (String c "", "")
           end
      else None
  | EmptyString => None
  end.

(** [table[k]], the empty list standing for [undefined]. *)
Definition shape (table : list (string * list Z)) (k : string) : list Z :=
  default [] (JS.get table k).

(** [Object.keys(table).sort((a, b) => b.length - a.length)] *)
Definition qualityKeys (table : list (string * list Z)) : list string :=
  JS.stableSort (fun a b => (String.length b <=? String.length a)%nat)
                (JS.keys table).

(** [rootMatch[2] || 'maj'] *)
Definition qualityOf (rest : string) : string :=
  if JS.isEmpty rest then "maj" else rest.

(** The interval lookup of [getChordFrequencies] in
    [src/services/audioEngine.ts], from the text that follows the root. *)
Definition chordIntervals (rest : string) : list Z :=
  let quality := qualityOf rest in
  let intervals :=
    match List.find (fun key => String.eqb quality key || JS.startsWith quality key)
                    (qualityKeys CHORD_SHAPES) with
    | Some key => shape CHORD_SHAPES key
    | None => shape CHORD_SHAPES "maj"
    end in
  if String.eqb quality "m" || String.eqb quality "min"
  then shape CHORD_SHAPES "m" else intervals.

(** The same lookup in [src/unnamed/part_000]. *)
Definition chordIntervals_offline (rest : string) : list Z :=
  let quality := qualityOf rest in
  match List.find (JS.startsWith quality) (qualityKeys CHORD_SHAPES_offline) with
  | Some key => shape CHORD_SHAPES_offline key
  | None => shape CHORD_SHAPES_offline "maj"
  end.

Definition frequenciesOf (chordName : string) (intervalsOf : string -> list Z)
  : list Freq :=
  match rootMatch chordName with
  | None => []
  | Some (rootNote, rest) =>
      match JS.get NOTES rootNote with
      | None => []
      | Some baseFreq =>
          List.map (fun semitones => mkFreq baseFreq semitones 1) (intervalsOf rest)
      end
  end.

(** [getChordFrequencies] of [src/services/audioEngine.ts]. *)
Definition getChordFrequencies (chordName : string) : list Freq :=
  frequenciesOf chordName chordIntervals.

(** [getChordFrequencies] of [src/unnamed/part_000]. *)
Definition getChordFrequencies_offline (chordName : string) : list Freq :=
  frequenciesOf chordName chordIntervals_offline.

End ChordResolver.

(* ================================================================== *)
(** * The Web Audio graph *)
(* ================================================================== *)

Module WebAudio.
Local Open Scope Q_scope.

Inductive NodeKind :=
| OscillatorNode | AudioBufferSourceNode | GainNode | BiquadFilterNode
| StereoPannerNode | DynamicsCompressorNode | DelayNode.

(** The nodes of the master chain, built once by [setupMasterBus]. *)
Inductive Bus :=
| MusicBus | LowShelf | HighShelf | MasterCompressor | MasterGain
| ReverbNode | ReverbWet | Destination.

(** What a [connect] call points to: a node of the master chain or a
    node of the heap. *)
Inductive Target := ToBus (b : Bus) | ToNode (id : nat).

Inductive InstrumentType :=
| synth | epiano | guitar | piano | guzheng | pad | bass | lead.

(** The routine that created a node. *)
Inductive Voice :=
| Kick | Snare | HiHat | Crash | Woodblock
| Note (t : InstrumentType) | Vocal.

#[global] Instance InstrumentType_eq_dec : EqDecision InstrumentType.
Proof. solve_decision. Defined.

#[global] Instance Voice_eq_dec : EqDecision Voice.
Proof. solve_decision. Defined.

Record AudioNode := mkNode {
  kind : NodeKind;
  voice : Voice;
  outputs : list Target;       (* the targets of [connect] *)
  frequency : option Freq;     (* an oscillator's frequency *)
  param : option Q;            (* gain, pan or cutoff, when set *)
  startTime : option Q;        (* [start(when)] *)
  stopTime : option Q          (* [stop(when)] *)
}.

(** Automation commands on [musicBus.gain]. *)
Inductive Automation :=
| SetValueAtTime (value time : Q)
| SetTargetAtTime (target time timeConstant : Q).

Definition isSource (n : AudioNode) : bool :=
  match kind n with
  | OscillatorNode | AudioBufferSourceNode => true
  | _ => false
  end.

Definition isStarted (n : AudioNode) : bool :=
  match startTime n with Some _ => true | None => false end.

(** One iteration of the loop of [stopAudio] on a node.  [stop()] is
    [stop(0)], at once; on a source that was never started it throws, the
    exception is swallowed by the [catch] and [disconnect] is skipped. *)
Definition stopNode (n : AudioNode) : AudioNode :=
  if isSource n then
    if isStarted n then
      {| kind := kind n; voice := voice n; outputs := [];
         frequency := frequency n; param := param n;
         startTime := startTime n; stopTime := Some 0 |}
    else n
  else
    {| kind := kind n; voice := voice n; outputs := [];
       frequency := frequency n; param := param n;
       startTime := startTime n; stopTime := stopTime n |}.

(** The stages of the master chain that the output of [t] reaches
    through the connections of the heap, in the order of the [connect]
    calls.  [None] when a connection leads to no node of the heap or the
    path is longer than [fuel] nodes. *)
Fixpoint entries (fuel : nat) (heap : list AudioNode) (t : Target)
  : option (list Bus) :=
  match t with
  | ToBus b => Some [b]
  | ToNode id =>
      match fuel with
      | O => None
      | S fuel' =>
          match heap !! id with
          | Some n =>
              foldr (fun t' rest =>
                       match entries fuel' heap t', rest with
                       | Some bs, Some bs' => Some (bs ++ bs')
                       | _, _ => None
                       end)
                    (Some []) (outputs n)
          | None => None
          end
      end
  end.

(** More nodes than the longest chain of the engines has (the vocal
    chain of the shared walk, nine nodes from the source to the reverb). *)
Definition maxHops : nat := 16.

(** [activeNodes.forEach(...)] over a heap of nodes. *)
Definition stopAll (heap : list AudioNode) (active : list nat) : list AudioNode :=
  foldl (fun h id => alter stopNode id h) heap active.

Definition Qltb (a b : Q) : bool := negb (Qle_bool b a).

Definition ofNat (i : nat) : Q := inject_Z (Z.of_nat i).

(** A [while] loop on a state, [None] when the fuel runs out with the
    condition still true. *)
Fixpoint while {S : Type} (fuel : nat) (cond : S -> bool) (body : S -> S)
         (s : S) : option S :=
  if cond s then
    match fuel with
    | O => None
    | Datatypes.S fuel' => while fuel' cond body (body s)
    end
  else Some s.

(** [l.forEach] with a body that may fail. *)
Fixpoint forEachM {A S : Type} (body : A -> S -> option S) (l : list A)
         (s : S) : option S :=
  match l with
  | [] => Some s
  | x :: l' =>
      match body x s with
      | Some s' => forEachM body l' s'
      | None => None
      end
  end.

End WebAudio.

(* ================================================================== *)
(** * [src/services/audioEngine.ts] *)
(* ================================================================== *)

Module InstrumentConfig.
Import WebAudio.

Inductive OscillatorType := sine | sawtooth | triangle | square.

Record t := {
  type : InstrumentType;
  oscillatorType : OscillatorType;
  attack : Q;
  decay : Q;
  sustainLevel : Q;
  release : Q;
  strumDelay : Q
}.
End InstrumentConfig.

Module AudioEngine.
Import WebAudio ChordResolver.
Local Open Scope Q_scope.

(** The module-level state: the nodes created so far, the [activeNodes]
    registry, the automation written on [musicBus.gain], and the number
    of [Math.random()] calls made. *)
Record Engine := mkEngine {
  nodes : list AudioNode;
  activeNodes : list nat;
  musicBusGain : list Automation;
  randomDraws : nat
}.

Definition create (ns : list AudioNode) (e : Engine) : Engine :=
  mkEngine (nodes e ++ ns) (activeNodes e) (musicBusGain e) (randomDraws e).

(** [activeNodes.push(...)] *)
Definition push (ids : list nat) (e : Engine) : Engine :=
  mkEngine (nodes e) (activeNodes e ++ ids) (musicBusGain e) (randomDraws e).

Definition automate (cs : list Automation) (e : Engine) : Engine :=
  mkEngine (nodes e) (activeNodes e) (musicBusGain e ++ cs) (randomDraws e).

Definition drawn (e : Engine) : Engine :=
  mkEngine (nodes e) (activeNodes e) (musicBusGain e) (S (randomDraws e)).

Definition nextId (e : Engine) : nat := length (nodes e).

(** The connections made by [setupMasterBus], in the order of the calls. *)
Definition setupMasterBus : list (Bus * Bus) :=
  [ (MusicBus, LowShelf); (LowShelf, HighShelf); (HighShelf, MasterCompressor);
    (ReverbNode, ReverbWet); (ReverbWet, MusicBus);
    (MasterCompressor, MasterGain); (MasterGain, Destination) ].

Definition Bus_eqb (a b : Bus) : bool :=
  match a, b with
  | MusicBus, MusicBus | LowShelf, LowShelf | HighShelf, HighShelf
  | MasterCompressor, MasterCompressor | MasterGain, MasterGain
  | ReverbNode, ReverbNode | ReverbWet, ReverbWet
  | Destination, Destination => true
  | _, _ => false
  end.

(** The stages a signal entering the chain at [b] goes through, [b]
    included, following the connections for at most [fuel] hops. *)
Fixpoint signalPath (fuel : nat) (b : Bus) : list Bus :=
  b :: match fuel with
       | O => []
       | S fuel' =>
           flat_map (fun '(src, dst) =>
                       if Bus_eqb src b then signalPath fuel' dst else [])
                    setupMasterBus
       end.

Definition passesThrough (stage entry : Bus) : bool :=
  existsb (Bus_eqb stage) (signalPath (length setupMasterBus) entry).

Definition triggerSidechain (time : Q) (e : Engine) : Engine :=
  automate [ SetValueAtTime 1 time;
             SetTargetAtTime 0.4 time 0.01;
             SetTargetAtTime 1 (time + 0.1) 0.1 ] e.

(** ** Drums and percussion *)

Definition playKick (time vol : Q) (dest : Target) (e : Engine) : Engine :=
  let osc := nextId e in
  let gain := S osc in
  let e := create
    [ mkNode OscillatorNode Kick [ToNode gain] (Some (mkFreq 150 0 1)) None
             (Some time) (Some (time + 0.4));
      mkNode GainNode Kick [dest] None (Some vol) None None ] e in
  let e := push [osc; gain] e in
  triggerSidechain time e.

Definition playSnare (time vol : Q) (dest : Target) (e : Engine) : Engine :=
  let noise := nextId e in
  let noiseFilter := S noise in
  let noiseGain := S noiseFilter in
  let osc := S noiseGain in
  let oscGain := S osc in
  let e := create
    [ mkNode AudioBufferSourceNode Snare [ToNode noiseFilter] None None
             (Some time) (Some (time + 0.3));
      mkNode BiquadFilterNode Snare [ToNode noiseGain] None (Some 1500) None None;
      mkNode GainNode Snare [dest] None (Some vol) None None;
      mkNode OscillatorNode Snare [ToNode oscGain] (Some (mkFreq 200 0 1)) None
             (Some time) (Some (time + 0.15));
      mkNode GainNode Snare [dest] None (Some (vol * 0.5)) None None ] e in
  push [noise; noiseGain; osc; oscGain] e.

Definition playHiHat (time vol : Q) (dest : Target) (panVal : Q) (open : bool)
           (e : Engine) : Engine :=
  let source := nextId e in
  let filter := S source in
  let gain := S filter in
  let panner := S gain in
  let duration := if open then 0.3 else 0.05 in
  let e := create
    [ mkNode AudioBufferSourceNode HiHat [ToNode filter] None None
             (Some time) (Some (time + duration));
      mkNode BiquadFilterNode HiHat [ToNode gain] None (Some 8000) None None;
      mkNode GainNode HiHat [ToNode panner] None (Some (vol * 0.5)) None None;
      mkNode StereoPannerNode HiHat [dest] None (Some panVal) None None ] e in
  push [source; gain; panner] e.

Definition playCrash (time : Q) (dest : Target) (e : Engine) : Engine :=
  let source := nextId e in
  let filter := S source in
  let gain := S filter in
  let panner := S gain in
  let e := create
    [ mkNode AudioBufferSourceNode Crash [ToNode filter] None None
             (Some time) (Some (time + 3.0));
      mkNode BiquadFilterNode Crash [ToNode gain] None (Some 4000) None None;
      mkNode GainNode Crash [ToNode panner] None (Some 0.6) None None;
      mkNode StereoPannerNode Crash [dest] None (Some 0) None None ] e in
  push [source; gain; panner] e.

Definition playWoodblock (time : Q) (dest : Target) (e : Engine) : Engine :=
  let osc := nextId e in
  let gain := S osc in
  let e := create
    [ mkNode OscillatorNode Woodblock [ToNode gain] (Some (mkFreq 800 0 1)) None
             (Some time) (Some (time + 0.1));
      mkNode GainNode Woodblock [dest] None (Some 0.7) None None ] e in
  push [osc; gain] e.

(** ** Synths and instruments *)

(** [stopAudio] *)
Definition stopAudio (e : Engine) : Engine :=
  mkEngine (stopAll (nodes e) (activeNodes e)) [] (musicBusGain e) (randomDraws e).

Definition INSTRUMENTS (name : InstrumentType) : InstrumentConfig.t :=
  match name with
  | epiano => InstrumentConfig.Build_t epiano InstrumentConfig.sine 0.02 0.5 0.2 0.5 0.01
  | synth => InstrumentConfig.Build_t synth InstrumentConfig.sawtooth 0.05 0.2 0.4 0.3 0
  | guitar => InstrumentConfig.Build_t guitar InstrumentConfig.triangle 0.01 0.3 0.1 0.3 0.04
  | piano => InstrumentConfig.Build_t piano InstrumentConfig.sine 0.01 0.8 0.1 0.8 0.005
  | guzheng => InstrumentConfig.Build_t guzheng InstrumentConfig.triangle 0.005 1.5 0 1.5 0.05
  | pad => InstrumentConfig.Build_t pad InstrumentConfig.sawtooth 0.5 1.0 0.8 2.0 0
  | bass => InstrumentConfig.Build_t bass InstrumentConfig.square 0.02 0.2 0.8 0.2 0
  | lead => InstrumentConfig.Build_t lead InstrumentConfig.triangle 0.05 0.1 0.5 0.1 0
  end.

Definition isLayered (t : InstrumentType) : bool :=
  match t with piano | epiano | pad | guitar => true | _ => false end.

Definition isBass (t : InstrumentType) : bool :=
  match t with bass => true | _ => false end.

(** The main oscillator is entered with the [start] and [stop] times it
    is given at the end of the routine. *)
Definition playNote (freq : Freq) (time duration : Q) (config : InstrumentConfig.t)
           (dest : Target) (pan vol : Q) (e : Engine) : Engine :=
  let v := Note (InstrumentConfig.type config) in
  let panner := nextId e in
  let noteGain := S panner in
  let envGain := S noteGain in
  let osc := S envGain in
  let filter := S osc in
  let off := time + duration + InstrumentConfig.release config in
  let cutoff :=
    match InstrumentConfig.type config with bass => 600 | lead => 8000 | _ => 4000 end in
  let e := create
    [ mkNode StereoPannerNode v [dest] None (Some pan) None None;
      mkNode GainNode v [ToNode panner] None (Some vol) None None;
      mkNode GainNode v [ToNode noteGain] None (Some 0) None None;
      mkNode OscillatorNode v [ToNode filter] (Some freq) None
             (Some time) (Some off);
      mkNode BiquadFilterNode v [ToNode envGain] None (Some cutoff) None None ] e in
  (* Layering for richness *)
  let e :=
    if isLayered (InstrumentConfig.type config) then
      let osc2 := nextId e in
      let osc2Gain := S osc2 in
      let e := create
        [ mkNode OscillatorNode v [ToNode osc2Gain] (Some freq) None
                 (Some time) (Some off);
          mkNode GainNode v [ToNode filter] None (Some 0.4) None None ] e in
      push [osc2; osc2Gain] e
    else e in
  (* Sub oscillator *)
  let e :=
    if isBass (InstrumentConfig.type config) then
      let subOsc := nextId e in
      let subGain := S subOsc in
      let e := create
        [ mkNode OscillatorNode v [ToNode subGain] (Some (scaleFreq (1 / 2) freq))
                 None (Some time) (Some off);
          mkNode GainNode v [ToNode envGain] None (Some 1.2) None None ] e in
      push [subOsc; subGain] e
    else e in
  push [osc; envGain; noteGain; panner; filter] e.

(** ** Arrangement engine *)

(** [for (let i = 0; i < n; i++) body] *)
Definition forI (n : nat) (body : nat -> Engine -> Engine) (e : Engine) : Engine :=
  foldl (fun e i => body i e) e (seq 0 n).

(** [l.forEach((x, i) => body)] *)
Definition forEachI {A} (l : list A) (body : A -> nat -> Engine -> Engine)
           (e : Engine) : Engine :=
  foldl (fun e ix => body (snd ix) (fst ix) e) e (combine (seq 0 (length l)) l).

Definition SongGenre_eqb (a b : SongGenre) : bool :=
  match a, b with
  | rnb, rnb | pop, pop | country, country | chinese, chinese => true
  | _, _ => false
  end.

Definition isEven (i : nat) : bool := (i mod 2 =? 0)%nat.

(** [frequencies[i]], a zero frequency standing for [undefined]. *)
Definition freqAt (frequencies : list Freq) (i : nat) : Freq :=
  nth i frequencies (mkFreq 0 0 0).

Section Arrangement.
(** [rng i] is the value of the [i]-th call of [Math.random()]. *)
Variable rng : nat -> Q.
Variables (genre : SongGenre) (frequencies : list Freq).
Variables (startTime duration : Q) (bpm : Z).
Variables (musicBus masterBus reverb : Target).
Variable sectionType : SongSectionType.

Definition beatsInBar : nat := 4.
Definition beatDuration : Q := 60 / inject_Z bpm.
Definition barDuration : Q := beatDuration * ofNat beatsInBar.
Definition endTime : Q := startTime + duration.

Definition instConfig : InstrumentConfig.t :=
  match genre with
  | pop => INSTRUMENTS synth
  | country => INSTRUMENTS guitar
  | chinese => INSTRUMENTS guzheng
  | rnb => INSTRUMENTS epiano
  end.
Definition bassConfig := INSTRUMENTS bass.
Definition padConfig := INSTRUMENTS pad.
Definition leadConfig := INSTRUMENTS lead.

Definition rootFreq : Freq := scaleFreq (1 / 2) (freqAt frequencies 0).
Definition isChorus : bool :=
  match sectionType with CHORUS => true | _ => false end.
Definition isBridge : bool :=
  match sectionType with BRIDGE => true | _ => false end.

(** Intensity multiplier *)
Definition volMult : Q := if isChorus then 1.0 else if isBridge then 0.9 else 0.7.

Definition hatDiv : nat := if isChorus then 4 else 2.

(** The drum and bass part of one bar, by genre. *)
Definition drums (currentTime : Q) (e : Engine) : Engine :=
  match genre with
  | pop =>
      let e := playKick currentTime 1.0 masterBus e in
      let e := playSnare (currentTime + beatDuration) (0.9 * volMult) masterBus e in
      let e := playKick (currentTime + beatDuration * 2) 1.0 masterBus e in
      let e := playSnare (currentTime + beatDuration * 3) (0.9 * volMult) masterBus e in
      let e :=
        forI (beatsInBar * hatDiv)
             (fun i =>
                let hatTime := currentTime + (beatDuration / ofNat hatDiv) * ofNat i in
                let isOffBeat := negb (isEven i) in
                playHiHat hatTime ((if isOffBeat then 0.3 else 0.5) * volMult)
                          masterBus (if isEven i then - 0.2 else 0.2)
                          (isChorus && (i mod 4 =? 2)%nat)) e in
      forI 8 (fun i =>
                playNote rootFreq (currentTime + (beatDuration / 2) * ofNat i)
                         (beatDuration / 2) bassConfig musicBus 0 (0.5 * volMult)) e
  | rnb =>
      let e := playKick currentTime 1.0 masterBus e in
      let e := playSnare (currentTime + beatDuration) 0.8 masterBus e in
      let e := playKick (currentTime + beatDuration * 2.5) 0.9 masterBus e in
      let e := playNote rootFreq currentTime (beatDuration * 2) bassConfig
                        musicBus 0 (0.6 * volMult) e in
      let e := playNote rootFreq (currentTime + beatDuration * 2.5)
                        (beatDuration * 1.5) bassConfig musicBus 0 (0.6 * volMult) e in
      forI 8 (fun i =>
                playHiHat (currentTime + (beatDuration / 2) * ofNat i)
                          (0.2 * volMult) masterBus 0.3 false) e
  | country =>
      let e := playKick currentTime 0.9 masterBus e in
      let e := playSnare (currentTime + beatDuration) (0.8 * volMult) masterBus e in
      let e := playKick (currentTime + beatDuration * 2) 0.9 masterBus e in
      let e := playSnare (currentTime + beatDuration * 3) (0.8 * volMult) masterBus e in
      let e := playNote rootFreq currentTime beatDuration bassConfig
                        musicBus 0 (0.5 * volMult) e in
      playNote (scaleFreq 1.5 rootFreq) (currentTime + beatDuration * 2)
               beatDuration bassConfig musicBus 0 (0.5 * volMult) e
  | chinese =>
      let e := if isChorus then playKick currentTime 0.8 masterBus e else e in
      let r := rng (randomDraws e) in
      let e := drawn e in
      let e :=
        if Qltb 0.6 r then
          let r' := rng (randomDraws e) in
          let e := drawn e in
          playWoodblock (currentTime + beatDuration * (r' * 4)) masterBus e
        else e in
      playNote rootFreq currentTime barDuration bassConfig musicBus 0 0.3 e
  end.

(** The chords, pad, arpeggio and strum of one bar. *)
Definition harmony (currentTime : Q) (e : Engine) : Engine :=
  let e :=
    forEachI frequencies
      (fun f i e =>
         let pan := if isEven i then - 0.3 else 0.3 in
         let e := playNote f currentTime barDuration instConfig musicBus pan
                           (0.2 * volMult) e in
         playNote f currentTime barDuration padConfig reverb (pan * 0.5)
                  (0.1 * volMult) e) e in
  let e :=
    if SongGenre_eqb genre pop && isChorus then
      forI 16 (fun i =>
                 let noteIndex := (i mod length frequencies)%nat in
                 let noteTime := currentTime + (beatDuration / 4) * ofNat i in
                 playNote (scaleFreq 2 (freqAt frequencies noteIndex)) noteTime 0.1
                          leadConfig musicBus (if isEven i then - 0.4 else 0.4) 0.15) e
    else e in
  if SongGenre_eqb genre country then
    let e :=
      forEachI frequencies
        (fun f i => playNote f (currentTime + ofNat i * 0.03) (barDuration / 2)
                             instConfig musicBus 0.2 (0.2 * volMult)) e in
    forEachI frequencies
      (fun f i => playNote f (currentTime + beatDuration * 2 + ofNat i * 0.03)
                           (barDuration / 2) instConfig musicBus (- 0.2)
                           (0.2 * volMult)) e
  else e.

(** The body of the [while] loop on the pair of [currentTime] and the
    engine. *)
Definition bar (s : Q * Engine) : Q * Engine :=
  let '(currentTime, e) := s in
  (currentTime + barDuration, harmony currentTime (drums currentTime e)).

(** [currentTime < endTime - 0.1], on the exact times.  The doubles of
    the source decide the same way unless the two sides are equal up to
    rounding, which happens for a window of a tenth of a second. *)
Definition barPending (s : Q * Engine) : bool :=
  Qltb (fst s) (endTime - 0.1).

(** Bars that fit in the window: an upper bound on the iterations of
    the loop when a bar has a positive length. *)
Definition barsBound : nat := Z.to_nat (Qceiling (duration / barDuration)).

(** [playArrangement]; [None] when the loop does not end within
    [barsBound] iterations. *)
Definition playArrangement (e : Engine) : option Engine :=
  let currentTime := startTime in
  (* Initial Crash for Chorus *)
  let e :=
    if isChorus && Qltb (Qabs (currentTime - startTime)) 0.1
    then playCrash currentTime musicBus e else e in
  option_map snd (while barsBound barPending bar (currentTime, e)).

End Arrangement.

(** ** [playSongDemo] *)

(** The separator class of [/[\s-]+/]. *)
Definition isChordSeparator (c : ascii) : bool :=
  JS.isWhiteSpace c || (JS.code c =? 45)%N.

(** [tempoMatch ? parseInt(tempoMatch[1]) : 100] *)
Definition bpmOf (tempo : string) : Z :=
  match JS.matchDigits tempo with
  | Some digits => default 0%Z (JS.parseInt digits)
  | None => 100%Z
  end.

(** The vocal track: lead to the compressor, two doubles to the reverb. *)
Definition playVocals (startTime : Q) (e : Engine) : Engine :=
  let vocalSource := nextId e in
  let vocalGain := S vocalSource in
  let doubleL := S vocalGain in
  let doubleR := S doubleL in
  let panL := S doubleR in
  let panR := S panL in
  let doubleGain := S panR in
  let e := create
    [ mkNode AudioBufferSourceNode Vocal [ToNode vocalGain] None None
             (Some startTime) None;
      mkNode GainNode Vocal [ToBus MasterCompressor] None (Some 0.9) None None;
      mkNode AudioBufferSourceNode Vocal [ToNode panL] None None
             (Some (startTime + 0.02)) None;
      mkNode AudioBufferSourceNode Vocal [ToNode panR] None None
             (Some (startTime + 0.03)) None;
      mkNode StereoPannerNode Vocal [ToNode doubleGain] None (Some (- 0.4)) None None;
      mkNode StereoPannerNode Vocal [ToNode doubleGain] None (Some 0.4) None None;
      mkNode GainNode Vocal [ToBus ReverbNode] None (Some 0.35) None None ] e in
  push [vocalSource; vocalGain; doubleL; doubleR; panL; panR; doubleGain] e.

Section Walk.
Variable rng : nat -> Q.
Variables (genre : SongGenre) (bpm : Z).

(** [60 / bpm], for a [bpm] that is not zero (the source has [Infinity]
    at zero; the statements about the live engine are for a positive
    BPM). *)
Definition secondsPerBeat : Q := 60 / inject_Z bpm.
Definition secondsPerBar : Q := secondsPerBeat * 4.

(** [chordsInLine.length || 1] *)
Definition lengthOr1 {A} (l : list A) : nat :=
  match length l with O => 1%nat | n => n end.

(** The body of [chordsInLine.forEach], on the pair of the cursor and
    the engine. *)
Definition playChord (sectionType : SongSectionType) (durationPerChord : Q)
           (chordName : string) (s : Q * Engine) : option (Q * Engine) :=
  let '(cursor, e) := s in
  let freqs := getChordFrequencies chordName in
  match
    (if (0 <? length freqs)%nat
     then playArrangement rng genre freqs cursor durationPerChord bpm
                          (ToBus MusicBus) (ToBus MasterCompressor)
                          (ToBus ReverbNode) sectionType e
     else Some e)
  with
  | Some e' => Some (cursor + durationPerChord, e')
  | None => None
  end.

Definition chordsInLine (chordLine : string) : list string :=
  JS.nonEmpty (JS.split isChordSeparator chordLine).

Definition durationPerChord (chordLine : string) : Q :=
  secondsPerBar / ofNat (lengthOr1 (chordsInLine chordLine)).

(** The body of [chords.forEach]. *)
Definition playChordLine (sectionType : SongSectionType) (chordLine : string)
           (s : Q * Engine) : option (Q * Engine) :=
  forEachM (playChord sectionType (durationPerChord chordLine))
           (chordsInLine chordLine) s.

(** If no chords generated (rare), fallback *)
Definition chordsOf (section : SongSection) : list string :=
  if (0 <? length (chords section))%nat then chords section
  else repeat "C" (length (lyrics section)).

(** The body of [song.sections.forEach]. *)
Definition playSection (section : SongSection) (s : Q * Engine)
  : option (Q * Engine) :=
  forEachM (playChordLine (type section)) (chordsOf section) s.

End Walk.

Record Playback := { duration : Q; engine : Engine }.

(** [playSongDemo(song, vocalBuffer)], started when the context clock
    reads [now]; [hasVocal] tells whether a vocal buffer was given. *)
Definition playSongDemo (rng : nat -> Q) (now : Q) (song : Song) (hasVocal : bool)
           (e : Engine) : option Playback :=
  let e := stopAudio e in
  let startTime := now + 0.2 in
  let cursor := startTime in
  let bpm := bpmOf (tempo song) in
  let e := if hasVocal then playVocals startTime e else e in
  match forEachM (playSection rng (genre song) bpm) (sections song) (cursor, e) with
  | Some (cursor, e) => Some {| duration := cursor - startTime; engine := e |}
  | None => None
  end.

End AudioEngine.

(* ================================================================== *)
(** * [src/unnamed/part_000]: the shared walk and the offline render *)
(* ================================================================== *)

Module AudioBuffer.
(** An [AudioBuffer]: [channelData i] is [getChannelData(i)]. *)
Record t := {
  numberOfChannels : nat;
  length : nat;
  sampleRate : Z;
  channelData : list (list Q)
}.
End AudioBuffer.

Module OfflineEngine.
Import WebAudio ChordResolver.
Local Open Scope Q_scope.

(** A [BaseAudioContext]: its nodes and the automation on the gain of
    the music bus built by [setupRouting]. *)
Record Context := mkContext {
  nodes : list AudioNode;
  musicBusGain : list Automation
}.

Definition newContext : Context := mkContext [] [].

Definition create (ns : list AudioNode) (ctx : Context) : Context :=
  mkContext (nodes ctx ++ ns) (musicBusGain ctx).

Definition nextId (ctx : Context) : nat := length (nodes ctx).

(** The connections made by [setupRouting]. *)
Definition setupRouting : list (Bus * Bus) :=
  [ (MusicBus, LowShelf); (LowShelf, HighShelf); (HighShelf, MasterCompressor);
    (ReverbNode, ReverbWet); (ReverbWet, MusicBus);
    (MasterCompressor, MasterGain); (MasterGain, Destination) ].

Definition triggerSidechain (time : Q) (ctx : Context) : Context :=
  mkContext (nodes ctx)
            (musicBusGain ctx ++ [ SetTargetAtTime 0.5 time 0.01;
                                   SetTargetAtTime 1 (time + 0.1) 0.1 ]).

(** The voices return the source node they started. *)

Definition playKick (time vol : Q) (dest : Target) (musicBus : bool)
           (ctx : Context) : Context * nat :=
  let osc := nextId ctx in
  let gain := S osc in
  let ctx := create
    [ mkNode OscillatorNode Kick [ToNode gain] (Some (mkFreq 150 0 1)) None
             (Some time) (Some (time + 0.4));
      mkNode GainNode Kick [dest] None (Some vol) None None ] ctx in
  let ctx := if musicBus then triggerSidechain time ctx else ctx in
  (ctx, osc).

Definition playSnare (time vol : Q) (dest : Target) (ctx : Context)
  : Context * nat :=
  let noise := nextId ctx in
  let noiseFilter := S noise in
  let noiseGain := S noiseFilter in
  let ctx := create
    [ mkNode AudioBufferSourceNode Snare [ToNode noiseFilter] None None
             (Some time) (Some (time + 0.25));
      mkNode BiquadFilterNode Snare [ToNode noiseGain] None (Some 1200) None None;
      mkNode GainNode Snare [dest] None (Some vol) None None ] ctx in
  (ctx, noise).

Definition playHiHat (time vol : Q) (dest : Target) (ctx : Context)
  : Context * nat :=
  let source := nextId ctx in
  let filter := S source in
  let gain := S filter in
  let ctx := create
    [ mkNode AudioBufferSourceNode HiHat [ToNode filter] None None
             (Some time) (Some (time + 0.05));
      mkNode BiquadFilterNode HiHat [ToNode gain] None (Some 9000) None None;
      mkNode GainNode HiHat [dest] None (Some (vol * 0.3)) None None ] ctx in
  (ctx, source).

Definition playNote (freq : Freq) (time duration : Q) (type : InstrumentType)
           (dest : Target) (vol : Q) (ctx : Context) : Context * nat :=
  let osc := nextId ctx in
  let gain := S osc in
  let ctx := create
    [ mkNode OscillatorNode (Note type) [ToNode gain] (Some freq) None
             (Some time) (Some (time + duration));
      mkNode GainNode (Note type) [dest] None (Some vol) None None ] ctx in
  (ctx, osc).

(** [parseInt(song.tempo) || 90] *)
Definition bpmOf (tempo : string) : Z :=
  match JS.parseInt tempo with
  | None => 90%Z
  | Some 0%Z => 90%Z
  | Some n => n
  end.

Definition barDurOf (bpm : Z) : Q := (60 / inject_Z bpm) * 4.

(** The state of the walk of [renderMusicToContext]: the cursor, the
    context and the local [nodes] array. *)
Record Walk := mkWalk {
  cursor : Q;
  context : Context;
  handles : list nat
}.

(** [nodes.push(play(...))] *)
Definition pushed (play : Context -> Context * nat) (w : Walk) : Walk :=
  let '(ctx, node) := play (context w) in
  mkWalk (cursor w) ctx (handles w ++ [node]).

(** The vocal chain; its source is the only node handed back. *)
Definition playVocals (startTime : Q) (w : Walk) : Walk :=
  let ctx := context w in
  let vocalMainGain := nextId ctx in
  let presenceEQ := S vocalMainGain in
  let highCut := S presenceEQ in
  let lowCut := S highCut in
  let vocalComp := S lowCut in
  let vocalSource := S vocalComp in
  let leftDelay := S vocalSource in
  let rightDelay := S leftDelay in
  let panL := S rightDelay in
  let panR := S panL in
  let sideGain := S panR in
  let ctx := create
    [ mkNode GainNode Vocal
             [ToBus MasterCompressor; ToNode leftDelay; ToNode rightDelay]
             None (Some 1.1) None None;
      mkNode BiquadFilterNode Vocal [ToNode vocalComp] None (Some 4000) None None;
      mkNode BiquadFilterNode Vocal [ToNode presenceEQ] None (Some 12000) None None;
      mkNode BiquadFilterNode Vocal [ToNode highCut] None (Some 150) None None;
      mkNode DynamicsCompressorNode Vocal [ToNode vocalMainGain] None None None None;
      mkNode AudioBufferSourceNode Vocal [ToNode lowCut] None None
             (Some startTime) None;
      mkNode DelayNode Vocal [ToNode panL] None (Some 0.025) None None;
      mkNode DelayNode Vocal [ToNode panR] None (Some 0.035) None None;
      mkNode StereoPannerNode Vocal [ToNode sideGain] None (Some (- 0.6)) None None;
      mkNode StereoPannerNode Vocal [ToNode sideGain] None (Some 0.6) None None;
      mkNode GainNode Vocal [ToBus ReverbNode] None (Some 0.4) None None ] ctx in
  mkWalk (cursor w) ctx (handles w ++ [vocalSource]).

(** [chordLine.split(/\s+/).filter(x => x.length > 0)] *)
Definition chordsOfLine (chordLine : string) : list string :=
  JS.nonEmpty (JS.split JS.isWhiteSpace chordLine).

(** [chords.length || 1] *)
Definition lengthOr1 {A} (l : list A) : nat :=
  match length l with O => 1%nat | n => n end.

Section Render.
Variable barDur : Q.

(** The body of [chords.forEach(c => ...)]. *)
Definition renderChord (dur : Q) (c : string) (w : Walk) : Walk :=
  let freqs := getChordFrequencies_offline c in
  let w :=
    if (0 <? length freqs)%nat then
      let w := foldl (fun w f =>
                        pushed (playNote f (cursor w) dur synth (ToBus MusicBus) 0.15) w)
                     w freqs in
      let w := pushed (playNote (scaleFreq (1 / 2) (nth 0 freqs (mkFreq 0 0 0)))
                                (cursor w) dur bass (ToBus MusicBus) 0.4) w in
      let w := pushed (playKick (cursor w) 0.9 (ToBus MasterCompressor) true) w in
      let w := pushed (playSnare (cursor w + dur / 2) 0.7 (ToBus MasterCompressor)) w in
      foldl (fun w i =>
               pushed (playHiHat (cursor w + (dur / 4) * ofNat i) 0.3
                                 (ToBus MasterCompressor)) w)
            w (seq 0 4)
    else w in
  mkWalk (cursor w + dur) (context w) (handles w).

(** The body of [section.chords.forEach(chordLine => ...)]. *)
Definition renderChordLine (chordLine : string) (w : Walk) : Walk :=
  let chords := chordsOfLine chordLine in
  let dur := barDur / ofNat (lengthOr1 chords) in
  foldl (fun w c => renderChord dur c w) w chords.

Definition renderSection (section : SongSection) (w : Walk) : Walk :=
  foldl (fun w chordLine => renderChordLine chordLine w) w (chords section).
End Render.

Record Rendered := { rendered : Context; nodesOut : list nat; duration : Q }.

(** [renderMusicToContext], as it runs when none of its calls throws;
    [Exceptions.renderMusicToContext] below has the calls that throw. *)
Definition renderMusicToContext (ctx : Context) (song : Song) (hasVocal : bool)
           (startTime : Q) : Rendered :=
  let bpm := bpmOf (tempo song) in
  let barDur := barDurOf bpm in
  let w := mkWalk startTime ctx [] in
  let w := if hasVocal then playVocals startTime w else w in
  let w := foldl (fun w section => renderSection barDur section w) w (sections song) in
  {| rendered := context w; nodesOut := handles w; duration := cursor w - startTime |}.

(** The module-level state of the live engine. *)
Record Engine := mkEngine {
  audioCtx : Context;
  activeNodes : list nat
}.

(** [stopAudio] *)
Definition stopAudio (e : Engine) : Engine :=
  mkEngine (mkContext (stopAll (nodes (audioCtx e)) (activeNodes e))
                      (musicBusGain (audioCtx e)))
           [].

(** ** Offline export *)

(** [totalChords] of [renderSongToBlob] *)
Definition totalChords (song : Song) : nat :=
  foldl (fun n s =>
           foldl (fun n cl => (n + length (chordsOfLine cl))%nat) n (chords s))
        0%nat (sections song).

(** Extra tail for reverb *)
Definition totalDuration (song : Song) : Q :=
  ofNat (totalChords song) * (barDurOf (bpmOf (tempo song)) / 4) + 5.

Definition sampleRate : Z := 44100.

(** [totalDuration] as the doubles give it: the same expression, each
    operation rounded. *)
Definition totalDurationNumber (song : Song) : PrimFloat.float :=
  let bpm := JS.number (bpmOf (tempo song)) in
  let barDur := PrimFloat.mul (PrimFloat.div (JS.number 60) bpm) (JS.number 4) in
  PrimFloat.add
    (PrimFloat.mul (JS.number (Z.of_nat (totalChords song)))
                   (PrimFloat.div barDur (JS.number 4)))
    (JS.number 5).

(** The length in sample frames given to [OfflineAudioContext]:
    [Math.ceil(sampleRate * totalDuration)], taken as an [unsigned long]. *)
Definition offlineLength (song : Song) : Z :=
  JS.toUint32 (JS.ceil (PrimFloat.mul (JS.number sampleRate) (totalDurationNumber song))).

End OfflineEngine.

(* ================================================================== *)
(** * [src/unnamed/part_000]: the shared walk with its exceptions *)
(* ================================================================== *)

(** The routines of [OfflineEngine] again, with the [RangeError] that an
    automation call, [start] or [stop] throws on a negative time.  In
    each voice the nodes are created first and the automation calls come
    before any [connect] or [start]; [start] and [stop] are given times
    that the automation calls were given before.  So a voice that throws
    leaves its nodes unconnected and not started, and a voice that does
    not throw does what its routine of [OfflineEngine] does. *)
Module Exceptions.
Import WebAudio ChordResolver OfflineEngine.
Local Open Scope Q_scope.

(** What a routine leaves: the value it returns, or the context as it
    is when the exception leaves the routine. *)
Inductive Outcome (A : Type) : Type :=
| Returned (a : A)
| Thrown (ctx : Context).
Arguments Returned {A} a.
Arguments Thrown {A} ctx.

(** The times that the automation calls of a routine are given, in the
    order of the calls, are all accepted. *)
Definition accepted (times : list Q) : bool := forallb (Qle_bool 0) times.

Definition playKick (time vol : Q) (dest : Target) (musicBus : bool)
           (ctx : Context) : Outcome (Context * nat) :=
  if accepted [time; time + 0.4; time; time + 0.4]
  then Returned (OfflineEngine.playKick time vol dest musicBus ctx)
  else Thrown (create [ mkNode OscillatorNode Kick [] None None None None;
                        mkNode GainNode Kick [] None None None None ] ctx).

Definition playSnare (time vol : Q) (dest : Target) (ctx : Context)
  : Outcome (Context * nat) :=
  if accepted [time; time + 0.25]
  then Returned (OfflineEngine.playSnare time vol dest ctx)
  else Thrown (create [ mkNode AudioBufferSourceNode Snare [] None None None None;
                        mkNode BiquadFilterNode Snare [] None (Some 1200) None None;
                        mkNode GainNode Snare [] None None None None ] ctx).

Definition playHiHat (time vol : Q) (dest : Target) (ctx : Context)
  : Outcome (Context * nat) :=
  if accepted [time; time + 0.05]
  then Returned (OfflineEngine.playHiHat time vol dest ctx)
  else Thrown (create [ mkNode AudioBufferSourceNode HiHat [] None None None None;
                        mkNode BiquadFilterNode HiHat [] None (Some 9000) None None;
                        mkNode GainNode HiHat [] None None None None ] ctx).

Definition playNote (freq : Freq) (time duration : Q) (type : InstrumentType)
           (dest : Target) (vol : Q) (ctx : Context) : Outcome (Context * nat) :=
  if accepted [time; time + 0.05; time + duration]
  then Returned (OfflineEngine.playNote freq time duration type dest vol ctx)
  else Thrown (create [ mkNode OscillatorNode (Note type) [] (Some freq) None None None;
                        mkNode GainNode (Note type) [] None None None None ] ctx).

(** [nodes.push(play(...))] *)
Definition pushed (play : Context -> Outcome (Context * nat)) (w : Walk)
  : Outcome Walk :=
  match play (context w) with
  | Returned (ctx, node) => Returned (mkWalk (cursor w) ctx (handles w ++ [node]))
  | Thrown ctx => Thrown ctx
  end.

(** [l.forEach(x => body)] and [for] with a body that may throw. *)
Fixpoint forEach {A} (body : A -> Walk -> Outcome Walk) (l : list A) (w : Walk)
  : Outcome Walk :=
  match l with
  | [] => Returned w
  | x :: l' =>
      match body x w with
      | Returned w' => forEach body l' w'
      | Thrown ctx => Thrown ctx
      end
  end.

Notation "'run' w <- c ; k" :=
  (match c with Returned w => k | Thrown ctx => Thrown ctx end)
  (at level 10, w name, c at level 100, k at level 200).

(** The vocal chain is wired before its source is started: when
    [start] throws, the chain stays in the context with a source that
    was not started. *)
Definition playVocals (startTime : Q) (w : Walk) : Outcome Walk :=
  let w' := OfflineEngine.playVocals startTime w in
  if accepted [startTime] then Returned w'
  else
    let vocalSource := (nextId (context w) + 5)%nat in
    Thrown (mkContext
              (alter (fun n => mkNode (kind n) (voice n) (outputs n) (frequency n)
                                      (param n) None None)
                     vocalSource (nodes (context w')))
              (musicBusGain (context w'))).

Section Render.
Variable barDur : Q.

(** The body of [chords.forEach(c => ...)]. *)
Definition renderChord (dur : Q) (c : string) (w : Walk) : Outcome Walk :=
  let freqs := getChordFrequencies_offline c in
  run w <-
    (if (0 <? length freqs)%nat then
       run w <- forEach (fun f w =>
                           pushed (playNote f (cursor w) dur synth (ToBus MusicBus) 0.15) w)
                        freqs w ;
       run w <- pushed (playNote (scaleFreq (1 / 2) (nth 0 freqs (mkFreq 0 0 0)))
                                 (cursor w) dur bass (ToBus MusicBus) 0.4) w ;
       run w <- pushed (playKick (cursor w) 0.9 (ToBus MasterCompressor) true) w ;
       run w <- pushed (playSnare (cursor w + dur / 2) 0.7 (ToBus MasterCompressor)) w ;
       forEach (fun i w =>
                  pushed (playHiHat (cursor w + (dur / 4) * ofNat i) 0.3
                                    (ToBus MasterCompressor)) w)
               (seq 0 4) w
     else Returned w) ;
  Returned (mkWalk (cursor w + dur) (context w) (handles w)).

(** The body of [section.chords.forEach(chordLine => ...)]. *)
Definition renderChordLine (chordLine : string) (w : Walk) : Outcome Walk :=
  let chords := chordsOfLine chordLine in
  let dur := barDur / ofNat (lengthOr1 chords) in
  forEach (renderChord dur) chords w.

Definition renderSection (section : SongSection) (w : Walk) : Outcome Walk :=
  forEach renderChordLine (chords section) w.
End Render.

(** [renderMusicToContext] *)
Definition renderMusicToContext (ctx : Context) (song : Song) (hasVocal : bool)
           (startTime : Q) : Outcome Rendered :=
  let bpm := bpmOf (tempo song) in
  let barDur := barDurOf bpm in
  let w := mkWalk startTime ctx [] in
  run w <- (if hasVocal then playVocals startTime w else Returned w) ;
  run w <- forEach (renderSection barDur) (sections song) w ;
  Returned {| rendered := context w; nodesOut := handles w;
              duration := cursor w - startTime |}.

(** [playSongDemo], started when the context clock reads [now]: the
    state of the engine after the call, and the duration when the call
    returns.  When [renderMusicToContext] throws, the assignment
    [activeNodes = nodes] is not reached and the registry stays as
    [stopAudio] left it. *)
Definition playSongDemo (now : Q) (song : Song) (hasVocal : bool) (e : Engine)
  : Engine * option Q :=
  let e := stopAudio e in
  match renderMusicToContext (audioCtx e) song hasVocal (now + 0.2) with
  | Returned r => (mkEngine (rendered r) (nodesOut r), Some (duration r))
  | Thrown ctx => (mkEngine ctx (activeNodes e), None)
  end.

End Exceptions.

(* ================================================================== *)
(** * [src/unnamed/part_000]: the WAV encoder and the offline export *)
(* ================================================================== *)

Module Wav.
Import WebAudio OfflineEngine.
Local Open Scope Z_scope.

(** The [n] low bytes of [x], the least significant first: how [DataView]
    stores an integer with [littleEndian = true] (the value is taken
    modulo [2^(8n)]). *)
Definition littleEndian (n : nat) (x : Z) : list Z :=
  List.map (fun i => (x / 2 ^ (8 * Z.of_nat i)) mod 256) (seq 0 n).

(** The [DataView] on the output buffer, with the variable [pos]. *)
Record Writer := mkWriter { view : list Z; pos : nat }.

(** [new DataView(new ArrayBuffer(length))] with [pos = 0] *)
Definition newWriter (length : nat) : Writer := mkWriter (replicate length 0) 0%nat.

(** A store of [bs] at [pos], then [pos += bs.length]; [None] is the
    [RangeError] of a store that does not fit. *)
Definition setBytes (bs : list Z) (w : Writer) : option Writer :=
  if (pos w + length bs <=? length (view w))%nat
  then Some (mkWriter (take (pos w) (view w) ++ bs
                       ++ drop (pos w + length bs) (view w))
                      (pos w + length bs))
  else None.

Definition setUint16 (data : Z) : Writer -> option Writer :=
  setBytes (littleEndian 2 data).

Definition setUint32 (data : Z) : Writer -> option Writer :=
  setBytes (littleEndian 4 data).

(** The integer part of a number, as [setInt16] takes it. *)
Definition truncate (q : Q) : Z := Z.quot (Qnum q) (Zpos (Qden q)).

(** [view.setInt16(pos, sample, true); pos += 2] *)
Definition setInt16 (sample : Q) : Writer -> option Writer :=
  setBytes (littleEndian 2 (truncate sample)).

(** [Math.max(-1, Math.min(1, x))] *)
Definition clamp (x : Q) : Q :=
  let m := if Qltb x 1 then x else 1%Q in
  if Qltb m (-1) then (-1)%Q else m.

(** [sample < 0 ? sample * 0x8000 : sample * 0x7FFF] *)
Definition scale (sample : Q) : Q :=
  if Qltb sample 0 then (sample * 0x8000)%Q else (sample * 0x7FFF)%Q.

(** [channels[i][offset]]; a sample that is missing reads as zero, which
    is what the store of [undefined] writes. *)
Definition sampleAt (channels : list (list Q)) (i offset : nat) : Q :=
  nth offset (nth i channels []) 0%Q.

Notation "'do' x <- c ; k" := (match c with Some x => k | None => None end)
  (at level 10, x name, c at level 100, k at level 200).

(** A [while] loop whose body may throw. *)
Fixpoint whileM {S : Type} (fuel : nat) (cond : S -> bool) (body : S -> option S)
         (s : S) : option S :=
  if cond s then
    match fuel with
    | O => None
    | Datatypes.S fuel' => do s' <- body s ; whileM fuel' cond body s'
    end
  else Some s.

(** The inner [for] loop: one sample of each channel at [offset]. *)
Definition writeFrame (channels : list (list Q)) (numOfChan offset : nat)
  : Writer -> option Writer :=
  forEachM (fun i => setInt16 (scale (clamp (sampleAt channels i offset))))
           (seq 0 numOfChan).

(** [audioBufferToWav]: the bytes of the blob. *)
Definition audioBufferToWav (buffer : AudioBuffer.t) : option (list Z) :=
  let numOfChan := AudioBuffer.numberOfChannels buffer in
  let length := (AudioBuffer.length buffer * numOfChan * 2 + 44)%nat in
  let w := newWriter length in
  do w <- setUint32 0x46464952 w ;                       (* "RIFF" *)
  do w <- setUint32 (Z.of_nat length - 8) w ;
  do w <- setUint32 0x45564157 w ;                       (* "WAVE" *)
  do w <- setUint32 0x20746d66 w ;                       (* "fmt " *)
  do w <- setUint32 16 w ;
  do w <- setUint16 1 w ;                                (* PCM *)
  do w <- setUint16 (Z.of_nat numOfChan) w ;
  do w <- setUint32 (AudioBuffer.sampleRate buffer) w ;
  do w <- setUint32 (AudioBuffer.sampleRate buffer * 2 * Z.of_nat numOfChan) w ;
  do w <- setUint16 (Z.of_nat numOfChan * 2) w ;
  do w <- setUint16 16 w ;
  do w <- setUint32 0x61746164 w ;                       (* "data" *)
  do w <- setUint32 (Z.of_nat length - Z.of_nat (pos w) - 4) w ;
  let channels := AudioBuffer.channelData buffer in
  do s <- whileM (AudioBuffer.length buffer)
                 (fun s => (pos (fst s) <? length)%nat)
                 (fun s => do w <- writeFrame channels numOfChan (snd s) (fst s) ;
                           Some (w, S (snd s)))
                 (w, 0%nat) ;
  Some (view (fst s)).

Section Blob.
(** [offlineCtx.startRendering()]: the buffer rendered from the graph of
    a context, for the channel count, length and sample rate the
    [OfflineAudioContext] was created with. *)
Variable startRendering : Context -> nat -> nat -> Z -> AudioBuffer.t.

(** [renderSongToBlob]; [None] when the promise is rejected: the
    [OfflineAudioContext] cannot be created (a length of zero), the walk
    throws or the encoder throws. *)
Definition renderSongToBlob (song : Song) (hasVocal : bool) : option (list Z) :=
  let length := offlineLength song in
  if length =? 0 then None
  else
    match Exceptions.renderMusicToContext newContext song hasVocal 0 with
    | Exceptions.Returned r =>
        audioBufferToWav (startRendering (rendered r) 2 (Z.to_nat length) sampleRate)
    | Exceptions.Thrown _ => None
    end.
End Blob.

End Wav.

(* ================================================================== *)
(** * [src/services/geminiService.ts]: the decoding of the vocal track *)
(* ================================================================== *)

Module GeminiService.
Local Open Scope Z_scope.

Section Decode.
(** [atob]: the binary string that a base64 text stands for, [None]
    being the exception thrown on a malformed text. *)
Variable atob : string -> option string.

(** [decode]: the character codes of the binary string, as bytes. *)
Definition decode (base64 : string) : option (list Z) :=
  match atob base64 with
  | Some binaryString =>
      Some (List.map (fun c => Z.of_N (JS.code c)) (list_ascii_of_string binaryString))
  | None => None
  end.
End Decode.

(** [dataInt16[k]]: the 16-bit signed integer held by the bytes [2k] and
    [2k + 1] of the buffer, the low byte first (the byte order of the
    platforms that browsers run on). *)
Definition int16At (data : list Z) (k : nat) : Z :=
  let u := nth (2 * k) data 0 + 256 * nth (2 * k + 1) data 0 in
  if u <? 32768 then u else u - 65536.

(** [decodeAudioData(data, ctx, sampleRate, numChannels)].  [None] is an
    exception: the [RangeError] of [new Int16Array] on a buffer with an
    odd number of bytes, the [NotSupportedError] of [createBuffer] for no
    channel or no frame.  [createBuffer] takes the integer part of
    [frameCount]; the stores of the inner loop beyond it are ignored.
    (It also refuses channel counts and sample rates beyond what the
    browser supports; the call of [generateTTSAudio] passes one channel
    at 24000 Hz.) *)
Definition decodeAudioData (data : list Z) (sampleRate : Z) (numChannels : nat)
  : option AudioBuffer.t :=
  if negb (length data mod 2 =? 0)%nat then None
  else
    let dataInt16Length := (length data / 2)%nat in
    let frameCount := (dataInt16Length / numChannels)%nat in
    if (numChannels =? 0)%nat || (frameCount =? 0)%nat then None
    else
      Some {| AudioBuffer.numberOfChannels := numChannels;
              AudioBuffer.length := frameCount;
              AudioBuffer.sampleRate := sampleRate;
              AudioBuffer.channelData :=
                List.map (fun channel =>
                            List.map (fun i =>
                                        (inject_Z (int16At data (i * numChannels + channel))
                                         / 32768)%Q)
                                     (seq 0 frameCount))
                         (seq 0 numChannels) |}.

(** The end of [generateTTSAudio]:
    [decodeAudioData(decode(base64Audio), getAudioContext(), 24000, 1)]. *)
Definition decodeVocal (atob : string -> option string) (base64Audio : string)
  : option AudioBuffer.t :=
  match decode atob base64Audio with
  | Some data => decodeAudioData data 24000 1
  | None => None
  end.

End GeminiService.

(* ================================================================== *)
(** * [src/components/SongCard.tsx]: lyrics, file name and clock *)
(* ================================================================== *)

Module SongCard.
Local Open Scope string_scope.

Definition newline : string := String (ascii_of_N 10) "".

(** [l.join(sep)] *)
Fixpoint join (sep : string) (l : list string) : string :=
  match l with
  | [] => ""
  | x :: l' =>
      match l' with
      | [] => x
      | _ :: _ => x ++ sep ++ join sep l'
      end
  end.

(** [fullLyrics]: the lines of each section joined by a line break, the
    empty results dropped, the rest joined by a blank line.  (The guards
    of the source against a missing [sections] or [lyrics] array do not
    arise for a [Song] of [src/types.ts].) *)
Definition fullLyrics (song : Song) : string :=
  join (newline ++ newline)
       (List.filter (fun l => (0 <? String.length l)%nat)
                    (List.map (fun s => join newline (lyrics s)) (sections song))).

(** [s.replace(/[sep]+/g, repl)]: every maximal run of separator
    characters is replaced by [repl]; [inRun] tells that the previous
    character was a separator. *)
Fixpoint replaceRuns (sep : ascii -> bool) (repl : string) (s : string)
         (inRun : bool) : string :=
  match s with
  | EmptyString => ""
  | String c s' =>
      if sep c then
        if inRun then replaceRuns sep repl s' true
        else repl ++ replaceRuns sep repl s' true
      else String c (replaceRuns sep repl s' false)
  end.

(** The [download] attribute set by [handleDownload]. *)
Definition downloadName (song : Song) : string :=
  replaceRuns JS.isWhiteSpace "_" (title song) false ++ ".wav".

(** The decimal digits of a natural number [n], written before [tail];
    [fuel] bounds the number of digits after the first. *)
Fixpoint digits (fuel : nat) (n : Z) (tail : string) : string :=
  let tail' := String (ascii_of_N (Z.to_N (48 + n mod 10))) tail in
  match fuel with
  | O => tail'
  | S fuel' => if (n / 10 =? 0)%Z then tail' else digits fuel' (n / 10)%Z tail'
  end.





End SongCard.

(* ================================================================== *)
(** * Chord-quality lookup: the longest key wins *)
(* ================================================================== *)

Module ChordResolverFacts.
Import ChordTables ChordResolver.

Lemma prefix_same_length (a b s : string) :
  String.prefix a s = true -> String.prefix b s = true ->
  String.length a = String.length b -> a = b.
Proof.
  revert a b. induction s as [|c s IH]; intros [|x a] [|y b]; simpl;
    try discriminate; try reflexivity.
  destruct (ascii_dec x c), (ascii_dec y c); try discriminate.
  intros Ha Hb [= Hl]. subst. f_equal. now apply IH.
Qed.

Lemma eqb_startsWith (s k : string) :
  String.eqb s k || JS.startsWith s k = JS.startsWith s k.
Proof.
  destruct (String.eqb s k) eqn:E; [|reflexivity].
  apply String.eqb_eq in E. subst. simpl. symmetry.
  unfold JS.startsWith. induction k as [|c k IH]; simpl; [reflexivity|].
  destruct (ascii_dec c c); [assumption|contradiction].
Qed.

Lemma find_ext {A} (f g : A -> bool) (l : list A) :
  (forall x, f x = g x) -> List.find f l = List.find g l.
Proof.
  intros H. induction l as [|x l IH]; simpl; [reflexivity|].
  now rewrite H, IH.
Qed.

(** Keys listed by decreasing length. *)
Fixpoint byDecreasingLength (l : list string) : bool :=
  match l with
  | [] => true
  | k :: l' => forallb (fun k' => (String.length k' <=? String.length k)%nat) l'
               && byDecreasingLength l'
  end.

(** In a list of keys of decreasing length, the first key that a string
    starts with is a longest one. *)
Lemma find_first_is_longest (q : string) (l : list string) (k : string) :
  byDecreasingLength l = true ->
  List.find (JS.startsWith q) l = Some k ->
  forall k', In k' l -> JS.startsWith q k' = true ->
             (String.length k' <= String.length k)%nat.
Proof.
  induction l as [|x l IH]; simpl; [discriminate|].
  intros Hs Hf k' Hin Hp.
  apply andb_true_iff in Hs as [Hall Hs].
  destruct (JS.startsWith q x) eqn:Ex.
  - injection Hf as <-. destruct Hin as [<-|Hin]; [lia|].
    rewrite forallb_forall in Hall. apply Nat.leb_le. now apply Hall.
  - destruct Hin as [<-|Hin]; [congruence|]. now apply IH.
Qed.

Lemma find_none_all (q : string) (l : list string) :
  (forall k, In k l -> JS.startsWith q k = false) ->
  List.find (JS.startsWith q) l = None.
Proof.
  induction l as [|x l IH]; simpl; [reflexivity|]. intros H.
  rewrite (H x) by now left. apply IH. intros k Hk. apply H. now right.
Qed.

(** The sorted key list holds exactly the keys of the table. *)
Lemma qualityKeys_keys (k : string) :
  In k (qualityKeys CHORD_SHAPES) <-> In k (List.map fst CHORD_SHAPES).
Proof. vm_compute. tauto. Qed.

Lemma qualityKeys_offline_keys (k : string) :
  In k (qualityKeys CHORD_SHAPES_offline) <-> In k (List.map fst CHORD_SHAPES_offline).
Proof. vm_compute. tauto. Qed.

Lemma startsWith_nonempty_key (table : list (string * list Z)) (rest k : string) :
  forallb (fun k => negb (JS.isEmpty k)) (List.map fst table) = true ->
  In k (List.map fst table) -> JS.startsWith rest k = true ->
  qualityOf rest = rest.
Proof.
  intros Hne Hin Hp. rewrite forallb_forall in Hne. specialize (Hne k Hin).
  destruct rest; [|reflexivity]. destruct k; [discriminate|discriminate].
Qed.

(** The lookup of a quality that some key starts, in either table. *)
Lemma find_longest_key (table : list (string * list Z)) (rest k : string) :
  byDecreasingLength (qualityKeys table) = true ->
  (forall x, In x (qualityKeys table) <-> In x (List.map fst table)) ->
  In k (List.map fst table) -> JS.startsWith rest k = true ->
  (forall k', In k' (List.map fst table) -> JS.startsWith rest k' = true ->
              (String.length k' <= String.length k)%nat) ->
  List.find (JS.startsWith rest) (qualityKeys table) = Some k.
Proof.
  intros Hs Hk Hin Hp Hmax.
  destruct (List.find _ (qualityKeys table)) as [k0|] eqn:Ef.
  - pose proof (find_first_is_longest _ _ _ Hs Ef) as Hlong.
    apply find_some in Ef as [Hin0 Hp0].
    f_equal. apply (prefix_same_length k0 k rest); try assumption.
    apply Nat.le_antisymm.
    + apply Hmax; [now apply Hk|assumption].
    + apply Hlong; [now apply Hk|assumption].
  - exfalso. rewrite (find_none _ _ Ef k) in Hp by now apply Hk. discriminate.
Qed.

(** C4. The interval set chosen for a quality string is the one of the
    longest table key the string starts with (in both generations of the
    resolver); in particular "maj7" gets the major-seventh intervals and
    never the plain major ones; a quality that no key starts, and the
    empty quality, get the major triad. *)
Theorem chord_quality_longest_prefix :
  (forall rest k,
      In k (List.map fst CHORD_SHAPES) -> JS.startsWith rest k = true ->
      (forall k', In k' (List.map fst CHORD_SHAPES) -> JS.startsWith rest k' = true ->
                  (String.length k' <= String.length k)%nat) ->
      chordIntervals rest = shape CHORD_SHAPES k)
  /\ (forall rest k,
      In k (List.map fst CHORD_SHAPES_offline) -> JS.startsWith rest k = true ->
      (forall k', In k' (List.map fst CHORD_SHAPES_offline) ->
                  JS.startsWith rest k' = true ->
                  (String.length k' <= String.length k)%nat) ->
      chordIntervals_offline rest = shape CHORD_SHAPES_offline k)
  /\ (forall rest,
      (forall k, In k (List.map fst CHORD_SHAPES) -> JS.startsWith rest k = false) ->
      chordIntervals rest = [0; 4; 7]%Z)
  /\ (forall rest,
      (forall k, In k (List.map fst CHORD_SHAPES_offline) ->
                 JS.startsWith rest k = false) ->
      chordIntervals_offline rest = [0; 4; 7]%Z)
  /\ chordIntervals "maj7" = [0; 4; 7; 11]%Z
  /\ chordIntervals_offline "maj7" = [0; 4; 7; 11]%Z
  /\ chordIntervals "" = [0; 4; 7]%Z
  /\ chordIntervals_offline "" = [0; 4; 7]%Z.
Proof.
  repeat split; try reflexivity.
  - intros rest k Hin Hp Hmax. unfold chordIntervals.
    rewrite (startsWith_nonempty_key CHORD_SHAPES rest k eq_refl Hin Hp).
    rewrite (find_ext _ _ _ (eqb_startsWith _)).
    rewrite (find_longest_key CHORD_SHAPES rest k eq_refl qualityKeys_keys Hin Hp Hmax).
    destruct (String.eqb rest "m") eqn:Em.
    { apply String.eqb_eq in Em. subst rest. simpl.
      simpl in Hin. repeat (destruct Hin as [<-|Hin]; try discriminate Hp;
                            try reflexivity). contradiction. }
    destruct (String.eqb rest "min") eqn:En; [|reflexivity].
    apply String.eqb_eq in En. subst rest. simpl.
    assert (Hl : (3 <= String.length k)%nat)
      by (apply (Hmax "min"); [simpl; tauto|reflexivity]).
    simpl in Hin. repeat (destruct Hin as [<-|Hin]; try discriminate Hp;
                          try reflexivity; try (simpl in Hl; lia)).
    all: try contradiction.
  - intros rest k Hin Hp Hmax. unfold chordIntervals_offline.
    rewrite (startsWith_nonempty_key CHORD_SHAPES_offline rest k eq_refl Hin Hp).
    now rewrite (find_longest_key CHORD_SHAPES_offline rest k eq_refl
                   qualityKeys_offline_keys Hin Hp Hmax).
  - intros [|c rest] Hno; [reflexivity|]. unfold chordIntervals.
    assert (Hq : forall k, In k (List.map fst CHORD_SHAPES) ->
                           JS.startsWith (qualityOf (String c rest)) k = false)
      by (intros k Hk; now apply Hno).
    rewrite (find_ext _ _ _ (eqb_startsWith _)).
    rewrite (find_none_all _ _ (fun k Hk => Hq k (proj1 (qualityKeys_keys k) Hk))).
    destruct (String.eqb (qualityOf (String c rest)) "m") eqn:Em.
    { apply String.eqb_eq in Em. specialize (Hq "m"). rewrite Em in Hq.
      discriminate Hq. simpl; tauto. }
    destruct (String.eqb (qualityOf (String c rest)) "min") eqn:En; [|reflexivity].
    apply String.eqb_eq in En. specialize (Hq "min"). rewrite En in Hq.
    discriminate Hq. simpl; tauto.
  - intros [|c rest] Hno; [reflexivity|]. unfold chordIntervals_offline.
    assert (Hq : forall k, In k (List.map fst CHORD_SHAPES_offline) ->
                           JS.startsWith (qualityOf (String c rest)) k = false)
      by (intros k Hk; now apply Hno).
    now rewrite (find_none_all _ _ (fun k Hk => Hq k (proj1 (qualityKeys_offline_keys k) Hk))).
Qed.

(** ** Roots and the note table *)

(** An interval list that starts at the root and never goes below it. *)
Definition rooted (l : list Z) : bool :=
  match l with
  | 0%Z :: l' => forallb (fun s => (0 <=? s)%Z) l'
  | _ => false
  end.

Lemma chordIntervals_rooted (rest : string) : rooted (chordIntervals rest) = true.
Proof.
  unfold chordIntervals.
  destruct (String.eqb _ "m" || String.eqb _ "min"); [reflexivity|].
  destruct (List.find _ _) as [k|] eqn:Ef; [|reflexivity].
  apply find_some in Ef as [Hin _].
  assert (Hall : forallb (fun k => rooted (shape CHORD_SHAPES k))
                         (qualityKeys CHORD_SHAPES) = true) by reflexivity.
  rewrite forallb_forall in Hall. now apply Hall.
Qed.

Lemma chordIntervals_offline_rooted (rest : string) :
  rooted (chordIntervals_offline rest) = true.
Proof.
  unfold chordIntervals_offline.
  destruct (List.find _ _) as [k|] eqn:Ef; [|reflexivity].
  apply find_some in Ef as [Hin _].
  assert (Hall : forallb (fun k => rooted (shape CHORD_SHAPES_offline k))
                         (qualityKeys CHORD_SHAPES_offline) = true) by reflexivity.
  rewrite forallb_forall in Hall. now apply Hall.
Qed.

(** The frequencies of a rooted interval list over [base]: the root
    itself first, then notes of the same base at or above it. *)
Lemma rooted_frequencies (base : Q) (l : list Z) :
  rooted l = true ->
  exists above,
    List.map (fun semitones => mkFreq base semitones 1) l = mkFreq base 0 1 :: above
    /\ List.Forall (fun f => f_base f = base /\ (0 <= f_semitones f)%Z /\ f_mult f = 1%Q)
                   above.
Proof.
  destruct l as [|[| |] l]; simpl; try discriminate. intros Hl.
  eexists. split; [reflexivity|].
  rewrite forallb_forall in Hl. apply List.Forall_forall. intros f Hf.
  apply in_map_iff in Hf as (s & <- & Hs). simpl.
  repeat split. apply Z.leb_le. now apply Hl.
Qed.

Lemma isRootLetter_cases (c : ascii) :
  isRootLetter c = true ->
  In c ["A"; "B"; "C"; "D"; "E"; "F"; "G"]%char.
Proof.
  destruct c as [[] [] [] [] [] [] [] []]; intros H; try discriminate H;
    simpl; tauto.
Qed.

Lemma isAccidental_cases (a : ascii) :
  isAccidental a = true -> a = "#"%char \/ a = "b"%char.
Proof.
  destruct a as [[] [] [] [] [] [] [] []]; intros H; try discriminate H; tauto.
Qed.

(** Every chord name whose root is tabulated resolves, in both
    generations of the resolver, to the tabulated root frequency followed
    by notes of the same base at non-negative semitone offsets, one per
    interval of the chosen shape. *)
Theorem tabulated_root_resolves (chordName rootNote rest : string) (baseFreq : Q) :
  rootMatch chordName = Some (rootNote, rest) ->
  JS.get NOTES rootNote = Some baseFreq ->
  (getChordFrequencies chordName
   = List.map (fun semitones => mkFreq baseFreq semitones 1) (chordIntervals rest)
   /\ exists above,
       getChordFrequencies chordName = mkFreq baseFreq 0 1 :: above
       /\ List.Forall (fun f => f_base f = baseFreq /\ (0 <= f_semitones f)%Z
                                /\ f_mult f = 1%Q) above)
  /\ (getChordFrequencies_offline chordName
      = List.map (fun semitones => mkFreq baseFreq semitones 1)
                 (chordIntervals_offline rest)
      /\ exists above,
          getChordFrequencies_offline chordName = mkFreq baseFreq 0 1 :: above
          /\ List.Forall (fun f => f_base f = baseFreq /\ (0 <= f_semitones f)%Z
                                   /\ f_mult f = 1%Q) above).
Proof.
  intros Hm Hn. unfold getChordFrequencies, getChordFrequencies_offline, frequenciesOf.
  rewrite Hm, Hn. split; (split; [reflexivity|]); apply rooted_frequencies.
  - apply chordIntervals_rooted.
  - apply chordIntervals_offline_rooted.
Qed.

Lemma tabulated_root_resolves_witness :
  exists above,
    getChordFrequencies "Cmaj7" = mkFreq (26163 # 100) 0 1 :: above.
Proof.
  destruct (proj1 (tabulated_root_resolves "Cmaj7" "C" "maj7" (26163 # 100)
                     eq_refl eq_refl)) as [_ (above & H & _)].
  now exists above.
Defined.

(** The only root that the pattern accepts and the note table lacks is
    F flat. *)
Theorem untabulated_root_is_F_flat (chordName rootNote rest : string) :
  rootMatch chordName = Some (rootNote, rest) ->
  JS.get NOTES rootNote = None ->
  rootNote = "Fb".
Proof.
  destruct chordName as [|c s]; simpl; [discriminate|].
  destruct (isRootLetter c) eqn:Ec; [|discriminate].
  destruct (JS.forallb_string _ s); [|discriminate]. simpl.
  apply isRootLetter_cases in Ec.
  destruct s as [|a s'].
  - intros [= <- <-] Hn. simpl in Ec.
    repeat (destruct Ec as [<-|Ec]; [discriminate Hn|]). contradiction.
  - destruct (isAccidental a) eqn:Ea.
    + intros [= <- <-] Hn. apply isAccidental_cases in Ea. simpl in Ec.
      destruct Ea as [-> | ->];
        repeat (destruct Ec as [<-|Ec]; [first [discriminate Hn|reflexivity]|]);
        contradiction.
    + intros [= <- <-] Hn. simpl in Ec.
      repeat (destruct Ec as [<-|Ec]; [discriminate Hn|]). contradiction.
Qed.

Lemma untabulated_root_is_F_flat_witness :
  rootMatch "Fbm7" = Some ("Fb", "m7") /\ JS.get NOTES "Fb" = None.
Proof.
  pose proof (untabulated_root_is_F_flat "Fbm7" "Fb" "m7" eq_refl eq_refl) as H.
  split; [exact (eq_rect_r (fun r => rootMatch "Fbm7" = Some (r, "m7")) eq_refl
                           (eq_sym H))|reflexivity].
Defined.

(** C5. The chord names F flat and F flat major seventh match the root
    pattern (the letter F with the accidental b) and yet resolve to the
    empty list in both generations of the resolver: the note table lists
    the other enharmonic spellings C flat, E sharp and B sharp, but not
    F flat. *)
Theorem F_flat_chords_resolve_to_nothing :
  rootMatch "Fb" = Some ("Fb", "")
  /\ rootMatch "Fbmaj7" = Some ("Fb", "maj7")
  /\ JS.get NOTES "Fb" = None
  /\ getChordFrequencies "Fb" = []
  /\ getChordFrequencies "Fbmaj7" = []
  /\ getChordFrequencies_offline "Fb" = []
  /\ getChordFrequencies_offline "Fbmaj7" = []
  /\ (exists base, JS.get NOTES "Cb" = Some base)
  /\ (exists base, JS.get NOTES "E#" = Some base)
  /\ (exists base, JS.get NOTES "B#" = Some base).
Proof. repeat split; try reflexivity; eexists; reflexivity. Qed.

(** The lookup at work on a half-diminished quality that is not
    tabulated: the minor-seventh key is the longest one that starts it. *)
Lemma chord_quality_longest_prefix_witness :
  chordIntervals "m7b5" = [0; 3; 7; 10]%Z.
Proof.
  apply (proj1 chord_quality_longest_prefix "m7b5" "m7").
  - simpl. tauto.
  - reflexivity.
  - intros k' Hin Hp. simpl in Hin.
    repeat (destruct Hin as [<-|Hin]; [first [discriminate Hp|simpl; lia]|]).
    contradiction.
Defined.

End ChordResolverFacts.

(* ================================================================== *)
(** * Facts about the arrangement engine *)
(* ================================================================== *)

Module AudioEngineFacts.
Import WebAudio ChordResolver AudioEngine.
Local Open Scope Q_scope.

(** ** Nodes added by a routine *)

(** The nodes of [e'] that were not yet in [e]. *)
Definition newNodes (e e' : Engine) : list AudioNode :=
  drop (length (nodes e)) (nodes e').

Section Adds.
Variable P : AudioNode -> Prop.

(** [e'] keeps the nodes of [e] and adds nodes that satisfy [P]. *)
Definition adds (e e' : Engine) : Prop :=
  exists new, nodes e' = nodes e ++ new /\ Forall P new.

Lemma adds_refl e : adds e e.
Proof. exists []. split; [now rewrite app_nil_r|constructor]. Qed.

Lemma adds_create e0 e ns : adds e0 e -> Forall P ns -> adds e0 (create ns e).
Proof.
  intros (new & Hn & HP) Hns. exists (new ++ ns). split.
  - simpl. now rewrite Hn, <- app_assoc.
  - now apply Forall_app.
Qed.

Lemma adds_push e0 e ids : adds e0 e -> adds e0 (push ids e).
Proof. intros H. exact H. Qed.

Lemma adds_automate e0 e cs : adds e0 e -> adds e0 (automate cs e).
Proof. intros H. exact H. Qed.

Lemma adds_drawn e0 e : adds e0 e -> adds e0 (drawn e).
Proof. intros H. exact H. Qed.

Lemma adds_foldl {A} (f : Engine -> A -> Engine) e0 (l : list A) e :
  (forall x e, In x l -> adds e0 e -> adds e0 (f e x)) ->
  adds e0 e -> adds e0 (foldl f e l).
Proof.
  revert e. induction l as [|x l IH]; intros e Hf He; simpl; [assumption|].
  apply IH.
  - intros y e1 Hy. apply Hf. now right.
  - apply Hf; [now left|assumption].
Qed.

Lemma adds_forI e0 n body e :
  (forall i e, adds e0 e -> adds e0 (body i e)) ->
  adds e0 e -> adds e0 (forI n body e).
Proof. intros Hb. apply adds_foldl. intros i e1 _. apply Hb. Qed.

Lemma adds_forEachI {A} e0 (l : list A) body e :
  (forall x i e, adds e0 e -> adds e0 (body x i e)) ->
  adds e0 e -> adds e0 (forEachI l body e).
Proof. intros Hb. apply adds_foldl. intros [i x] e1 _. apply Hb. Qed.

Lemma adds_trans e0 e1 e2 : adds e0 e1 -> adds e1 e2 -> adds e0 e2.
Proof.
  intros (n1 & H1 & P1) (n2 & H2 & P2). exists (n1 ++ n2). split.
  - now rewrite H2, H1, <- app_assoc.
  - now apply Forall_app.
Qed.

Lemma adds_newNodes e e' :
  adds e e' -> nodes e' = nodes e ++ newNodes e e' /\ Forall P (newNodes e e').
Proof.
  intros (new & Hn & HP). unfold newNodes. rewrite Hn, drop_app_length.
  now split.
Qed.
End Adds.

Lemma adds_weaken (P R : AudioNode -> Prop) e e' :
  (forall n, P n -> R n) -> adds P e e' -> adds R e e'.
Proof.
  intros H (new & Hn & HP). exists new. split; [assumption|].
  eapply Forall_impl; eassumption.
Qed.

(** ** Where and when the voices of a bar are scheduled *)

(** A node that is started is started at [c] or later. *)
Definition notBefore (c : Q) (n : AudioNode) : Prop :=
  forall t, startTime n = Some t -> c <= t.

(** The stage of the master chain a voice may be connected to: the
    compressor for kick, snare, hi-hat and woodblock, the music bus for
    the crash. *)
Definition routed (n : AudioNode) : Prop :=
  forall b, In (ToBus b) (outputs n) ->
    match voice n with
    | Kick | Snare | HiHat | Woodblock => b = MasterCompressor
    | Crash => b = MusicBus
    | Note _ | Vocal => True
    end.

Definition inBar (c : Q) (n : AudioNode) : Prop :=
  notBefore c n /\ routed n /\ voice n <> Crash.

Lemma notBefore_le c c' n : c <= c' -> notBefore c' n -> notBefore c n.
Proof. intros Hc H t Ht. specialize (H t Ht). lra. Qed.

Lemma inBar_le c c' n : c <= c' -> inBar c' n -> inBar c n.
Proof. intros Hc (H1 & H2 & H3). split; [|now split]. eapply notBefore_le; eassumption. Qed.

Ltac node_fact :=
  split; [|split];
  [ intros t' Ht'; simpl in Ht';
    first [discriminate Ht' | injection Ht' as <-; assumption]
  | intros b' Hb'; simpl in Hb' |- *; intuition (try discriminate; try congruence)
  | simpl; discriminate ].

Ltac node_facts :=
  repeat match goal with
         | |- Forall _ (_ :: _) => constructor
         | |- Forall _ [] => constructor
         | |- inBar _ _ => node_fact
         end.

Section Bar.
Variables (c : Q) (e0 : Engine).

Lemma inBar_playKick t v e :
  c <= t -> adds (inBar c) e0 e ->
  adds (inBar c) e0 (playKick t v (ToBus MasterCompressor) e).
Proof.
  intros Ht He. unfold playKick, triggerSidechain.
  apply adds_automate, adds_push, adds_create; [assumption|]. node_facts.
Qed.

Lemma inBar_playSnare t v e :
  c <= t -> adds (inBar c) e0 e ->
  adds (inBar c) e0 (playSnare t v (ToBus MasterCompressor) e).
Proof.
  intros Ht He. unfold playSnare.
  apply adds_push, adds_create; [assumption|]. node_facts.
Qed.

Lemma inBar_playHiHat t v p o e :
  c <= t -> adds (inBar c) e0 e ->
  adds (inBar c) e0 (playHiHat t v (ToBus MasterCompressor) p o e).
Proof.
  intros Ht He. unfold playHiHat.
  apply adds_push, adds_create; [assumption|]. node_facts.
Qed.

Lemma inBar_playWoodblock t e :
  c <= t -> adds (inBar c) e0 e ->
  adds (inBar c) e0 (playWoodblock t (ToBus MasterCompressor) e).
Proof.
  intros Ht He. unfold playWoodblock.
  apply adds_push, adds_create; [assumption|]. node_facts.
Qed.

Lemma inBar_playNote f t d cfg dest pan vol e :
  c <= t -> adds (inBar c) e0 e ->
  adds (inBar c) e0 (playNote f t d cfg dest pan vol e).
Proof.
  intros Ht He. unfold playNote.
  apply adds_push.
  destruct (isBass (InstrumentConfig.type cfg));
    destruct (isLayered (InstrumentConfig.type cfg));
    repeat (first [apply adds_push | apply adds_create]);
    try assumption; node_facts.
Qed.
End Bar.

(** ** Arithmetic of beats *)

Lemma ofNat_nonneg i : 0 <= ofNat i.
Proof. unfold ofNat, Qle. simpl. lia. Qed.

Lemma beatDuration_pos bpm : (0 < bpm)%Z -> 0 < beatDuration bpm.
Proof.
  intros H. unfold beatDuration. apply Qlt_shift_div_l.
  - unfold Qlt. simpl. lia.
  - lra.
Qed.

Lemma barDuration_pos bpm : (0 < bpm)%Z -> 0 < barDuration bpm.
Proof.
  intros H. pose proof (beatDuration_pos bpm H). unfold barDuration.
  change (ofNat beatsInBar) with 4. lra.
Qed.

Lemma le_add_nonneg c t x : c <= t -> 0 <= x -> c <= t + x.
Proof. intros. lra. Qed.

Ltac nonneg :=
  repeat first
    [ assumption
    | apply ofNat_nonneg
    | match goal with H : forall i, 0 <= ?r i |- 0 <= ?r _ => apply H end
    | apply Qmult_le_0_compat
    | apply Qinv_le_0_compat
    | lra ].

Ltac offset_ok :=
  repeat (apply le_add_nonneg); [assumption | nonneg ..].

Ltac bar_step :=
  lazymatch goal with
  | |- adds _ _ (forI _ _ _) => apply adds_forI; [intros ? ? ?|]
  | |- adds _ _ (forEachI _ _ _) => apply adds_forEachI; [intros ? ? ? ?|]
  | |- adds _ _ (drawn _) => apply adds_drawn
  | |- adds _ _ (playKick _ _ _ _) => apply inBar_playKick
  | |- adds _ _ (playSnare _ _ _ _) => apply inBar_playSnare
  | |- adds _ _ (playHiHat _ _ _ _ _ _) => apply inBar_playHiHat
  | |- adds _ _ (playWoodblock _ _ _) => apply inBar_playWoodblock
  | |- adds _ _ (playNote _ _ _ _ _ _ _ _) => apply inBar_playNote
  end.

Section BarFacts.
Variable rng : nat -> Q.
Hypothesis rng_nonneg : forall i, 0 <= rng i.
Variables (genre : SongGenre) (frequencies : list Freq) (bpm : Z).
Hypothesis bpm_pos : (0 < bpm)%Z.
Variable sectionType : SongSectionType.
Variables (c : Q) (e0 : Engine).

Lemma inBar_drums currentTime e :
  c <= currentTime -> adds (inBar c) e0 e ->
  adds (inBar c) e0
       (drums rng genre frequencies bpm (ToBus MusicBus) (ToBus MasterCompressor)
              sectionType currentTime e).
Proof using rng_nonneg bpm_pos.
  intros Hc He. pose proof (beatDuration_pos bpm bpm_pos) as Hb.
  unfold drums, barDuration, hatDiv. set (b := beatDuration bpm) in *.
  clearbody b.
  destruct genre; destruct (isChorus sectionType);
    try destruct (Qltb 0.6 _);
    repeat bar_step; try assumption; offset_ok.
Qed.

Lemma inBar_harmony currentTime e :
  c <= currentTime -> adds (inBar c) e0 e ->
  adds (inBar c) e0
       (harmony genre frequencies bpm (ToBus MusicBus) (ToBus ReverbNode)
                sectionType currentTime e).
Proof using bpm_pos.
  intros Hc He. pose proof (beatDuration_pos bpm bpm_pos) as Hb.
  unfold harmony, barDuration. set (b := beatDuration bpm) in *.
  clearbody b.
  destruct (SongGenre_eqb genre country);
    destruct (SongGenre_eqb genre pop && isChorus sectionType);
    repeat bar_step; try assumption; offset_ok.
Qed.

End BarFacts.

(** ** The bar loop *)

Lemma Qltb_lt a b : Qltb a b = true <-> a < b.
Proof.
  unfold Qltb. rewrite negb_true_iff, <- not_true_iff_false, Qle_bool_iff.
  split; [apply Qnot_le_lt|apply Qlt_not_le].
Qed.

Lemma Qltb_ge a b : Qltb a b = false <-> b <= a.
Proof.
  unfold Qltb. rewrite negb_false_iff, Qle_bool_iff. reflexivity.
Qed.

Lemma while_inv {S : Type} (Inv : S -> Prop) cond body fuel (s s' : S) :
  (forall s, Inv s -> cond s = true -> Inv (body s)) ->
  Inv s -> while fuel cond body s = Some s' -> Inv s' /\ cond s' = false.
Proof.
  intros Hbody. revert s. induction fuel as [|fuel IH]; intros s Hs; simpl.
  - destruct (cond s) eqn:Ec; [discriminate|]. intros [= <-]. now split.
  - destruct (cond s) eqn:Ec.
    + apply IH. now apply Hbody.
    + intros [= <-]. now split.
Qed.

Lemma ofNat_S n : ofNat (S n) == ofNat n + 1.
Proof. unfold ofNat, Qeq. simpl. lia. Qed.

Lemma barsBound_enough duration bpm :
  (0 < bpm)%Z -> duration <= ofNat (barsBound duration bpm) * barDuration bpm.
Proof.
  intros Hb. pose proof (barDuration_pos bpm Hb) as Hbar. unfold barsBound.
  set (x := duration / barDuration bpm).
  assert (Hd : duration == x * barDuration bpm).
  { unfold x. rewrite Qmult_comm, Qmult_div_r; [reflexivity|]. lra. }
  assert (Hx : x <= ofNat (Z.to_nat (Qceiling x))).
  { pose proof (Qle_ceiling x) as Hc. unfold ofNat.
    apply Qle_trans with (1 := Hc). rewrite <- Zle_Qle. lia. }
  rewrite Hd at 1. apply Qmult_le_compat_r; [assumption|lra].
Qed.

Section Loop.
Variable rng : nat -> Q.
Hypothesis rng_nonneg : forall i, 0 <= rng i.
Variables (genre : SongGenre) (frequencies : list Freq).
Variables (startTime duration : Q) (bpm : Z).
Hypothesis bpm_pos : (0 < bpm)%Z.
Variable sectionType : SongSectionType.

Let theBar := bar rng genre frequencies bpm (ToBus MusicBus)
                  (ToBus MasterCompressor) (ToBus ReverbNode) sectionType.

(** The loop ends by its condition when given as much fuel as bars
    remain. *)
Lemma bars_terminate fuel currentTime e :
  startTime + duration - 0.1 - currentTime <= ofNat fuel * barDuration bpm ->
  exists s', while fuel (barPending startTime duration) theBar (currentTime, e)
             = Some s'.
Proof using bpm_pos.
  pose proof (barDuration_pos bpm bpm_pos) as Hbar.
  revert currentTime e. induction fuel as [|fuel IH]; intros ct e Hf; simpl.
  - destruct (barPending startTime duration (ct, e)) eqn:Ec; [|eauto].
    apply Qltb_lt in Ec. unfold endTime in Ec. simpl in Ec.
    change (ofNat 0) with 0 in Hf. lra.
  - destruct (barPending startTime duration (ct, e)) eqn:Ec; [|eauto].
    apply IH. rewrite ofNat_S in Hf. lra.
Qed.

Lemma bars_inBar e0 fuel e s' :
  adds (inBar startTime) e0 e ->
  while fuel (barPending startTime duration) theBar (startTime, e) = Some s' ->
  adds (inBar startTime) e0 (snd s').
Proof using rng_nonneg bpm_pos.
  intros He Hw. pose proof (barDuration_pos bpm bpm_pos) as Hbar.
  refine (proj2 (proj1 (while_inv
    (fun s => startTime <= fst s /\ adds (inBar startTime) e0 (snd s))
    _ _ _ _ _ _ _ Hw))).
  - intros [ct e1] [Hct He1] _. simpl in *. split; [lra|].
    apply inBar_harmony, inBar_drums; assumption.
  - simpl. split; [lra|assumption].
Qed.

Lemma initialCrash_always :
  Qltb (Qabs (startTime - startTime)) 0.1 = true.
Proof. apply Qltb_lt, Qabs_Qlt_condition. split; lra. Qed.

(** [playArrangement] returns, having added the opening crash of a
    chorus and then only voices of the bars. *)
Lemma playArrangement_bars e :
  exists e',
    playArrangement rng genre frequencies startTime duration bpm
                    (ToBus MusicBus) (ToBus MasterCompressor) (ToBus ReverbNode)
                    sectionType e = Some e'
    /\ adds (inBar startTime)
            (if isChorus sectionType then playCrash startTime (ToBus MusicBus) e else e)
            e'.
Proof using rng_nonneg bpm_pos.
  unfold playArrangement. rewrite initialCrash_always, andb_true_r.
  set (e1 := if isChorus sectionType then _ else e).
  destruct (bars_terminate (barsBound duration bpm) startTime e1) as [s' Hs'].
  { pose proof (barsBound_enough duration bpm bpm_pos). lra. }
  fold theBar. rewrite Hs'. simpl. eexists; split; [reflexivity|].
  eapply bars_inBar; [apply adds_refl|eassumption].
Qed.

End Loop.

(** ** The walk over sections, chord lines and chords *)

Definition Qsum (l : list Q) : Q := foldr Qplus 0 l.

Lemma Qsum_app l k : Qsum (l ++ k) == Qsum l + Qsum k.
Proof.
  induction l as [|x l IH]; simpl; [ring|]. rewrite IH. ring.
Qed.

Lemma Qsum_nonneg l : Forall (Qle 0) l -> 0 <= Qsum l.
Proof.
  induction 1 as [|x l Hx Hl IH]; simpl; [lra|]. lra.
Qed.

(** A voice of a chord window that starts at [c]. *)
Definition scheduled (c : Q) (n : AudioNode) : Prop :=
  notBefore c n /\ routed n.

Lemma scheduled_le c c' n : c <= c' -> scheduled c' n -> scheduled c n.
Proof. intros Hc [H1 H2]. split; [eapply notBefore_le; eassumption|assumption]. Qed.

(** A stretch of the walk: the cursor moves forward by the sum of the
    slots, and the voices added start at the first cursor or later. *)
Definition walks (slots : list Q) (s s' : Q * Engine) : Prop :=
  fst s' == fst s + Qsum slots
  /\ adds (scheduled (fst s)) (snd s) (snd s').

Lemma forEachM_walks {A} (body : A -> Q * Engine -> option (Q * Engine))
      (slots : A -> list Q) (l : list A) :
  (forall x, In x l -> Forall (Qle 0) (slots x)) ->
  (forall x s, In x l -> exists s', body x s = Some s' /\ walks (slots x) s s') ->
  forall s, exists s', forEachM body l s = Some s' /\ walks (flat_map slots l) s s'.
Proof.
  induction l as [|x l IH]; intros Hpos Hbody s; simpl.
  - exists s. split; [reflexivity|]. split; [simpl; ring|apply adds_refl].
  - destruct (Hbody x s) as (s1 & E1 & H1 & A1); [now left|]. rewrite E1.
    destruct (IH (fun y Hy => Hpos y (or_intror Hy))
                 (fun y s Hy => Hbody y s (or_intror Hy)) s1) as (s' & E' & H' & A').
    exists s'. split; [assumption|]. split.
    + rewrite H', H1, Qsum_app. ring.
    + eapply adds_trans; [eassumption|].
      eapply adds_weaken; [|eassumption]. intros n. apply scheduled_le.
      pose proof (Qsum_nonneg _ (Hpos x (or_introl eq_refl))). lra.
Qed.

Lemma flat_map_const {A B} (d : B) (l : list A) :
  flat_map (fun _ => [d]) l = List.map (fun _ => d) l.
Proof. induction l as [|x l IH]; simpl; congruence. Qed.


Lemma flat_map_nonneg {A} (slots : A -> list Q) (l : list A) :
  (forall x, In x l -> Forall (Qle 0) (slots x)) ->
  Forall (Qle 0) (flat_map slots l).
Proof.
  induction l as [|x l IH]; intros H; simpl; [constructor|].
  apply Forall_app. split; [apply H; now left|]. apply IH. intros y Hy. apply H. now right.
Qed.

(** The slots of a chord line, of a section and of a song: one slot per
    chord symbol, of the bar divided by the number of symbols of its
    line. *)
Definition lineSlots (bpm : Z) (chordLine : string) : list Q :=
  List.map (fun _ => durationPerChord bpm chordLine) (chordsInLine chordLine).

Definition sectionSlots (bpm : Z) (section : SongSection) : list Q :=
  flat_map (lineSlots bpm) (chordsOf section).

Definition songSlots (song : Song) : list Q :=
  flat_map (sectionSlots (bpmOf (tempo song))) (sections song).

Lemma lengthOr1_pos {A} (l : list A) : 0 < ofNat (lengthOr1 l).
Proof.
  unfold lengthOr1, ofNat, Qlt. destruct (length l); simpl; lia.
Qed.

Lemma durationPerChord_pos bpm chordLine :
  (0 < bpm)%Z -> 0 < durationPerChord bpm chordLine.
Proof.
  intros Hb. unfold durationPerChord, secondsPerBar.
  pose proof (beatDuration_pos bpm Hb) as H. change (beatDuration bpm) with (secondsPerBeat bpm) in H.
  apply Qlt_shift_div_l; [apply lengthOr1_pos|]. lra.
Qed.

Lemma lineSlots_nonneg bpm chordLine :
  (0 < bpm)%Z -> Forall (Qle 0) (lineSlots bpm chordLine).
Proof.
  intros Hb. apply List.Forall_forall. intros d Hd. apply in_map_iff in Hd as (x & <- & _).
  apply Qlt_le_weak, durationPerChord_pos, Hb.
Qed.

Lemma adds_playCrash c e0 e :
  adds (scheduled c) e0 e -> adds (scheduled c) e0 (playCrash c (ToBus MusicBus) e).
Proof.
  intros He. unfold playCrash. apply adds_push, adds_create; [assumption|].
  repeat constructor; try (intros t' [= <-]; lra); try discriminate;
    intros b' Hb'; simpl in *; intuition (try discriminate; try congruence).
Qed.

Section WalkFacts.
Variable rng : nat -> Q.
Hypothesis rng_nonneg : forall i, 0 <= rng i.
Variables (genre : SongGenre) (bpm : Z).
Hypothesis bpm_pos : (0 < bpm)%Z.

(** One chord slot: the routine returns, the cursor has moved by the
    slot's duration, the voices added start at the cursor or later, and
    none is added when the chord does not resolve. *)
Lemma playChord_slot sectionType d chordName cursor e :
  0 <= d ->
  exists e',
    playChord rng genre bpm sectionType d chordName (cursor, e)
    = Some (cursor + d, e')
    /\ adds (scheduled cursor) e e'
    /\ (getChordFrequencies chordName = [] -> e' = e).
Proof using rng_nonneg bpm_pos.
  intros Hd. unfold playChord.
  destruct (getChordFrequencies chordName) as [|f fs] eqn:Ef; simpl.
  - exists e. repeat split; [apply adds_refl].
  - destruct (playArrangement_bars rng rng_nonneg genre (f :: fs) cursor d bpm
                bpm_pos sectionType e) as (e' & E' & A').
    rewrite E'. exists e'. repeat split; [|discriminate].
    eapply adds_trans with
      (e1 := if isChorus sectionType then playCrash cursor (ToBus MusicBus) e else e).
    + destruct (isChorus sectionType); [apply adds_playCrash|]; apply adds_refl.
    + eapply adds_weaken; [|exact A']. intros n (H1 & H2 & _). now split.
Qed.

Lemma playChord_walks sectionType d chordName s :
  0 <= d ->
  exists s', playChord rng genre bpm sectionType d chordName s = Some s'
             /\ walks [d] s s'.
Proof using rng_nonneg bpm_pos.
  intros Hd. destruct s as [cursor e].
  destruct (playChord_slot sectionType d chordName cursor e Hd) as (e' & E & A & _).
  exists (cursor + d, e'). split; [assumption|]. split; [simpl; ring|assumption].
Qed.

Lemma playChordLine_walks sectionType chordLine s :
  exists s', playChordLine rng genre bpm sectionType chordLine s = Some s'
             /\ walks (lineSlots bpm chordLine) s s'.
Proof using rng_nonneg bpm_pos.
  unfold playChordLine, lineSlots.
  pose proof (Qlt_le_weak _ _ (durationPerChord_pos bpm chordLine bpm_pos)) as Hd.
  destruct (forEachM_walks
              (playChord rng genre bpm sectionType (durationPerChord bpm chordLine))
              (fun _ => [durationPerChord bpm chordLine])
              (chordsInLine chordLine)) with (s := s) as (s' & E & W).
  - intros x _. now repeat constructor.
  - intros x s0 _. now apply playChord_walks.
  - exists s'. split; [assumption|].
    now rewrite <- flat_map_const.
Qed.

Lemma playSection_walks section s :
  exists s', playSection rng genre bpm section s = Some s'
             /\ walks (sectionSlots bpm section) s s'.
Proof using rng_nonneg bpm_pos.
  unfold playSection, sectionSlots. apply forEachM_walks.
  - intros x _. now apply lineSlots_nonneg.
  - intros x s0 _. apply playChordLine_walks.
Qed.

Lemma sectionSlots_nonneg section : Forall (Qle 0) (sectionSlots bpm section).
Proof using bpm_pos.
  apply flat_map_nonneg. intros x _. now apply lineSlots_nonneg.
Qed.

End WalkFacts.

Lemma adds_playVocals c e0 e :
  adds (scheduled c) e0 e -> adds (scheduled c) e0 (playVocals c e).
Proof.
  intros He. unfold playVocals. apply adds_push, adds_create; [assumption|].
  repeat constructor; try (intros t' [= <-]; lra); try discriminate;
    intros b' Hb'; exact I.
Qed.

(** The live render: it returns, its duration is the sum of the slots of
    the song, and every voice it adds starts at the start time or later
    and is routed as [routed] says. *)
Lemma playSongDemo_walks rng now song hasVocal e :
  (forall i, 0 <= rng i) -> (0 < bpmOf (tempo song))%Z ->
  exists p,
    playSongDemo rng now song hasVocal e = Some p
    /\ duration p == Qsum (songSlots song)
    /\ adds (scheduled (now + 0.2)) (stopAudio e) (engine p).
Proof.
  intros Hr Hb. unfold playSongDemo.
  set (e1 := if hasVocal then _ else _).
  destruct (forEachM_walks (playSection rng (genre song) (bpmOf (tempo song)))
                           (sectionSlots (bpmOf (tempo song))) (sections song))
    with (s := (now + 0.2, e1)) as ([cursor e'] & E & Hc & A).
  - intros x _. now apply sectionSlots_nonneg.
  - intros x s _. now apply playSection_walks.
  - rewrite E. eexists. split; [reflexivity|]. simpl in *. split.
    + rewrite Hc. unfold songSlots. ring.
    + eapply adds_trans; [|exact A]. unfold e1.
      destruct hasVocal; [apply adds_playVocals|]; apply adds_refl.
Qed.

Lemma walks_forward slots s s' :
  Forall (Qle 0) slots -> walks slots s s' ->
  fst s <= fst s' /\ Forall (notBefore (fst s)) (newNodes (snd s) (snd s')).
Proof.
  intros Hs [Hc Ha]. split.
  - pose proof (Qsum_nonneg _ Hs). lra.
  - apply adds_newNodes in Ha as [_ Ha].
    eapply Forall_impl; [exact Ha|]. now intros n [H _].
Qed.

(** ** Properties of the live engine *)

(** C7. In a render pass of the live engine (a positive BPM, random
    numbers that are not negative), every step of the walk returns with a
    cursor that is not smaller: a chord slot moves it by exactly the
    bar, [60 / bpm * 4], divided by the number of chords of the line;
    and every node started for a chord slot, a chord line or a section
    is started at the cursor the step began with, or later. *)
Theorem cursor_forward_events_not_before (rng : nat -> Q) (genre : SongGenre)
        (bpm : Z) :
  (forall i, 0 <= rng i) -> (0 < bpm)%Z ->
  (forall sectionType chordLine chordName cursor e,
      exists e',
        playChord rng genre bpm sectionType (durationPerChord bpm chordLine)
                  chordName (cursor, e)
        = Some (cursor + 60 / inject_Z bpm * 4
                         / ofNat (lengthOr1 (chordsInLine chordLine)), e')
        /\ cursor <= cursor + 60 / inject_Z bpm * 4
                              / ofNat (lengthOr1 (chordsInLine chordLine))
        /\ Forall (notBefore cursor) (newNodes e e'))
  /\ (forall sectionType chordLine s,
      exists s',
        playChordLine rng genre bpm sectionType chordLine s = Some s'
        /\ fst s <= fst s'
        /\ Forall (notBefore (fst s)) (newNodes (snd s) (snd s')))
  /\ (forall section s,
      exists s',
        playSection rng genre bpm section s = Some s'
        /\ fst s <= fst s'
        /\ Forall (notBefore (fst s)) (newNodes (snd s) (snd s'))).
Proof.
  intros Hr Hb. repeat split.
  - intros ty chordLine chordName cursor e.
    pose proof (durationPerChord_pos bpm chordLine Hb) as Hd.
    destruct (playChord_slot rng Hr genre bpm Hb ty (durationPerChord bpm chordLine)
                             chordName cursor e) as (e' & E & A & _); [lra|].
    exists e'. split; [exact E|]. split.
    + change (cursor <= cursor + durationPerChord bpm chordLine). lra.
    + apply adds_newNodes in A as [_ A].
      eapply Forall_impl; [exact A|]. now intros n [H _].
  - intros ty chordLine s.
    destruct (playChordLine_walks rng Hr genre bpm Hb ty chordLine s) as (s' & E & W).
    exists s'. split; [exact E|].
    apply (walks_forward (lineSlots bpm chordLine)); [now apply lineSlots_nonneg|exact W].
  - intros section s.
    destruct (playSection_walks rng Hr genre bpm Hb section s) as (s' & E & W).
    exists s'. split; [exact E|].
    apply (walks_forward (sectionSlots bpm section));
      [now apply sectionSlots_nonneg|exact W].
Qed.

(** ** Counting triggers *)

(** The start times of the source nodes of a voice, in the order of
    their creation: one per trigger for the one-source voices (kick,
    hi-hat, crash, woodblock). *)
Definition triggers (v : Voice) (l : list AudioNode) : list Q :=
  omap (fun n => if isSource n && bool_decide (voice n = v) then startTime n else None) l.

Lemma triggers_app v l k : triggers v (l ++ k) = triggers v l ++ triggers v k.
Proof. apply omap_app. Qed.

Lemma triggers_none v l :
  Forall (fun n => voice n <> v) l -> triggers v l = [].
Proof.
  induction 1 as [|n l Hn Hl IH]; [reflexivity|].
  change (n :: l) with ([n] ++ l). rewrite triggers_app, IH, app_nil_r.
  unfold triggers. simpl.
  rewrite bool_decide_eq_false_2 by assumption. now rewrite andb_false_r.
Qed.

(** What a routine adds to the log of a voice. *)
Definition logs (v : Voice) (ts : list Q) (e e' : Engine) : Prop :=
  exists new, nodes e' = nodes e ++ new /\ triggers v new = ts.

Lemma logs_newNodes v ts e e' :
  logs v ts e e' -> triggers v (newNodes e e') = ts.
Proof. intros (new & Hn & Ht). unfold newNodes. now rewrite Hn, drop_app_length. Qed.

Lemma logs_refl v e : logs v [] e e.
Proof. exists []. split; [now rewrite app_nil_r|reflexivity]. Qed.

Lemma logs_trans v ts1 ts2 e0 e1 e2 :
  logs v ts1 e0 e1 -> logs v ts2 e1 e2 -> logs v (ts1 ++ ts2) e0 e2.
Proof.
  intros (n1 & H1 & T1) (n2 & H2 & T2). exists (n1 ++ n2). split.
  - now rewrite H2, H1, <- app_assoc.
  - now rewrite triggers_app, T1, T2.
Qed.

Lemma adds_logs_none (P : AudioNode -> Prop) v e e' :
  (forall n, P n -> voice n <> v) -> adds P e e' -> logs v [] e e'.
Proof.
  intros HP (new & Hn & Hf). exists new. split; [assumption|].
  apply triggers_none. eapply Forall_impl; [exact Hf|exact HP].
Qed.

Lemma logs_playCrash t dest e : logs Crash [t] e (playCrash t dest e).
Proof. eexists. split; reflexivity. Qed.

Lemma logs_playHiHat t v dest p o e :
  logs HiHat [t] e (playHiHat t v dest p o e).
Proof. eexists. split; reflexivity. Qed.









Lemma list_sum_zero {A} (l : list A) : list_sum (List.map (fun _ => 0%nat) l) = 0%nat.
Proof. induction l as [|x l IH]; simpl; [reflexivity|exact IH]. Qed.

Section Triggers.
Variable rng : nat -> Q.
Hypothesis rng_nonneg : forall i, 0 <= rng i.
Variable bpm : Z.
Hypothesis bpm_pos : (0 < bpm)%Z.

(** A chord window of a chorus logs one crash, at its start; a window
    of another section logs none. *)
Lemma playArrangement_crash genre frequencies startTime duration sectionType e :
  exists e',
    playArrangement rng genre frequencies startTime duration bpm
                    (ToBus MusicBus) (ToBus MasterCompressor) (ToBus ReverbNode)
                    sectionType e = Some e'
    /\ logs Crash (if isChorus sectionType then [startTime] else []) e e'.
Proof using rng_nonneg bpm_pos.
  destruct (playArrangement_bars rng rng_nonneg genre frequencies startTime duration
              bpm bpm_pos sectionType e) as (e' & E & A).
  exists e'. split; [exact E|].
  apply (adds_logs_none _ Crash) in A; [|now intros n (_ & _ & H)].
  destruct (isChorus sectionType).
  - apply (logs_trans Crash [startTime] [] _ _ _ (logs_playCrash _ _ _) A).
  - exact A.
Qed.

Definition resolves (chordName : string) : bool :=
  (0 <? length (getChordFrequencies chordName))%nat.

Lemma playChord_crashes genre sectionType d chordName s s' :
  playChord rng genre bpm sectionType d chordName s = Some s' ->
  logs Crash (if resolves chordName && isChorus sectionType then [fst s] else [])
       (snd s) (snd s').
Proof using rng_nonneg bpm_pos.
  destruct s as [cursor e]. unfold playChord, resolves.
  destruct (0 <? length (getChordFrequencies chordName))%nat; simpl.
  - destruct (playArrangement_crash genre (getChordFrequencies chordName) cursor d
                sectionType e) as (e' & E & L).
    rewrite E. intros [= <-]. exact L.
  - intros [= <-]. apply logs_refl.
Qed.

(** The number of crashes a walk logs. *)
Lemma forEachM_crashes {A} (body : A -> Q * Engine -> option (Q * Engine))
      (cnt : A -> nat) (l : list A) :
  (forall x s s', body x s = Some s' ->
                  exists ts, logs Crash ts (snd s) (snd s') /\ length ts = cnt x) ->
  forall s s', forEachM body l s = Some s' ->
               exists ts, logs Crash ts (snd s) (snd s')
                          /\ length ts = list_sum (List.map cnt l).
Proof using Type.
  intros Hb. induction l as [|x l IH]; intros s s'; simpl.
  - intros [= <-]. exists []. split; [apply logs_refl|reflexivity].
  - destruct (body x s) as [s1|] eqn:E1; [|discriminate]. intros E.
    destruct (Hb x s s1 E1) as (t1 & L1 & N1).
    destruct (IH s1 s' E) as (t2 & L2 & N2).
    exists (t1 ++ t2). split; [eapply logs_trans; eassumption|].
    rewrite length_app. lia.
Qed.

Definition resolvableIn (names : list string) : nat :=
  length (List.filter resolves names).

Lemma playSection_crashes genre section s s' :
  playSection rng genre bpm section s = Some s' ->
  exists ts, logs Crash ts (snd s) (snd s')
             /\ length ts =
                if isChorus (type section)
                then list_sum (List.map (fun cl => resolvableIn (chordsInLine cl))
                                        (chordsOf section))
                else 0%nat.
Proof using rng_nonneg bpm_pos.
  intros E. unfold playSection in E.
  apply (forEachM_crashes _
           (fun cl => if isChorus (type section)
                      then resolvableIn (chordsInLine cl) else 0%nat)) in E.
  - destruct E as (ts & L & N). exists ts. split; [exact L|]. rewrite N.
    destruct (isChorus (type section)); [reflexivity|]. apply list_sum_zero.
  - intros cl s0 s1 E1. unfold playChordLine in E1.
    apply (forEachM_crashes _
             (fun c => if resolves c && isChorus (type section)
                       then 1%nat else 0%nat)) in E1.
    + destruct E1 as (ts & L & N). exists ts. split; [exact L|]. rewrite N.
      unfold resolvableIn. destruct (isChorus (type section)).
      * generalize (chordsInLine cl). intros l.
        induction l as [|c l IH]; [reflexivity|]. simpl.
        rewrite IH, andb_true_r. now destruct (resolves c).
      * transitivity (list_sum (List.map (fun _ => 0%nat) (chordsInLine cl)));
          [|apply list_sum_zero].
        apply (f_equal list_sum), map_ext. intros c. now rewrite andb_false_r.
    + intros c s2 s3 E3. eexists. split; [eapply playChord_crashes, E3|].
      destruct (resolves c && isChorus (type section)); reflexivity.
Qed.

End Triggers.

(** For a pop song with a positive BPM: every call of [playArrangement]
    for a Chorus schedules exactly one crash, at the start time it is
    given, and a call for a Verse schedules none; [playSongDemo] calls it
    once for each chord name that resolves, so a Chorus section schedules
    as many crashes as it has such names. *)
Lemma chorus_crash_in_every_window (rng : nat -> Q) (bpm : Z) :
  (forall i, 0 <= rng i) -> (0 < bpm)%Z ->
  (forall frequencies startTime duration e,
      exists e',
        playArrangement rng pop frequencies startTime duration bpm
                        (ToBus MusicBus) (ToBus MasterCompressor) (ToBus ReverbNode)
                        CHORUS e = Some e'
        /\ triggers Crash (newNodes e e') = [startTime])
  /\ (forall frequencies startTime duration e,
      exists e',
        playArrangement rng pop frequencies startTime duration bpm
                        (ToBus MusicBus) (ToBus MasterCompressor) (ToBus ReverbNode)
                        VERSE e = Some e'
        /\ triggers Crash (newNodes e e') = [])
  /\ (forall section s s',
      type section = CHORUS ->
      playSection rng pop bpm section s = Some s' ->
      length (triggers Crash (newNodes (snd s) (snd s')))
      = list_sum (List.map (fun cl => resolvableIn (chordsInLine cl))
                           (chordsOf section))).
Proof.
  intros Hr Hb. repeat split.
  - intros fs st d e.
    destruct (playArrangement_crash rng Hr bpm Hb pop fs st d CHORUS e) as (e' & E & L).
    exists e'. split; [exact E|]. exact (logs_newNodes _ _ _ _ L).
  - intros fs st d e.
    destruct (playArrangement_crash rng Hr bpm Hb pop fs st d VERSE e) as (e' & E & L).
    exists e'. split; [exact E|]. exact (logs_newNodes _ _ _ _ L).
  - intros section s s' Hty E.
    destruct (playSection_crashes rng Hr bpm Hb pop section s s' E) as (ts & L & N).
    rewrite (logs_newNodes _ _ _ _ L), N, Hty. reflexivity.
Qed.


(** ** Concrete runs *)

Definition emptyEngine : Engine := mkEngine [] [] [] 0.

Definition oneSectionSong (g : SongGenre) (bpmText : string) (ty : SongSectionType)
           (lines : list string) : Song :=
  {| title := "Demo"; genre := g; artistStyle := ""; tempo := bpmText; key := "C";
     description := "";
     sections := [ {| type := ty; lyrics := ["la"]; chords := lines |} ] |}.

Lemma half_nonneg : forall i : nat, 0 <= (fun _ : nat => 1 # 2) i.
Proof. intros i. simpl. lra. Qed.

Lemma cursor_forward_events_not_before_witness :
  exists e',
    playChord (fun _ => 1 # 2) pop 120 CHORUS (durationPerChord 120 "C G") "C"
              (0, emptyEngine)
    = Some (0 + 60 / inject_Z 120 * 4 / ofNat (lengthOr1 (chordsInLine "C G")), e')
    /\ 0 <= 0 + 60 / inject_Z 120 * 4 / ofNat (lengthOr1 (chordsInLine "C G"))
    /\ Forall (notBefore 0) (newNodes emptyEngine e').
Proof.
  apply (proj1 (cursor_forward_events_not_before (fun _ => 1 # 2) pop 120
                  half_nonneg ltac:(lia)) CHORUS "C G" "C" 0 emptyEngine).
Defined.

(** C2 fails for the crash.  A pop chorus on one chord: the source of
    its crash is connected, through its filter, gain and panner, to the
    music bus, the gain that the kick ducks, and not to the
    compressor. *)
Lemma crash_is_connected_to_music_bus :
  exists p source panner,
    playSongDemo (fun _ => 1 # 2) 0 (oneSectionSong pop "120 BPM" CHORUS ["C"])
                 false emptyEngine = Some p
    /\ nodes (engine p) !! 0%nat = Some source
    /\ voice source = Crash
    /\ kind source = AudioBufferSourceNode
    /\ entries maxHops (nodes (engine p)) (ToNode 0) = Some [MusicBus]
    /\ nodes (engine p) !! 3%nat = Some panner
    /\ voice panner = Crash
    /\ kind panner = StereoPannerNode
    /\ outputs panner = [ToBus MusicBus]
    /\ passesThrough MusicBus MusicBus = true.
Proof.
  do 3 eexists. split; [vm_compute; reflexivity|].
  split; [vm_compute; reflexivity|]. do 3 (split; [reflexivity|]).
  split; [vm_compute; reflexivity|]. repeat split.
Qed.

(** C3 fails on a chorus with more than one chord.  A pop song at 120
    BPM whose only section is a Chorus of one line, "C G", played from
    time 0: the render schedules two crashes, one at the start of each
    chord window (0.2 s and 1.2 s), where the claim has one for the
    section.  [playArrangement] opens with a crash whenever the section
    is a Chorus, and [playSongDemo] calls it for every chord name. *)
Lemma chorus_of_two_chords_has_two_crashes :
  exists p,
    playSongDemo (fun _ => 1 # 2) 0 (oneSectionSong pop "120 BPM" CHORUS ["C G"])
                 false emptyEngine = Some p
    /\ List.map type (sections (oneSectionSong pop "120 BPM" CHORUS ["C G"])) = [CHORUS]
    /\ List.map Qred (triggers Crash (nodes (engine p))) = [1 # 5; 6 # 5].
Proof.
  eexists. split; [|split]; vm_compute; reflexivity.
Qed.

End AudioEngineFacts.

(* ================================================================== *)
(** * Facts about the shared walk and the offline render *)
(* ================================================================== *)

Module OfflineEngineFacts.
Import WebAudio ChordResolver OfflineEngine.
Import AudioEngineFacts (Qsum, Qsum_app, flat_map_const).
Local Open Scope Q_scope.

Lemma cursor_pushed play w : cursor (pushed play w) = cursor w.
Proof. unfold pushed. now destruct (play (context w)). Qed.

Lemma cursor_foldl_pushed {A} (play : Walk -> A -> Context -> Context * nat)
      (l : list A) w :
  cursor (foldl (fun w x => pushed (play w x) w) w l) = cursor w.
Proof.
  revert w. induction l as [|x l IH]; intros w; simpl; [reflexivity|].
  now rewrite IH, cursor_pushed.
Qed.

(** A chord slot moves the cursor by its duration, whatever the chord. *)
Lemma renderChord_cursor dur c w : cursor (renderChord dur c w) = cursor w + dur.
Proof.
  unfold renderChord. destruct (0 <? length (getChordFrequencies_offline c))%nat;
    cbn [cursor]; [|reflexivity].
  rewrite (cursor_foldl_pushed
             (fun w i => playHiHat (cursor w + dur / 4 * ofNat i) 0.3
                                   (ToBus MasterCompressor))).
  rewrite !cursor_pushed.
  now rewrite (cursor_foldl_pushed
                 (fun w f => playNote f (cursor w) dur synth (ToBus MusicBus) 0.15)).
Qed.

(** A chord that does not resolve creates no node and hands back none. *)
Lemma renderChord_silent dur c w :
  getChordFrequencies_offline c = [] ->
  context (renderChord dur c w) = context w
  /\ handles (renderChord dur c w) = handles w.
Proof. intros H. unfold renderChord. rewrite H. now split. Qed.

Lemma foldl_cursor {A} (f : Walk -> A -> Walk) (slots : A -> list Q) (l : list A) w :
  (forall w x, cursor (f w x) == cursor w + Qsum (slots x)) ->
  cursor (foldl f w l) == cursor w + Qsum (flat_map slots l).
Proof.
  intros Hf. revert w. induction l as [|x l IH]; intros w; simpl; [ring|].
  rewrite IH, Hf, Qsum_app. ring.
Qed.

(** The slots of the walk: one per chord symbol, of the bar divided by
    the number of symbols of its line. *)
Definition lineSlots (barDur : Q) (chordLine : string) : list Q :=
  List.map (fun _ => barDur / ofNat (lengthOr1 (chordsOfLine chordLine)))
           (chordsOfLine chordLine).

Definition songSlots (song : Song) : list Q :=
  flat_map (fun section =>
              flat_map (lineSlots (barDurOf (bpmOf (tempo song)))) (chords section))
           (sections song).

Lemma renderChordLine_cursor barDur chordLine w :
  cursor (renderChordLine barDur chordLine w)
  == cursor w + Qsum (lineSlots barDur chordLine).
Proof.
  unfold renderChordLine, lineSlots. rewrite <- flat_map_const.
  apply foldl_cursor. intros w0 c. rewrite renderChord_cursor. simpl. ring.
Qed.

Lemma renderSection_cursor barDur section w :
  cursor (renderSection barDur section w)
  == cursor w + Qsum (flat_map (lineSlots barDur) (chords section)).
Proof.
  unfold renderSection. apply foldl_cursor. intros w0 cl.
  apply renderChordLine_cursor.
Qed.

(** The duration returned by the walk is the sum of the slots. *)
Lemma renderMusicToContext_duration ctx song hasVocal startTime :
  duration (renderMusicToContext ctx song hasVocal startTime)
  == Qsum (songSlots song).
Proof.
  unfold renderMusicToContext, songSlots. simpl.
  rewrite (foldl_cursor _ (fun section =>
             flat_map (lineSlots (barDurOf (bpmOf (tempo song)))) (chords section))).
  - destruct hasVocal; simpl; ring.
  - intros w section. apply renderSection_cursor.
Qed.

(** ** The size of the offline buffer *)

Definition oneLineSong (bpmText : string) (lines : list string) : Song :=
  {| title := "Demo"; genre := pop; artistStyle := ""; tempo := bpmText; key := "C";
     description := "";
     sections := [ {| type := VERSE; lyrics := ["la"]; chords := lines |} ] |}.

(** C1, at a song the code sizes wrongly. A song at 120 BPM with the one
    chord line "C": the walk advances the cursor by one bar, 2 seconds, so
    the render with its 5-second tail lasts 7 seconds, 308700 frames at
    44100 Hz; [renderSongToBlob] counts a quarter of a bar for the chord
    and allocates 5.5 seconds, 242550 frames. *)
Theorem offline_buffer_shorter_than_walk :
  let song := oneLineSong "120" ["C"] in
  duration (renderMusicToContext newContext song false 0) == 2
  /\ Qsum (songSlots song) + 5 == 7
  /\ totalDuration song == 5.5
  /\ offlineLength song = 242550%Z
  /\ Qceiling (inject_Z sampleRate * (Qsum (songSlots song) + 5)) = 308700%Z.
Proof. vm_compute. repeat split; congruence. Qed.

End OfflineEngineFacts.

(* ================================================================== *)
(** * The exceptions of the shared walk *)
(* ================================================================== *)

Module ExceptionFacts.
Import WebAudio ChordResolver OfflineEngine OfflineEngineFacts.
Import Exceptions (Outcome, Returned, Thrown, accepted, forEach).
Import AudioEngineFacts (Qsum, ofNat_nonneg, barDuration_pos).
Local Open Scope Q_scope.

Lemma accepted_all times : Forall (Qle 0) times -> accepted times = true.
Proof.
  induction 1 as [|t times Ht _ IH]; [reflexivity|].
  unfold accepted in *. simpl. rewrite IH, andb_true_r. now apply Qle_bool_iff.
Qed.

Lemma accepted_negative times t : In t times -> t < 0 -> accepted times = false.
Proof.
  intros Hin Ht. apply not_true_is_false. intros H. unfold accepted in H.
  rewrite forallb_forall in H. specialize (H t Hin). apply Qle_bool_iff in H. lra.
Qed.

Ltac all_accepted :=
  rewrite accepted_all; [reflexivity|repeat constructor; lra].

(** ** A voice that is given times that are not negative returns *)

Lemma playNote_returns f t d ty dest vol ctx :
  0 <= t -> 0 <= d ->
  Exceptions.playNote f t d ty dest vol ctx = Returned (playNote f t d ty dest vol ctx).
Proof. intros Ht Hd. unfold Exceptions.playNote. all_accepted. Qed.

Lemma playKick_returns t v dest musicBus ctx :
  0 <= t ->
  Exceptions.playKick t v dest musicBus ctx = Returned (playKick t v dest musicBus ctx).
Proof. intros Ht. unfold Exceptions.playKick. all_accepted. Qed.

Lemma playSnare_returns t v dest ctx :
  0 <= t -> Exceptions.playSnare t v dest ctx = Returned (playSnare t v dest ctx).
Proof. intros Ht. unfold Exceptions.playSnare. all_accepted. Qed.

Lemma playHiHat_returns t v dest ctx :
  0 <= t -> Exceptions.playHiHat t v dest ctx = Returned (playHiHat t v dest ctx).
Proof. intros Ht. unfold Exceptions.playHiHat. all_accepted. Qed.

(** ** A routine that returns did what its routine of [OfflineEngine] does *)

(** [play] returns nothing but what [play'] returns. *)
Definition returnsAs {S A} (play : S -> Outcome A) (play' : S -> A) : Prop :=
  forall s r, play s = Returned r -> r = play' s.

Ltac returned_voice :=
  let ctx := fresh "ctx" in let r := fresh "r" in
  intros ctx r; cbv beta delta [Exceptions.playNote Exceptions.playKick
                                 Exceptions.playSnare Exceptions.playHiHat];
  destruct (accepted _); [now intros [= <-]|discriminate].

Lemma playNote_returned f t d ty dest vol :
  returnsAs (Exceptions.playNote f t d ty dest vol) (playNote f t d ty dest vol).
Proof. returned_voice. Qed.

Lemma playKick_returned t v dest musicBus :
  returnsAs (Exceptions.playKick t v dest musicBus) (playKick t v dest musicBus).
Proof. returned_voice. Qed.

Lemma playSnare_returned t v dest :
  returnsAs (Exceptions.playSnare t v dest) (playSnare t v dest).
Proof. returned_voice. Qed.

Lemma playHiHat_returned t v dest :
  returnsAs (Exceptions.playHiHat t v dest) (playHiHat t v dest).
Proof. returned_voice. Qed.

Lemma pushed_returns play play' w :
  play (context w) = Returned (play' (context w)) ->
  Exceptions.pushed play w = Returned (pushed play' w).
Proof.
  intros E. unfold Exceptions.pushed, pushed. rewrite E.
  now destruct (play' (context w)).
Qed.

Lemma pushed_returned play play' :
  returnsAs play play' -> returnsAs (Exceptions.pushed play) (pushed play').
Proof.
  intros H w w'. unfold Exceptions.pushed, pushed.
  destruct (play (context w)) as [[ctx node]|ctx] eqn:E; [|discriminate].
  rewrite <- (H _ _ E). now intros [= <-].
Qed.

Lemma pushed_at_returned (play : Walk -> Context -> Outcome (Context * nat))
      (play' : Walk -> Context -> Context * nat) :
  (forall w, returnsAs (play w) (play' w)) ->
  returnsAs (fun w => Exceptions.pushed (play w) w) (fun w => pushed (play' w) w).
Proof. intros H w r. apply (pushed_returned _ _ (H w)). Qed.

Lemma forEach_returns {A} (I : Walk -> Prop) (body : A -> Walk -> Outcome Walk)
      (body' : Walk -> A -> Walk) (l : list A) w :
  (forall x w, I w -> body x w = Returned (body' w x) /\ I (body' w x)) ->
  I w ->
  forEach body l w = Returned (foldl body' w l) /\ I (foldl body' w l).
Proof.
  intros Hb. revert w. induction l as [|x l IH]; intros w Hw; simpl; [now split|].
  destruct (Hb x w Hw) as [-> Hw']. now apply IH.
Qed.

Lemma forEach_returned {A} (body : A -> Walk -> Outcome Walk)
      (body' : Walk -> A -> Walk) (l : list A) :
  (forall x, returnsAs (body x) (fun w => body' w x)) ->
  returnsAs (forEach body l) (fun w => foldl body' w l).
Proof.
  intros Hb. induction l as [|x l IH]; intros w w'; simpl; [now intros [= <-]|].
  destruct (body x w) as [w1|ctx] eqn:E; [|discriminate].
  rewrite <- (Hb x _ _ E). apply IH.
Qed.

(** ** The walk returns when the slots are not negative *)

Lemma renderChord_returns dur c w :
  0 <= cursor w -> 0 <= dur ->
  Exceptions.renderChord dur c w = Returned (renderChord dur c w).
Proof.
  intros Hc Hd. unfold Exceptions.renderChord, renderChord.
  destruct (0 <? length (getChordFrequencies_offline c))%nat; [|reflexivity].
  destruct (forEach_returns (fun w' => cursor w' = cursor w)
              (fun f w => Exceptions.pushed
                            (Exceptions.playNote f (cursor w) dur synth (ToBus MusicBus) 0.15) w)
              (fun w f => pushed (playNote f (cursor w) dur synth (ToBus MusicBus) 0.15) w)
              (getChordFrequencies_offline c) w) as [-> H1]; [|reflexivity|].
  { intros f w' Hw'. split; [|now rewrite cursor_pushed].
    rewrite Hw'. apply pushed_returns, playNote_returns; assumption. }
  set (w1 := foldl _ w _) in *.
  rewrite (pushed_returns _ (playNote _ (cursor w1) dur bass (ToBus MusicBus) 0.4))
    by (apply playNote_returns; [rewrite H1|]; assumption).
  set (w2 := pushed _ w1).
  assert (H2 : cursor w2 = cursor w) by (unfold w2; now rewrite cursor_pushed).
  rewrite (pushed_returns _ (playKick (cursor w2) 0.9 (ToBus MasterCompressor) true))
    by (apply playKick_returns; rewrite H2; assumption).
  set (w3 := pushed _ w2).
  assert (H3 : cursor w3 = cursor w) by (unfold w3; now rewrite cursor_pushed).
  rewrite (pushed_returns _ (playSnare (cursor w3 + dur / 2) 0.7 (ToBus MasterCompressor)))
    by (apply playSnare_returns; rewrite H3; unfold Qdiv; change (/ 2) with (1 # 2); lra).
  set (w4 := pushed _ w3).
  assert (H4 : cursor w4 = cursor w) by (unfold w4; now rewrite cursor_pushed).
  destruct (forEach_returns (fun w' => cursor w' = cursor w)
              (fun i w => Exceptions.pushed
                            (Exceptions.playHiHat (cursor w + dur / 4 * ofNat i) 0.3
                                                  (ToBus MasterCompressor)) w)
              (fun w i => pushed (playHiHat (cursor w + dur / 4 * ofNat i) 0.3
                                            (ToBus MasterCompressor)) w)
              (seq 0 4) w4) as [-> _]; [|exact H4|reflexivity].
  intros i w' Hw'. split; [|now rewrite cursor_pushed].
  rewrite Hw'. apply pushed_returns, playHiHat_returns.
  pose proof (ofNat_nonneg i). assert (0 <= dur / 4 * ofNat i); [|lra].
  unfold Qdiv. change (/ 4) with (1 # 4). nra.
Qed.

Lemma renderChordLine_returns barDur chordLine w :
  0 <= cursor w -> 0 <= barDur ->
  Exceptions.renderChordLine barDur chordLine w
  = Returned (renderChordLine barDur chordLine w)
  /\ 0 <= cursor (renderChordLine barDur chordLine w).
Proof.
  intros Hc Hb. unfold Exceptions.renderChordLine, renderChordLine.
  apply (forEach_returns (fun w => 0 <= cursor w)); [|exact Hc].
  intros c w' Hw'.
  assert (Hd : 0 <= barDur / ofNat (lengthOr1 (chordsOfLine chordLine))).
  { apply Qle_shift_div_l; [|lra].
    unfold lengthOr1, ofNat. destruct (length _); rewrite <- (Zlt_Qlt 0); lia. }
  split; [now apply renderChord_returns|]. rewrite renderChord_cursor. lra.
Qed.

Lemma renderSection_returns barDur section w :
  0 <= cursor w -> 0 <= barDur ->
  Exceptions.renderSection barDur section w = Returned (renderSection barDur section w)
  /\ 0 <= cursor (renderSection barDur section w).
Proof.
  intros Hc Hb. unfold Exceptions.renderSection, renderSection.
  apply (forEach_returns (fun w => 0 <= cursor w)); [|exact Hc].
  intros cl w' Hw'. now apply renderChordLine_returns.
Qed.

(** With a positive tempo and a start time that is not negative, no call
    of the walk throws. *)
Lemma renderMusicToContext_returns ctx song hasVocal startTime :
  (0 < bpmOf (tempo song))%Z -> 0 <= startTime ->
  Exceptions.renderMusicToContext ctx song hasVocal startTime
  = Returned (renderMusicToContext ctx song hasVocal startTime).
Proof.
  intros Hb Hs. unfold Exceptions.renderMusicToContext, renderMusicToContext.
  pose proof (Qlt_le_weak _ _ (barDuration_pos _ Hb)) as HB.
  change (AudioEngine.barDuration (bpmOf (tempo song)))
    with (barDurOf (bpmOf (tempo song))) in HB.
  set (w0 := if hasVocal then playVocals startTime (mkWalk startTime ctx [])
             else mkWalk startTime ctx []).
  assert (E0 : (if hasVocal then Exceptions.playVocals startTime (mkWalk startTime ctx [])
                else Returned (mkWalk startTime ctx [])) = Returned w0).
  { unfold w0. destruct hasVocal; [|reflexivity]. unfold Exceptions.playVocals.
    rewrite accepted_all; [reflexivity|repeat constructor; lra]. }
  rewrite E0.
  destruct (forEach_returns (fun w => 0 <= cursor w)
              (Exceptions.renderSection (barDurOf (bpmOf (tempo song))))
              (fun w section => renderSection (barDurOf (bpmOf (tempo song))) section w)
              (sections song) w0) as [-> _]; [| |reflexivity].
  - intros section w Hw. now apply renderSection_returns.
  - unfold w0. destruct hasVocal; simpl; exact Hs.
Qed.

(** ** A walk that returns is the walk of [OfflineEngine] *)

Lemma renderChord_returned dur c :
  returnsAs (Exceptions.renderChord dur c) (renderChord dur c).
Proof.
  intros w w'. unfold Exceptions.renderChord, renderChord.
  destruct (0 <? length (getChordFrequencies_offline c))%nat; [|now intros [= <-]].
  destruct (forEach _ (getChordFrequencies_offline c) w) as [w1|] eqn:E1; [|discriminate].
  apply (forEach_returned _
           (fun w f => pushed (playNote f (cursor w) dur synth (ToBus MusicBus) 0.15) w))
    in E1;
    [|intros f;
      apply (pushed_at_returned
               (fun w => Exceptions.playNote f (cursor w) dur synth (ToBus MusicBus) 0.15)
               (fun w => playNote f (cursor w) dur synth (ToBus MusicBus) 0.15));
      intros w0; apply playNote_returned].
  subst w1. set (w1 := foldl _ w _).
  destruct (Exceptions.pushed _ w1) as [w2|] eqn:E2; [|discriminate].
  apply (pushed_returned _ _ (playNote_returned _ _ _ _ _ _)) in E2. subst w2.
  set (w2 := pushed _ w1).
  destruct (Exceptions.pushed _ w2) as [w3|] eqn:E3; [|discriminate].
  apply (pushed_returned _ _ (playKick_returned _ _ _ _)) in E3. subst w3.
  set (w3 := pushed _ w2).
  destruct (Exceptions.pushed _ w3) as [w4|] eqn:E4; [|discriminate].
  apply (pushed_returned _ _ (playSnare_returned _ _ _)) in E4. subst w4.
  set (w4 := pushed _ w3).
  destruct (forEach _ (seq 0 4) w4) as [w5|] eqn:E5; [|discriminate].
  apply (forEach_returned _
           (fun w i => pushed (playHiHat (cursor w + dur / 4 * ofNat i) 0.3
                                         (ToBus MasterCompressor)) w))
    in E5;
    [|intros i;
      apply (pushed_at_returned
               (fun w => Exceptions.playHiHat (cursor w + dur / 4 * ofNat i) 0.3
                                              (ToBus MasterCompressor))
               (fun w => playHiHat (cursor w + dur / 4 * ofNat i) 0.3
                                   (ToBus MasterCompressor)));
      intros w0; apply playHiHat_returned].
  subst w5. now intros [= <-].
Qed.

Lemma renderSection_returned barDur section :
  returnsAs (Exceptions.renderSection barDur section) (renderSection barDur section).
Proof.
  unfold Exceptions.renderSection, renderSection.
  apply (forEach_returned _ (fun w cl => renderChordLine barDur cl w)).
  intros cl. unfold Exceptions.renderChordLine, renderChordLine.
  apply (forEach_returned _
           (fun w c => renderChord (barDur / ofNat (lengthOr1 (chordsOfLine cl))) c w)).
  intros c. apply renderChord_returned.
Qed.

(** Whatever the tempo, a walk that returns has done what
    [OfflineEngine.renderMusicToContext] describes. *)
Lemma renderMusicToContext_returned ctx song hasVocal startTime r :
  Exceptions.renderMusicToContext ctx song hasVocal startTime = Returned r ->
  r = renderMusicToContext ctx song hasVocal startTime.
Proof.
  unfold Exceptions.renderMusicToContext, renderMusicToContext.
  set (w0 := if hasVocal then playVocals startTime (mkWalk startTime ctx [])
             else mkWalk startTime ctx []).
  destruct (if hasVocal then Exceptions.playVocals _ _ else Returned _)
    as [w0'|] eqn:E0; [|discriminate].
  assert (w0' = w0) as ->.
  { unfold w0. destruct hasVocal; [|now injection E0 as <-].
    unfold Exceptions.playVocals in E0. destruct (accepted _); [|discriminate].
    now injection E0 as <-. }
  destruct (forEach _ (sections song) w0) as [w1|] eqn:E1; [|discriminate].
  apply (forEach_returned _
           (fun w section => renderSection (barDurOf (bpmOf (tempo song))) section w))
    in E1; [|intros section; apply renderSection_returned].
  subst w1. now intros [= <-].
Qed.

(** ** When the walk throws *)

(** The chord name has notes in the resolver of the walk. *)
Definition resolves (c : string) : bool :=
  (0 <? length (getChordFrequencies_offline c))%nat.

Definition resolvesInLine (chordLine : string) : bool :=
  existsb resolves (chordsOfLine chordLine).

Definition resolvesInSection (section : SongSection) : bool :=
  existsb resolvesInLine (chords section).

Definition resolvesInSong (song : Song) : bool :=
  existsb resolvesInSection (sections song).

(** A chord that does not resolve moves the cursor and nothing else,
    whatever the sign of the slot. *)
Lemma renderChord_unresolved dur c w :
  resolves c = false ->
  Exceptions.renderChord dur c w
  = Returned (mkWalk (cursor w + dur) (context w) (handles w)).
Proof. intros H. unfold Exceptions.renderChord. unfold resolves in H. now rewrite H. Qed.

(** A chord that resolves throws when its slot ends before time zero:
    the first note is given the end of the slot for its ramp. *)
Lemma renderChord_throws dur c w :
  resolves c = true -> cursor w + dur < 0 ->
  exists ctx, Exceptions.renderChord dur c w = Thrown ctx.
Proof.
  intros H Hneg. unfold Exceptions.renderChord. unfold resolves in H. rewrite H.
  destruct (getChordFrequencies_offline c) as [|f fs]; [discriminate H|].
  cbn [forEach]. unfold Exceptions.pushed at 1, Exceptions.playNote at 1.
  rewrite (accepted_negative _ (cursor w + dur)); [|simpl; tauto|exact Hneg].
  eexists. reflexivity.
Qed.

(** A loop throws at the first step that throws. *)
Lemma forEach_first {A} (I : Walk -> Prop) (bad : A -> bool)
      (body : A -> Walk -> Outcome Walk) (l : list A) w :
  (forall x w, I w -> bad x = true -> exists ctx, body x w = Thrown ctx) ->
  (forall x w, I w -> bad x = false ->
               exists w', body x w = Returned w' /\ I w' /\ context w' = context w) ->
  I w ->
  if existsb bad l
  then exists ctx, forEach body l w = Thrown ctx
  else exists w', forEach body l w = Returned w' /\ I w' /\ context w' = context w.
Proof.
  intros Hbad Hgood. revert w. induction l as [|x l IH]; intros w Hw; simpl.
  - exists w. now repeat split.
  - destruct (bad x) eqn:Ex; simpl.
    + destruct (Hbad x w Hw Ex) as (ctx & ->). now exists ctx.
    + destruct (Hgood x w Hw Ex) as (w' & -> & Hw' & Hc).
      specialize (IH w' Hw'). destruct (existsb bad l); [exact IH|].
      destruct IH as (w'' & E & Hw'' & Hc'). exists w''.
      split; [exact E|]. split; [exact Hw''|congruence].
Qed.

Lemma renderChordLine_first barDur chordLine w :
  barDur < 0 -> cursor w <= 0 ->
  if resolvesInLine chordLine
  then exists ctx, Exceptions.renderChordLine barDur chordLine w = Thrown ctx
  else exists w', Exceptions.renderChordLine barDur chordLine w = Returned w'
                  /\ cursor w' <= 0 /\ context w' = context w.
Proof.
  intros Hb Hc. unfold Exceptions.renderChordLine, resolvesInLine.
  assert (Hd : barDur / ofNat (lengthOr1 (chordsOfLine chordLine)) < 0).
  { assert (Hn : 0 < ofNat (lengthOr1 (chordsOfLine chordLine))).
    { unfold lengthOr1, ofNat. destruct (length _); rewrite <- (Zlt_Qlt 0); lia. }
    apply Qlt_shift_div_r; [exact Hn|]. lra. }
  apply (forEach_first (fun w => cursor w <= 0)); [| |exact Hc].
  - intros c w0 Hw0 Hr. apply renderChord_throws; [exact Hr|lra].
  - intros c w0 Hw0 Hr. rewrite (renderChord_unresolved _ _ _ Hr). eexists.
    split; [reflexivity|]. split; [simpl; lra|reflexivity].
Qed.

Lemma renderSection_first barDur section w :
  barDur < 0 -> cursor w <= 0 ->
  if resolvesInSection section
  then exists ctx, Exceptions.renderSection barDur section w = Thrown ctx
  else exists w', Exceptions.renderSection barDur section w = Returned w'
                  /\ cursor w' <= 0 /\ context w' = context w.
Proof.
  intros Hb Hc. unfold Exceptions.renderSection, resolvesInSection.
  apply (forEach_first (fun w => cursor w <= 0)); [| |exact Hc].
  - intros cl w0 Hw0 Hr.
    pose proof (renderChordLine_first barDur cl w0 Hb Hw0) as H. now rewrite Hr in H.
  - intros cl w0 Hw0 Hr.
    pose proof (renderChordLine_first barDur cl w0 Hb Hw0) as H. now rewrite Hr in H.
Qed.

Lemma barDurOf_negative bpm : (bpm < 0)%Z -> barDurOf bpm < 0.
Proof.
  intros Hb. unfold barDurOf.
  assert (H : 0 < 60 / inject_Z (- bpm)).
  { apply Qlt_shift_div_l; [rewrite <- (Zlt_Qlt 0); lia|lra]. }
  assert (E : 60 / inject_Z bpm == - (60 / inject_Z (- bpm))).
  { rewrite inject_Z_opp. field. intros H0.
    assert (inject_Z bpm < 0) by (rewrite <- (Zlt_Qlt _ 0); exact Hb). lra. }
  rewrite E. lra.
Qed.

(** The walk of the offline export, which starts at time zero, with a
    negative tempo: it throws when a chord of the song resolves, and
    returns, having created nothing for the chords, when none does. *)
Lemma renderMusicToContext_negative song hasVocal :
  (bpmOf (tempo song) < 0)%Z ->
  if resolvesInSong song
  then exists ctx,
         Exceptions.renderMusicToContext newContext song hasVocal 0 = Thrown ctx
  else Exceptions.renderMusicToContext newContext song hasVocal 0
       = Returned (renderMusicToContext newContext song hasVocal 0).
Proof.
  intros Hb. pose proof (barDurOf_negative _ Hb) as HB.
  unfold Exceptions.renderMusicToContext at 1.
  set (w0 := if hasVocal then playVocals 0 (mkWalk 0 newContext [])
             else mkWalk 0 newContext []).
  assert (E0 : (if hasVocal then Exceptions.playVocals 0 (mkWalk 0 newContext [])
                else Returned (mkWalk 0 newContext [])) = Returned w0).
  { unfold w0. destruct hasVocal; reflexivity. }
  rewrite E0.
  assert (Hc : cursor w0 <= 0) by (unfold w0; destruct hasVocal; simpl; lra).
  pose proof (forEach_first (fun w => cursor w <= 0) resolvesInSection
                (Exceptions.renderSection (barDurOf (bpmOf (tempo song))))
                (sections song) w0) as H.
  fold (resolvesInSong song) in H.
  destruct (resolvesInSong song) eqn:Er.
  - destruct H as (ctx & E); [| |exact Hc|].
    + intros s w Hw Hr.
      pose proof (renderSection_first _ s w HB Hw) as H. now rewrite Hr in H.
    + intros s w Hw Hr.
      pose proof (renderSection_first _ s w HB Hw) as H. now rewrite Hr in H.
    + exists ctx. now rewrite E.
  - destruct (Exceptions.renderMusicToContext newContext song hasVocal 0) as [r|ctx] eqn:E.
    + now rewrite (renderMusicToContext_returned _ _ _ _ _ E).
    + exfalso. destruct H as (w' & E' & _); [| |exact Hc|].
      * intros s w Hw Hr.
        pose proof (renderSection_first _ s w HB Hw) as H. now rewrite Hr in H.
      * intros s w Hw Hr.
        pose proof (renderSection_first _ s w HB Hw) as H. now rewrite Hr in H.
      * unfold Exceptions.renderMusicToContext in E. fold w0 in E. rewrite E0, E' in E.
        discriminate E.
Qed.

End ExceptionFacts.

(* ================================================================== *)
(** * The tempo *)
(* ================================================================== *)

Module TempoFacts.
Local Open Scope Q_scope.

#[local] Arguments JS.isDigit : simpl never.
#[local] Arguments JS.isWhiteSpace : simpl never.
#[local] Arguments JS.hexValue : simpl never.

(** A JavaScript number. *)
Inductive JSNumber := Finite (q : Q) | PosInfinity | NegInfinity | NaN.

(** [60 / bpm] as JavaScript computes it for an integer [bpm]; the
    engines use [60 / inject_Z bpm], the same number when [bpm <> 0]. *)
Definition secondsPerBeat (bpm : Z) : JSNumber :=
  if (bpm =? 0)%Z then PosInfinity else Finite (60 / inject_Z bpm).




















(** ** The integer at the start of a tempo *)



















End TempoFacts.

(* ================================================================== *)
(** * The chord names of a line *)
(* ================================================================== *)

Module SeparatorFacts.










End SeparatorFacts.

(* ================================================================== *)
(** * Chord slots and the cursor, in both engines *)
(* ================================================================== *)

Module SlotFacts.
Import WebAudio ChordResolver SeparatorFacts.
Local Open Scope Q_scope.




End SlotFacts.

(* ================================================================== *)
(** * Facts about the WAV encoder *)
(* ================================================================== *)

Module WavFacts.
Import WebAudio OfflineEngine Wav.
Local Open Scope Z_scope.

(** ** Sequential stores *)

(** The writer after [written] was stored from the start, with [k] bytes
    of the buffer still zero. *)
Definition filled (written : list Z) (k : nat) : Writer :=
  mkWriter (written ++ replicate k 0) (length written).

Lemma setBytes_filled written bs k :
  (length bs <= k)%nat ->
  setBytes bs (filled written k) = Some (filled (written ++ bs) (k - length bs)).
Proof.
  intros Hk. unfold setBytes, filled. simpl.
  rewrite length_app, length_replicate.
  destruct (Nat.leb_spec (length written + length bs) (length written + k)); [|lia].
  f_equal. rewrite take_app_length, drop_app_add, drop_replicate, length_app.
  now rewrite <- app_assoc.
Qed.

Lemma length_littleEndian n x : length (littleEndian n x) = n.
Proof. unfold littleEndian. now rewrite length_map, length_seq. Qed.

Lemma writeFrame_filled channels offset (l : list nat) written k :
  (2 * length l <= k)%nat ->
  forEachM (fun i => setInt16 (scale (clamp (sampleAt channels i offset)))) l
           (filled written k)
  = Some (filled (written
                  ++ flat_map (fun i => littleEndian 2
                                          (truncate (scale (clamp (sampleAt channels i offset)))))
                              l)
                 (k - 2 * length l)).
Proof.
  revert written k. induction l as [|i l IH]; intros written k Hk; simpl.
  - now rewrite app_nil_r, Nat.sub_0_r.
  - unfold setInt16 at 1. rewrite setBytes_filled by (rewrite length_littleEndian; simpl in Hk; lia).
    rewrite length_littleEndian. simpl in Hk. rewrite IH by lia.
    rewrite <- app_assoc. do 2 f_equal. lia.
Qed.

Lemma length_flat_map_chunks {A} (c : nat) (g : A -> list Z) (l : list A) :
  (forall x, length (g x) = c) -> length (flat_map g l) = (c * length l)%nat.
Proof.
  intros Hg. induction l as [|x l IH]; simpl; [lia|].
  rewrite length_app, Hg, IH. lia.
Qed.

(** The samples of one frame, interleaved. *)
Definition frameBytes (channels : list (list Q)) (numOfChan offset : nat) : list Z :=
  flat_map (fun i => littleEndian 2 (truncate (scale (clamp (sampleAt channels i offset)))))
           (seq 0 numOfChan).

Lemma length_frameBytes channels numOfChan offset :
  length (frameBytes channels numOfChan offset) = (2 * numOfChan)%nat.
Proof.
  unfold frameBytes.
  rewrite (length_flat_map_chunks 2) by (intros; apply length_littleEndian).
  now rewrite length_seq.
Qed.

(** The sample loop: with [frames] frames left to write and as much
    fuel, it writes them all. *)
Lemma frames_written channels (numOfChan total frames offset : nat) written :
  (length written + frames * (2 * numOfChan))%nat = total ->
  whileM frames
         (fun s => (pos (fst s) <? total)%nat)
         (fun s => do w <- writeFrame channels numOfChan (snd s) (fst s) ;
                   Some (w, S (snd s)))
         (filled written (frames * (2 * numOfChan)), offset)
  = Some (filled (written ++ flat_map (frameBytes channels numOfChan) (seq offset frames)) 0,
          if (0 <? numOfChan)%nat then (offset + frames)%nat else offset).
Proof.
  revert offset written. induction frames as [|frames IH]; intros offset written Ht.
  - simpl in *. destruct (Nat.ltb_spec (length written) total); [lia|].
    rewrite app_nil_r, Nat.add_0_r. now destruct (0 <? numOfChan)%nat.
  - destruct numOfChan as [|n].
    + cbn [whileM fst pos filled]. destruct (Nat.ltb_spec (length written) total); [lia|].
      rewrite Nat.mul_0_r. f_equal. f_equal.
      assert (H0 : forall a m, flat_map (frameBytes channels 0) (seq a m) = []).
      { intros a m. revert a. induction m; intros a; simpl; auto. }
      now rewrite H0, app_nil_r.
    + cbn [whileM fst snd pos filled].
      destruct (Nat.ltb_spec (length written) total); [|lia].
      unfold writeFrame.
      change (S frames * (2 * S n))%nat with (2 * S n + frames * (2 * S n))%nat.
      rewrite writeFrame_filled by (rewrite length_seq; lia).
      rewrite length_seq.
      replace (2 * S n + frames * (2 * S n) - 2 * S n)%nat with (frames * (2 * S n))%nat by lia.
      fold (frameBytes channels (S n) offset).
      rewrite IH.
      * simpl. rewrite <- app_assoc. do 3 f_equal. lia.
      * rewrite length_app, length_frameBytes. lia.
Qed.

(** ** The bytes of the blob *)

(** The 44 bytes of the header, for a channel count, a sample rate and a
    number of sample frames. *)
Definition header (numOfChan : nat) (sampleRate : Z) (frames : nat) : list Z :=
  let length := Z.of_nat (frames * numOfChan * 2 + 44) in
  littleEndian 4 0x46464952 ++ littleEndian 4 (length - 8)
  ++ littleEndian 4 0x45564157 ++ littleEndian 4 0x20746d66
  ++ littleEndian 4 16 ++ littleEndian 2 1 ++ littleEndian 2 (Z.of_nat numOfChan)
  ++ littleEndian 4 sampleRate
  ++ littleEndian 4 (sampleRate * 2 * Z.of_nat numOfChan)
  ++ littleEndian 2 (Z.of_nat numOfChan * 2) ++ littleEndian 2 16
  ++ littleEndian 4 0x61746164 ++ littleEndian 4 (length - 40 - 4).

(** The sample data: frame after frame, the channels interleaved. *)
Definition sampleData (buffer : AudioBuffer.t) : list Z :=
  flat_map (frameBytes (AudioBuffer.channelData buffer)
                       (AudioBuffer.numberOfChannels buffer))
           (seq 0 (AudioBuffer.length buffer)).

Lemma length_header numOfChan sampleRate frames :
  length (header numOfChan sampleRate frames) = 44%nat.
Proof. reflexivity. Qed.

(** The encoder returns, and its output is the header followed by the
    sample data. *)
Lemma audioBufferToWav_bytes buffer :
  audioBufferToWav buffer
  = Some (header (AudioBuffer.numberOfChannels buffer) (AudioBuffer.sampleRate buffer)
                 (AudioBuffer.length buffer)
          ++ sampleData buffer).
Proof.
  unfold audioBufferToWav, setUint32, setUint16.
  set (n := AudioBuffer.numberOfChannels buffer).
  set (len := AudioBuffer.length buffer).
  set (rate := AudioBuffer.sampleRate buffer).
  change (newWriter (len * n * 2 + 44)) with (filled [] (len * n * 2 + 44)).
  cbv zeta.
  do 12 (rewrite setBytes_filled by (rewrite length_littleEndian; lia);
         rewrite length_littleEndian).
  cbn [pos filled].
  rewrite setBytes_filled by (rewrite length_littleEndian; lia).
  rewrite length_littleEndian.
  replace (len * n * 2 + 44 - 4 - 4 - 4 - 4 - 4 - 2 - 2 - 4 - 4 - 2 - 2 - 4 - 4)%nat
    with (len * (2 * n))%nat by lia.
  rewrite frames_written.
  - cbn [fst view filled]. rewrite app_nil_r. reflexivity.
  - rewrite !length_app, !length_littleEndian. simpl. lia.
Qed.

(** ** Reading a WAV file *)

(** The unsigned 16-bit and 32-bit little-endian integers, the signed
    16-bit one and the four-character tag at an offset of a file. *)
Definition u16At (bytes : list Z) (off : nat) : Z :=
  match drop off bytes with
  | a :: b :: _ => a + 256 * b
  | _ => 0
  end.

Definition u32At (bytes : list Z) (off : nat) : Z :=
  match drop off bytes with
  | a :: b :: c :: d :: _ => a + 256 * b + 65536 * c + 16777216 * d
  | _ => 0
  end.

Definition i16At (bytes : list Z) (off : nat) : Z :=
  let u := u16At bytes off in if u <? 32768 then u else u - 65536.

Definition tagAt (bytes : list Z) (off : nat) : string :=
  string_of_list_ascii
    (List.map (fun b => ascii_of_N (Z.to_N b)) (take 4 (drop off bytes))).

Lemma littleEndian_2 x : littleEndian 2 x = [x mod 256; (x / 256) mod 256].
Proof.
  unfold littleEndian. cbn [List.map seq].
  change (2 ^ (8 * Z.of_nat 0)) with 1. change (2 ^ (8 * Z.of_nat 1)) with 256.
  now rewrite Z.div_1_r.
Qed.

Lemma littleEndian_4 x :
  littleEndian 4 x
  = [x mod 256; (x / 256) mod 256; (x / 65536) mod 256; (x / 16777216) mod 256].
Proof.
  unfold littleEndian. cbn [List.map seq].
  change (2 ^ (8 * Z.of_nat 0)) with 1. change (2 ^ (8 * Z.of_nat 1)) with 256.
  change (2 ^ (8 * Z.of_nat 2)) with 65536. change (2 ^ (8 * Z.of_nat 3)) with 16777216.
  now rewrite Z.div_1_r.
Qed.

Lemma u16_littleEndian x rest :
  0 <= x < 65536 -> u16At (littleEndian 2 x ++ rest) 0 = x.
Proof.
  intros H. rewrite littleEndian_2. unfold u16At. cbn [drop app].
  Z.div_mod_to_equations. lia.
Qed.

Lemma u32_littleEndian x rest :
  0 <= x < 4294967296 -> u32At (littleEndian 4 x ++ rest) 0 = x.
Proof.
  intros H. rewrite littleEndian_4. unfold u32At. cbn [drop app].
  Z.div_mod_to_equations. lia.
Qed.

Lemma i16_littleEndian x rest :
  -32768 <= x < 32768 -> i16At (littleEndian 2 x ++ rest) 0 = x.
Proof.
  intros H. rewrite littleEndian_2. unfold i16At, u16At. cbn [drop app].
  destruct (Z.ltb_spec (x mod 256 + 256 * (x / 256 mod 256)) 32768);
    Z.div_mod_to_equations; lia.
Qed.

Lemma u16At_drop bytes off : u16At bytes off = u16At (drop off bytes) 0.
Proof. reflexivity. Qed.

Lemma u32At_drop bytes off : u32At bytes off = u32At (drop off bytes) 0.
Proof. reflexivity. Qed.

Lemma i16At_drop bytes off : i16At bytes off = i16At (drop off bytes) 0.
Proof. reflexivity. Qed.

(** ** The samples *)

Lemma truncate_bounds (q : Q) (lo hi : Z) :
  lo <= 0 <= hi -> (inject_Z lo <= q <= inject_Z hi)%Q -> lo <= truncate q <= hi.
Proof.
  intros Hz [Hlo Hhi]. unfold truncate. destruct q as [a b].
  unfold Qle in *. simpl in *.
  assert (Hb : 0 < Z.pos b) by lia.
  destruct (Z_le_gt_dec 0 a).
  - rewrite Z.quot_div_nonneg by lia. split.
    + pose proof (Z.div_pos a (Z.pos b) ltac:(lia) Hb). lia.
    + apply Z.div_le_upper_bound; lia.
  - replace a with (- - a) by lia. rewrite Z.quot_opp_l by lia.
    rewrite Z.quot_div_nonneg by lia. split.
    + pose proof (Z.div_le_upper_bound (- a) (Z.pos b) (- lo) Hb ltac:(lia)). lia.
    + pose proof (Z.div_pos (- a) (Z.pos b) ltac:(lia) Hb). lia.
Qed.

Lemma clamp_bounds x : (-1 <= clamp x <= 1)%Q.
Proof.
  unfold clamp. destruct (Qltb x 1) eqn:E1.
  - apply AudioEngineFacts.Qltb_lt in E1.
    destruct (Qltb x (-1)) eqn:E2; [lra|].
    apply AudioEngineFacts.Qltb_ge in E2. lra.
  - destruct (Qltb 1 (-1)) eqn:E2; [|lra].
    apply AudioEngineFacts.Qltb_lt in E2. lra.
Qed.

(** A sample that was clamped and scaled fits a signed 16-bit integer. *)
Lemma sample_fits x :
  (-1 <= x <= 1)%Q -> -32768 <= truncate (scale x) < 32768.
Proof.
  intros Hx.
  assert (H : -32768 <= truncate (scale x) <= 32767); [|lia].
  apply truncate_bounds; [lia|]. unfold scale.
  destruct (Qltb x 0) eqn:E0.
  - apply AudioEngineFacts.Qltb_lt in E0.
    change (inject_Z (-32768)) with (-32768)%Q. change (inject_Z 32767) with 32767%Q.
    change (0x8000)%Q with 32768%Q. lra.
  - apply AudioEngineFacts.Qltb_ge in E0.
    change (inject_Z (-32768)) with (-32768)%Q. change (inject_Z 32767) with 32767%Q.
    change (0x7FFF)%Q with 32767%Q. lra.
Qed.

Lemma drop_flat_map_chunks {A} (c : nat) (g : A -> list Z) (l : list A) (k : nat) :
  (forall x, length (g x) = c) ->
  drop (c * k) (flat_map g l) = flat_map g (drop k l).
Proof.
  intros Hg. revert l. induction k as [|k IH]; intros l.
  - now rewrite Nat.mul_0_r.
  - destruct l as [|x l]; [simpl; apply drop_nil|]. simpl.
    replace (c * S k)%nat with (length (g x) + c * k)%nat by (rewrite Hg; lia).
    rewrite drop_app_add. apply IH.
Qed.

Lemma drop_seq_cons a n k :
  (k < n)%nat -> drop k (seq a n) = (a + k)%nat :: seq (S (a + k)) (n - S k).
Proof.
  revert a n. induction k as [|k IH]; intros a n Hk.
  - destruct n; [lia|]. simpl. now rewrite Nat.add_0_r, Nat.sub_0_r.
  - destruct n; [lia|]. simpl. rewrite IH by lia. f_equal; [lia|f_equal; lia].
Qed.

(** The two bytes at the place of the sample of channel [ch] in frame
    [frame]. *)
Lemma sample_bytes buffer frame ch :
  (frame < AudioBuffer.length buffer)%nat ->
  (ch < AudioBuffer.numberOfChannels buffer)%nat ->
  exists rest,
    drop (2 * (frame * AudioBuffer.numberOfChannels buffer + ch)) (sampleData buffer)
    = littleEndian 2 (truncate (scale (clamp
                        (sampleAt (AudioBuffer.channelData buffer) ch frame)))) ++ rest.
Proof.
  intros Hf Hc. unfold sampleData.
  set (n := AudioBuffer.numberOfChannels buffer) in *.
  set (channels := AudioBuffer.channelData buffer).
  replace (2 * (frame * n + ch))%nat with ((2 * n) * frame + 2 * ch)%nat by lia.
  rewrite <- drop_drop.
  rewrite (drop_flat_map_chunks (2 * n)) by (intros; apply length_frameBytes).
  rewrite drop_seq_cons by assumption. simpl flat_map.
  rewrite drop_app_le by (rewrite length_frameBytes; lia).
  unfold frameBytes at 1.
  rewrite (drop_flat_map_chunks 2) by (intros; apply length_littleEndian).
  rewrite drop_seq_cons by assumption. simpl flat_map.
  rewrite <- ?app_assoc. eexists. reflexivity.
Qed.

(** ** The file is well formed *)

(** A buffer as the Web Audio API hands it out, of a size that the
    32-bit and 16-bit fields of a WAV header can hold. *)
Definition encodable (b : AudioBuffer.t) : Prop :=
  length (AudioBuffer.channelData b) = AudioBuffer.numberOfChannels b
  /\ Forall (fun ch => length ch = AudioBuffer.length b) (AudioBuffer.channelData b)
  /\ Z.of_nat (AudioBuffer.numberOfChannels b) < 32768
  /\ 0 <= AudioBuffer.sampleRate b < 4294967296
  /\ AudioBuffer.sampleRate b * 2 * Z.of_nat (AudioBuffer.numberOfChannels b) < 4294967296
  /\ Z.of_nat (AudioBuffer.length b * AudioBuffer.numberOfChannels b * 2 + 44)
     < 4294967296.

(** What a reader finds in a file: the 44-byte header of a PCM WAV file
    for a channel count and a sample rate, consistent with the length of
    the file. *)
Definition pcmHeader (bytes : list Z) (numOfChan sampleRate : Z) : Prop :=
  tagAt bytes 0 = "RIFF"
  /\ u32At bytes 4 = Z.of_nat (length bytes) - 8
  /\ tagAt bytes 8 = "WAVE"
  /\ tagAt bytes 12 = "fmt "
  /\ u32At bytes 16 = 16
  /\ u16At bytes 20 = 1
  /\ u16At bytes 22 = numOfChan
  /\ u32At bytes 24 = sampleRate
  /\ u32At bytes 28 = sampleRate * numOfChan * 2
  /\ u16At bytes 32 = numOfChan * 2
  /\ u16At bytes 34 = 16
  /\ tagAt bytes 36 = "data"
  /\ u32At bytes 40 = Z.of_nat (length bytes) - 44.

Lemma length_sampleData buffer :
  length (sampleData buffer)
  = (2 * AudioBuffer.numberOfChannels buffer * AudioBuffer.length buffer)%nat.
Proof.
  unfold sampleData.
  rewrite (length_flat_map_chunks (2 * AudioBuffer.numberOfChannels buffer))
    by (intros; apply length_frameBytes).
  now rewrite length_seq.
Qed.

Lemma header_read n rate frames data :
  Z.of_nat n < 32768 -> 0 <= rate < 4294967296 ->
  rate * 2 * Z.of_nat n < 4294967296 ->
  Z.of_nat (frames * n * 2 + 44) < 4294967296 ->
  length data = (2 * n * frames)%nat ->
  pcmHeader (header n rate frames ++ data) (Z.of_nat n) rate.
Proof.
  intros Hn Hr Hrn Ht Hd. unfold pcmHeader.
  rewrite length_app, length_header, Hd.
  replace (Z.of_nat (44 + 2 * n * frames)) with (Z.of_nat (frames * n * 2 + 44)) by lia.
  set (total := Z.of_nat (frames * n * 2 + 44)) in *.
  assert (Htot : 44 <= total) by (unfold total; lia).
  unfold header. fold total. rewrite !littleEndian_4, !littleEndian_2.
  unfold tagAt, u32At, u16At. cbn [app drop take List.map].
  repeat split; try reflexivity; Z.div_mod_to_equations; lia.
Qed.

(** ** The value of a stored sample *)

Lemma truncate_nonneg (q : Q) : (0 <= q)%Q -> truncate q = Qfloor q.
Proof.
  destruct q as [a b]. unfold Qle. simpl. intros H.
  unfold truncate. simpl. apply Z.quot_div_nonneg; lia.
Qed.

Lemma truncate_nonpos (q : Q) : (q <= 0)%Q -> truncate q = Qceiling q.
Proof.
  destruct q as [a b]. unfold Qle. simpl. intros H.
  unfold truncate, Qceiling. simpl.
  rewrite <- (Z.opp_involutive a) at 1. rewrite Z.quot_opp_l by lia.
  f_equal. apply Z.quot_div_nonneg; lia.
Qed.

(** What the encoder stores for a sample [s]: the extreme values of a
    16-bit integer beyond [-1] and [1], and between them [s] scaled by
    [32768] below zero and by [32767] above, rounded toward zero. *)
Definition pcm16 (s : Q) (v : Z) : Prop :=
  ((s <= -1)%Q -> v = -32768)
  /\ ((-1 <= s <= 0)%Q -> v = Qceiling (s * 32768))
  /\ ((0 <= s <= 1)%Q -> v = Qfloor (s * 32767))
  /\ ((1 <= s)%Q -> v = 32767).

Lemma truncate_comp (q q' : Q) : (q == q')%Q -> truncate q = truncate q'.
Proof.
  intros E. destruct (Qlt_le_dec q 0) as [H|H].
  - rewrite !truncate_nonpos by lra. now apply Qceiling_comp.
  - rewrite !truncate_nonneg by lra. now apply Qfloor_comp.
Qed.

Lemma clamp_value (s : Q) :
  ((s <= -1)%Q -> (clamp s == -1)%Q)
  /\ ((-1 <= s <= 1)%Q -> (clamp s == s)%Q)
  /\ ((1 <= s)%Q -> (clamp s == 1)%Q).
Proof.
  unfold clamp.
  destruct (Qltb s 1) eqn:E1;
    [apply AudioEngineFacts.Qltb_lt in E1|apply AudioEngineFacts.Qltb_ge in E1].
  - destruct (Qltb s (-1)) eqn:E2;
      [apply AudioEngineFacts.Qltb_lt in E2|apply AudioEngineFacts.Qltb_ge in E2];
      (split; [|split]); intros H; lra.
  - change (Qltb 1 (-1)) with false. cbv iota.
    (split; [|split]); intros H; lra.
Qed.

Lemma scale_value (x : Q) :
  ((x < 0)%Q -> scale x = (x * 32768)%Q) /\ ((0 <= x)%Q -> scale x = (x * 32767)%Q).
Proof.
  unfold scale.
  destruct (Qltb x 0) eqn:E;
    [apply AudioEngineFacts.Qltb_lt in E|apply AudioEngineFacts.Qltb_ge in E];
    split; intros H; first [reflexivity|lra].
Qed.

Lemma scale_comp (x y : Q) : (x == y)%Q -> (scale x == scale y)%Q.
Proof.
  intros E. destruct (Qlt_le_dec x 0) as [H|H].
  - rewrite (proj1 (scale_value x)), (proj1 (scale_value y)) by lra. now rewrite E.
  - rewrite (proj2 (scale_value x)), (proj2 (scale_value y)) by lra. now rewrite E.
Qed.

Lemma encoded_pcm16 (s : Q) : pcm16 s (truncate (scale (clamp s))).
Proof.
  destruct (clamp_value s) as (Hlo & Hmid & Hhi).
  unfold pcm16. split; [|split; [|split]]; intros H.
  - now rewrite (truncate_comp _ _ (scale_comp _ _ (Hlo H))).
  - rewrite (truncate_comp _ _ (scale_comp _ _ (Hmid ltac:(lra)))).
    destruct (Qlt_le_dec s 0) as [Hs|Hs].
    + rewrite (proj1 (scale_value s) Hs). apply truncate_nonpos. lra.
    + rewrite (proj2 (scale_value s) Hs), truncate_nonneg by lra.
      assert (Es : (s == 0)%Q) by lra.
      rewrite (Qfloor_comp _ 0%Q), (Qceiling_comp _ 0%Q) by (rewrite Es; reflexivity).
      reflexivity.
  - rewrite (truncate_comp _ _ (scale_comp _ _ (Hmid ltac:(lra)))).
    destruct (Qlt_le_dec s 0) as [Hs|Hs]; [lra|].
    rewrite (proj2 (scale_value s) Hs). apply truncate_nonneg. lra.
  - now rewrite (truncate_comp _ _ (scale_comp _ _ (Hhi H))).
Qed.

(** The sample of channel [ch] in frame [frame] is stored, as a 16-bit
    integer, at byte [44 + 2 * (frame * channels + ch)]. *)
Lemma stored_sample buffer frame ch :
  (frame < AudioBuffer.length buffer)%nat ->
  (ch < AudioBuffer.numberOfChannels buffer)%nat ->
  i16At (header (AudioBuffer.numberOfChannels buffer) (AudioBuffer.sampleRate buffer)
                (AudioBuffer.length buffer) ++ sampleData buffer)
        (44 + 2 * (frame * AudioBuffer.numberOfChannels buffer + ch))
  = truncate (scale (clamp (sampleAt (AudioBuffer.channelData buffer) ch frame))).
Proof.
  intros Hf Hc. rewrite i16At_drop, drop_app_add' by reflexivity.
  destruct (sample_bytes buffer frame ch Hf Hc) as (rest & ->).
  apply i16_littleEndian, sample_fits, clamp_bounds.
Qed.

(** C10. For a buffer of a size a WAV header can describe, the encoder
    returns a file that starts with a 44-byte PCM header: the tags RIFF,
    WAVE, fmt and data, format 1, 16 bits per sample, the channel count
    and sample rate of the buffer, a byte rate of sample rate x channels
    x 2, a block align of channels x 2, and chunk sizes that agree with
    the length of the file; after it come the samples, frame after
    frame with the channels interleaved, each stored as a signed 16-bit
    integer: the sample clamped to [-1, 1], scaled by 32768 when it is
    negative and by 32767 otherwise, and rounded toward zero.  The
    offline export, when it is not rejected, is the encoding of a
    two-channel buffer at 44100 Hz of the length computed from the song;
    it is not rejected when the tempo is positive. *)
Theorem wav_file_well_formed :
  (forall buffer,
      encodable buffer ->
      exists bytes,
        audioBufferToWav buffer = Some bytes
        /\ length bytes
           = (44 + 2 * AudioBuffer.numberOfChannels buffer * AudioBuffer.length buffer)%nat
        /\ pcmHeader bytes (Z.of_nat (AudioBuffer.numberOfChannels buffer))
                     (AudioBuffer.sampleRate buffer)
        /\ forall frame ch,
            (frame < AudioBuffer.length buffer)%nat ->
            (ch < AudioBuffer.numberOfChannels buffer)%nat ->
            pcm16 (nth frame (nth ch (AudioBuffer.channelData buffer) []) 0%Q)
                  (i16At bytes (44 + 2 * (frame * AudioBuffer.numberOfChannels buffer + ch))))
  /\ (forall startRendering song hasVocal,
        (forall ctx channels frames rate,
            AudioBuffer.numberOfChannels (startRendering ctx channels frames rate) = channels
            /\ AudioBuffer.length (startRendering ctx channels frames rate) = frames
            /\ AudioBuffer.sampleRate (startRendering ctx channels frames rate) = rate) ->
        offlineLength song <> 0 ->
        4 * offlineLength song + 44 < 4294967296 ->
        ((0 < bpmOf (tempo song))%Z ->
         exists bytes, renderSongToBlob startRendering song hasVocal = Some bytes)
        /\ (forall bytes,
               renderSongToBlob startRendering song hasVocal = Some bytes ->
               length bytes = (44 + 4 * Z.to_nat (offlineLength song))%nat
               /\ pcmHeader bytes 2 44100
               /\ exists r,
                   Exceptions.renderMusicToContext newContext song hasVocal 0
                   = Exceptions.Returned r
                   /\ audioBufferToWav
                        (startRendering (rendered r) 2%nat
                                        (Z.to_nat (offlineLength song)) 44100)
                      = Some bytes)).
Proof.
  split.
  - intros buffer (Hch & Hlen & Hn & Hr & Hrn & Ht).
    rewrite audioBufferToWav_bytes. eexists. split; [reflexivity|].
    pose proof (length_sampleData buffer) as Hd. split; [|split].
    + now rewrite length_app, length_header, Hd.
    + now apply header_read.
    + intros frame ch Hf Hc. rewrite (stored_sample buffer frame ch Hf Hc).
      apply encoded_pcm16.
  - intros startRendering song hasVocal Hsr Hpos Hsize.
    assert (Hrange : 0 <= offlineLength song).
    { unfold offlineLength, JS.toUint32. destruct (JS.ceil _); [|lia].
      apply Z.mod_pos_bound. lia. }
    unfold renderSongToBlob.
    destruct (Z.eqb_spec (offlineLength song) 0) as [E|_]; [contradiction|].
    split.
    + intros Hb.
      rewrite (ExceptionFacts.renderMusicToContext_returns _ _ _ _ Hb) by apply Qle_refl.
      rewrite audioBufferToWav_bytes. eexists. reflexivity.
    + intros bytes.
      destruct (Exceptions.renderMusicToContext newContext song hasVocal 0)
        as [r|ctx]; [|discriminate].
      intros E. split; [|split]; [| |exists r; split; [reflexivity|exact E]].
      * set (b := startRendering _ _ _ _) in E.
        destruct (Hsr (rendered r) 2%nat (Z.to_nat (offlineLength song)) sampleRate)
          as (Hc & Hl & Hrate). fold b in Hc, Hl, Hrate.
        rewrite audioBufferToWav_bytes in E. apply (inj Some) in E. subst bytes.
        pose proof (length_sampleData b) as Hd. rewrite Hc, Hl in Hd.
        rewrite length_app, length_header, Hd. lia.
      * set (b := startRendering _ _ _ _) in E.
        destruct (Hsr (rendered r) 2%nat (Z.to_nat (offlineLength song)) sampleRate)
          as (Hc & Hl & Hrate). fold b in Hc, Hl, Hrate.
        rewrite audioBufferToWav_bytes in E. apply (inj Some) in E. subst bytes.
        pose proof (length_sampleData b) as Hd. rewrite Hc, Hl in Hd.
        rewrite Hc, Hl, Hrate.
        apply (header_read 2 sampleRate); unfold sampleRate; lia.
Qed.

Definition tinyBuffer : AudioBuffer.t :=
  {| AudioBuffer.numberOfChannels := 2; AudioBuffer.length := 3;
     AudioBuffer.sampleRate := 44100;
     AudioBuffer.channelData := [[0.5; -1; 2]; [-0.25; 1; -3]]%Q |}.

Lemma tinyBuffer_encodable : encodable tinyBuffer.
Proof.
  unfold encodable, tinyBuffer. simpl.
  repeat split; try lia; repeat constructor.
Qed.

(** A rendering that hands out silence of the length it is asked for. *)
Definition silence (ctx : Context) (channels frames : nat) (rate : Z) : AudioBuffer.t :=
  {| AudioBuffer.numberOfChannels := channels; AudioBuffer.length := frames;
     AudioBuffer.sampleRate := rate;
     AudioBuffer.channelData := replicate channels (replicate frames 0%Q) |}.

Lemma wav_file_well_formed_witness :
  (exists bytes,
      audioBufferToWav tinyBuffer = Some bytes
      /\ length bytes = (44 + 2 * 2 * 3)%nat
      /\ pcmHeader bytes 2 44100
      /\ forall frame ch,
          (frame < 3)%nat -> (ch < 2)%nat ->
          pcm16 (nth frame (nth ch (AudioBuffer.channelData tinyBuffer) []) 0%Q)
                (i16At bytes (44 + 2 * (frame * 2 + ch))))
  /\ (exists bytes,
        renderSongToBlob silence (OfflineEngineFacts.oneLineSong "120" ["C"]) false
        = Some bytes).
Proof.
  split.
  - apply (proj1 wav_file_well_formed tinyBuffer tinyBuffer_encodable).
  - apply (proj1 (proj2 wav_file_well_formed silence
                        (OfflineEngineFacts.oneLineSong "120" ["C"]) false
                        ltac:(intros; repeat split)
                        ltac:(vm_compute; discriminate)
                        ltac:(vm_compute; reflexivity))).
    reflexivity.
Defined.

End WavFacts.

(* ================================================================== *)
(** * Stopping *)
(* ================================================================== *)

Module StopFacts.
Import WebAudio.
Local Open Scope Q_scope.

(** A node that no longer sounds: disconnected and, for a source, told to
    stop at once. *)
Definition silenced (n : AudioNode) : Prop :=
  outputs n = [] /\ (isSource n = true -> stopTime n = Some 0).

Lemma stopNode_idem n : stopNode (stopNode n) = stopNode n.
Proof.
  unfold stopNode. destruct (isSource n) eqn:Es.
  - destruct (isStarted n) eqn:Et.
    + unfold isSource, isStarted in *. simpl. now rewrite Es, Et.
    + now rewrite Es, Et.
  - unfold isSource in *. simpl. now rewrite Es.
Qed.




Lemma stopNode_keeps_silenced n : silenced n -> silenced (stopNode n).
Proof.
  intros [Ho Hs]. unfold stopNode, silenced.
  destruct (isSource n) eqn:Es.
  - destruct (isStarted n); [now split|]. split; [assumption|]. intros _. now apply Hs.
  - split; [reflexivity|]. unfold isSource in *. simpl. rewrite Es. discriminate.
Qed.

(** The node at [id] after the loop of [stopAudio]. *)
Lemma stopAll_lookup heap active id :
  stopAll heap active !! id
  = (if bool_decide (elem_of id active) then stopNode else fun n => n) <$> heap !! id.
Proof.
  unfold stopAll. revert heap. induction active as [|a l IH]; intros heap; cbn [foldl].
  - rewrite bool_decide_eq_false_2 by apply not_elem_of_nil. now destruct (heap !! id).
  - rewrite IH. destruct (decide (a = id)) as [->|Hne].
    + rewrite list_lookup_alter_eq.
      rewrite (bool_decide_eq_true_2 (elem_of id (id :: l))) by (apply elem_of_cons; now left).
      destruct (heap !! id) as [n|]; simpl; [|reflexivity].
      destruct (bool_decide (elem_of id l)); [now rewrite stopNode_idem|reflexivity].
    + rewrite list_lookup_alter_ne by assumption.
      destruct (heap !! id) as [n|]; simpl; [|reflexivity].
      destruct (bool_decide_reflect (elem_of id l)) as [Hin|Hin].
      * now rewrite bool_decide_eq_true_2 by (apply elem_of_cons; now right).
      * rewrite bool_decide_eq_false_2; [reflexivity|].
        intros H. apply elem_of_cons in H as [H|H]; [congruence|contradiction].
Qed.

Lemma stopAll_nil heap : stopAll heap [] = heap.
Proof. reflexivity. Qed.

(** The heap and its registry: every source of the heap was started, and
    is in the registry unless it was silenced. *)
Definition tracked (heap : list AudioNode) (active : list nat) : Prop :=
  forall id n, heap !! id = Some n -> isSource n = true ->
               isStarted n = true /\ (In id active \/ silenced n).



(** ** The registry of the live engine *)

Section LiveRegistry.
Import AudioEngine.

Definition Tracked (e : Engine) : Prop := tracked (nodes e) (activeNodes e).

Lemma Tracked_automate cs e : Tracked e -> Tracked (automate cs e).
Proof. intros H. exact H. Qed.













Lemma inv_foldl {A} (Inv : Engine -> Prop) (f : Engine -> A -> Engine) (l : list A) e :
  (forall x e, Inv e -> Inv (f e x)) -> Inv e -> Inv (foldl f e l).
Proof.
  intros Hf. revert e. induction l as [|x l IH]; intros e He; simpl; [assumption|].
  now apply IH, Hf.
Qed.

Lemma inv_forEachM {A} (Inv : Engine -> Prop)
      (body : A -> Q * Engine -> option (Q * Engine)) (l : list A) s s' :
  (forall x s s', Inv (snd s) -> body x s = Some s' -> Inv (snd s')) ->
  Inv (snd s) -> forEachM body l s = Some s' -> Inv (snd s').
Proof.
  intros Hb. revert s. induction l as [|x l IH]; intros s Hs; simpl.
  - now intros [= <-].
  - destruct (body x s) as [s1|] eqn:E; [|discriminate].
    apply IH. eapply Hb; eassumption.
Qed.








End LiveRegistry.

(** ** The registry of the engine of the shared walk *)

Section WalkRegistry.
Import OfflineEngine.


















End WalkRegistry.


(** C8, at a call that the code leaves unclean.  [playSongDemo] of the
    shared walk on a song with the tempo "-120", the chord "C" and a vocal
    track, from a fresh page: the vocal source is started, then the first
    note of the chord is given a negative time and throws, so the call
    returns nothing and its nodes are never entered in the registry.  The
    [stopAudio] that follows finds the registry empty and leaves the vocal
    source connected and running. *)
Theorem failed_walk_leaves_vocal_playing :
  let song := OfflineEngineFacts.oneLineSong "-120" ["C"] in
  let played := Exceptions.playSongDemo 0 song true (OfflineEngine.mkEngine
                                                       OfflineEngine.newContext []) in
  snd played = None
  /\ OfflineEngine.activeNodes (fst played) = []
  /\ exists n,
      OfflineEngine.nodes (OfflineEngine.audioCtx (OfflineEngine.stopAudio (fst played)))
      !! 5%nat = Some n
      /\ kind n = AudioBufferSourceNode
      /\ voice n = Vocal
      /\ outputs n = [ToNode 3%nat]
      /\ startTime n = Some (0 + 0.2)
      /\ stopTime n = None
      /\ ~ silenced n.
Proof.
  split; [reflexivity|]. split; [reflexivity|]. eexists.
  split; [vm_compute; reflexivity|]. repeat split. intros [H _]. discriminate H.
Qed.

End StopFacts.

(* ================================================================== *)
(** * The two generations of the chord resolver side by side *)
(* ================================================================== *)

Module ResolverAgreement.
Import ChordTables ChordResolver ChordResolverFacts.

(** Every key of the later table is a key of the earlier one, with the
    same intervals. *)
Lemma offline_keys_live (k : string) :
  In k (List.map fst CHORD_SHAPES_offline) ->
  In k (List.map fst CHORD_SHAPES)
  /\ shape CHORD_SHAPES_offline k = shape CHORD_SHAPES k.
Proof.
  simpl. intros H.
  repeat (destruct H as [<-|H]; [split; [simpl; tauto|reflexivity]|]).
  contradiction.
Qed.

(** The keys that only the earlier table has. *)
Lemma live_keys_offline (k : string) :
  In k (List.map fst CHORD_SHAPES) ->
  In k (List.map fst CHORD_SHAPES_offline) \/ k = "aug" \/ k = "maj9" \/ k = "m9".
Proof.
  simpl. intros H.
  repeat (destruct H as [<-|H]; [tauto|]). contradiction.
Qed.

Lemma startsWith_split (s k : string) :
  JS.startsWith s k = true -> exists t, s = (k ++ t)%string.
Proof.
  unfold JS.startsWith. revert s. induction k as [|c k IH]; intros s; simpl.
  - intros _. now exists s.
  - destruct s as [|d s]; simpl; [discriminate|].
    destruct (ascii_dec c d) as [Hcd|]; [subst d|discriminate].
    intros H. destruct (IH s H) as [t ->]. now exists t.
Qed.

Lemma intervals_agree (rest : string) :
  JS.startsWith rest "aug" = false ->
  JS.startsWith rest "maj9" = false ->
  JS.startsWith rest "m9" = false ->
  chordIntervals rest = chordIntervals_offline rest.
Proof.
  intros Haug Hmaj9 Hm9.
  destruct rest as [|c rest']; [reflexivity|]. set (rest := String c rest') in *.
  destruct (String.eqb rest "m") eqn:Em.
  { apply String.eqb_eq in Em. rewrite Em. reflexivity. }
  destruct (String.eqb rest "min") eqn:En.
  { apply String.eqb_eq in En. rewrite En. reflexivity. }
  unfold chordIntervals, chordIntervals_offline.
  change (qualityOf rest) with rest. rewrite Em, En. simpl orb. cbv zeta.
  rewrite (find_ext _ _ _ (eqb_startsWith rest)).
  destruct (List.find (JS.startsWith rest) (qualityKeys CHORD_SHAPES)) as [k|] eqn:Ef.
  - pose proof (find_first_is_longest rest (qualityKeys CHORD_SHAPES) k eq_refl Ef) as Hlong.
    apply find_some in Ef as [Hin Hp]. apply qualityKeys_keys in Hin.
    destruct (live_keys_offline k Hin) as [Hoff|[->|[->| ->]]]; try congruence.
    rewrite (find_longest_key CHORD_SHAPES_offline rest k eq_refl
               qualityKeys_offline_keys Hoff Hp).
    + symmetry. apply offline_keys_live, Hoff.
    + intros k' Hk' Hp'. apply Hlong; [|exact Hp'].
      exact (proj2 (qualityKeys_keys k') (proj1 (offline_keys_live k' Hk'))).
  - rewrite find_none_all; [reflexivity|].
    intros k Hk. apply (find_none _ _ Ef).
    exact (proj2 (qualityKeys_keys k)
             (proj1 (offline_keys_live k (proj1 (qualityKeys_offline_keys k) Hk)))).
Qed.

Lemma frequencies_injective (base : Q) (l l' : list Z) :
  List.map (fun semitones => mkFreq base semitones 1) l
  = List.map (fun semitones => mkFreq base semitones 1) l' ->
  l = l'.
Proof.
  revert l'. induction l as [|x l IH]; intros [|y l']; simpl; try discriminate.
  - reflexivity.
  - intros [= -> H]. f_equal. now apply IH.
Qed.

(** The two generations of the resolver choose the same intervals for
    a quality, and so the same frequencies for a chord name with a
    tabulated root, exactly when the quality starts with none of the
    three keys that only the table of [src/services/audioEngine.ts]
    has: there the later resolver falls back on the plain major or minor
    triad. *)
Theorem resolvers_agree_off_new_shapes :
  (forall rest,
      chordIntervals rest = chordIntervals_offline rest
      <-> JS.startsWith rest "aug" = false
          /\ JS.startsWith rest "maj9" = false
          /\ JS.startsWith rest "m9" = false)
  /\ (forall chordName rootNote rest baseFreq,
        rootMatch chordName = Some (rootNote, rest) ->
        JS.get NOTES rootNote = Some baseFreq ->
        getChordFrequencies chordName = getChordFrequencies_offline chordName
        <-> JS.startsWith rest "aug" = false
            /\ JS.startsWith rest "maj9" = false
            /\ JS.startsWith rest "m9" = false)
  /\ (forall s, chordIntervals ("aug" ++ s)%string = [0; 4; 8]%Z
                /\ chordIntervals_offline ("aug" ++ s)%string = [0; 4; 7]%Z)
  /\ (forall s, chordIntervals ("maj9" ++ s)%string = [0; 4; 7; 11; 14]%Z
                /\ chordIntervals_offline ("maj9" ++ s)%string = [0; 4; 7]%Z)
  /\ (forall s, chordIntervals ("m9" ++ s)%string = [0; 3; 7; 10; 14]%Z
                /\ chordIntervals_offline ("m9" ++ s)%string = [0; 3; 7]%Z).
Proof.
  assert (Haug : forall s, chordIntervals ("aug" ++ s)%string = [0; 4; 8]%Z
                           /\ chordIntervals_offline ("aug" ++ s)%string = [0; 4; 7]%Z)
    by (intros [|c s]; split; reflexivity).
  assert (Hmaj9 : forall s, chordIntervals ("maj9" ++ s)%string = [0; 4; 7; 11; 14]%Z
                            /\ chordIntervals_offline ("maj9" ++ s)%string = [0; 4; 7]%Z)
    by (intros [|c s]; split; reflexivity).
  assert (Hm9 : forall s, chordIntervals ("m9" ++ s)%string = [0; 3; 7; 10; 14]%Z
                          /\ chordIntervals_offline ("m9" ++ s)%string = [0; 3; 7]%Z)
    by (intros [|c s]; split; reflexivity).
  assert (Hiff : forall rest,
             chordIntervals rest = chordIntervals_offline rest
             <-> JS.startsWith rest "aug" = false
                 /\ JS.startsWith rest "maj9" = false
                 /\ JS.startsWith rest "m9" = false).
  { intros rest. split.
    - intros E. repeat split.
      + destruct (JS.startsWith rest "aug") eqn:H; [|reflexivity].
        apply startsWith_split in H as [s ->].
        destruct (Haug s) as [H1 H2]. rewrite H1, H2 in E. discriminate E.
      + destruct (JS.startsWith rest "maj9") eqn:H; [|reflexivity].
        apply startsWith_split in H as [s ->].
        destruct (Hmaj9 s) as [H1 H2]. rewrite H1, H2 in E. discriminate E.
      + destruct (JS.startsWith rest "m9") eqn:H; [|reflexivity].
        apply startsWith_split in H as [s ->].
        destruct (Hm9 s) as [H1 H2]. rewrite H1, H2 in E. discriminate E.
    - intros (H1 & H2 & H3). now apply intervals_agree. }
  split; [exact Hiff|].
  split; [|split; [exact Haug|split; [exact Hmaj9|exact Hm9]]].
  intros chordName rootNote rest baseFreq Hm Hn.
  unfold getChordFrequencies, getChordFrequencies_offline, frequenciesOf.
  rewrite Hm, Hn, <- Hiff. split.
  - apply frequencies_injective.
  - now intros ->.
Qed.

Lemma resolvers_agree_off_new_shapes_witness :
  getChordFrequencies "Bbm7" = getChordFrequencies_offline "Bbm7"
  /\ getChordFrequencies "Caug" <> getChordFrequencies_offline "Caug".
Proof.
  destruct resolvers_agree_off_new_shapes as (_ & H & _). split.
  - apply (H "Bbm7" "Bb" "m7" (46616 # 100) eq_refl eq_refl). now repeat split.
  - intros E. apply (H "Caug" "C" "aug" (26163 # 100) eq_refl eq_refl) in E.
    destruct E as [E _]. discriminate E.
Defined.

End ResolverAgreement.

(* ================================================================== *)
(** * More on the arrangement engine *)
(* ================================================================== *)

Module ArrangementFacts.
Import WebAudio ChordResolver AudioEngine AudioEngineFacts.
Local Open Scope Q_scope.

(** ** One bar for each chord *)

Lemma while_skip {S : Type} fuel cond body (s : S) :
  cond s = false -> while fuel cond body s = Some s.
Proof. intros H. destruct fuel; simpl; now rewrite H. Qed.

Lemma while_once {S : Type} fuel cond body (s : S) :
  cond s = true -> cond (body s) = false ->
  while (Datatypes.S fuel) cond body s = Some (body s).
Proof. intros H1 H2. simpl. rewrite H1. now apply while_skip. Qed.

Lemma barsBound_pos duration bpm :
  (0 < bpm)%Z -> 0 < duration -> exists fuel, barsBound duration bpm = Datatypes.S fuel.
Proof.
  intros Hb Hd. pose proof (barsBound_enough duration bpm Hb) as H.
  destruct (barsBound duration bpm) as [|fuel]; [|now exists fuel].
  change (ofNat 0) with 0 in H. lra.
Qed.

Lemma durationPerChord_bar bpm chordLine :
  (0 < bpm)%Z -> durationPerChord bpm chordLine <= barDuration bpm.
Proof.
  intros Hb. pose proof (barDuration_pos bpm Hb) as HB.
  unfold durationPerChord. change (secondsPerBar bpm) with (barDuration bpm).
  set (n := lengthOr1 (chordsInLine chordLine)).
  assert (Hn : 1 <= ofNat n).
  { unfold n, lengthOr1, ofNat. destruct (length _); rewrite <- (Zle_Qle 1); lia. }
  apply Qle_shift_div_r; [lra|]. nra.
Qed.

(** The window of a chord name that resolves gets exactly one pass of
    the bar loop, however many chords share the line, when the window is
    longer than the tenth of a second that the loop leaves out; a window
    shorter than that gets no bar, only the crash that opens a chorus.
    The loop compares doubles, which the rationals follow as long as
    rounding cannot decide: a window of exactly a tenth of a second,
    where the rounding of [endTime - 0.1] decides, and a clock beyond a
    million seconds are left aside. *)
Theorem chord_window_plays_one_bar (rng : nat -> Q) (genre : SongGenre) (bpm : Z)
        (sectionType : SongSectionType) (chordLine chordName : string)
        (cursor : Q) (e : Engine) :
  (0 < bpm)%Z -> getChordFrequencies chordName <> [] ->
  ~ durationPerChord bpm chordLine == 0.1 -> 0 <= cursor <= 1000000 ->
  let d := durationPerChord bpm chordLine in
  let opened := if isChorus sectionType
                then playCrash cursor (ToBus MusicBus) e else e in
  playChord rng genre bpm sectionType d chordName (cursor, e)
  = Some (cursor + d,
          if Qltb 0.1 d
          then snd (bar rng genre (getChordFrequencies chordName) bpm
                        (ToBus MusicBus) (ToBus MasterCompressor) (ToBus ReverbNode)
                        sectionType (cursor, opened))
          else opened).
Proof.
  intros Hb Hres _ _ d opened. unfold playChord.
  destruct (getChordFrequencies chordName) as [|f fs] eqn:Ef; [contradiction|].
  change (0 <? length (f :: fs))%nat with true. cbv iota.
  unfold playArrangement. rewrite initialCrash_always, andb_true_r. fold opened.
  pose proof (durationPerChord_bar bpm chordLine Hb) as Hle. fold d in Hle.
  pose proof (barDuration_pos bpm Hb) as HB.
  destruct (Qltb 0.1 d) eqn:Ed.
  - apply Qltb_lt in Ed.
    destruct (barsBound_pos d bpm Hb) as [fuel ->]; [lra|].
    rewrite while_once; [reflexivity| |].
    + apply Qltb_lt. unfold endTime. simpl. lra.
    + apply Qltb_ge. unfold endTime. simpl. lra.
  - apply Qltb_ge in Ed. rewrite while_skip; [reflexivity|].
    apply Qltb_ge. unfold endTime. simpl. lra.
Qed.

Lemma chord_window_plays_one_bar_witness :
  exists e',
    playChord (fun _ => 1 # 2) pop 120 VERSE (durationPerChord 120 "C G Am F") "G"
              (0, emptyEngine) = Some (0 + durationPerChord 120 "C G Am F", e')
    /\ List.map Qred (triggers Kick (nodes e')) = [0; 1].
Proof.
  eexists. split.
  - apply (chord_window_plays_one_bar (fun _ => 1 # 2) pop 120 VERSE "C G Am F" "G"
             0 emptyEngine); [reflexivity|discriminate|vm_compute; discriminate|].
    split; vm_compute; discriminate.
  - vm_compute. reflexivity.
Defined.

(** ** The random source *)

Lemma while_ext {S : Type} fuel cond (body body' : S -> S) s :
  (forall s, body s = body' s) ->
  while fuel cond body s = while fuel cond body' s.
Proof.
  intros H. revert s. induction fuel as [|fuel IH]; intros s; simpl; [reflexivity|].
  destruct (cond s); [|reflexivity]. now rewrite H, IH.
Qed.

Lemma forEachM_ext {A S : Type} (body body' : A -> S -> option S) l s :
  (forall x s, body x s = body' x s) ->
  forEachM body l s = forEachM body' l s.
Proof.
  intros H. revert s. induction l as [|x l IH]; intros s; simpl; [reflexivity|].
  rewrite H. destruct (body' x s); [apply IH|reflexivity].
Qed.

Lemma playSection_rng rng rng' genre bpm section s :
  genre <> chinese ->
  playSection rng genre bpm section s = playSection rng' genre bpm section s.
Proof.
  intros Hg. unfold playSection. apply forEachM_ext. intros cl s1.
  unfold playChordLine. apply forEachM_ext. intros c [cursor e].
  unfold playChord. destruct (0 <? length _)%nat; [|reflexivity].
  unfold playArrangement.
  rewrite (while_ext _ _ _ (bar rng' genre (getChordFrequencies c) bpm (ToBus MusicBus)
                                (ToBus MasterCompressor) (ToBus ReverbNode)
                                (type section))); [reflexivity|].
  intros [ct e1]. unfold bar, drums.
  destruct genre; try reflexivity. contradiction.
Qed.

(** Only the Chinese arrangement draws random numbers when it schedules
    (for its woodblock): the nodes of a song of any other genre, their
    connections and their times are the same whatever [Math.random]
    returns.  (The samples of the noise buffer, which the heap does not
    hold, are random for every genre.) *)
Theorem only_chinese_arrangement_is_random (rng rng' : nat -> Q) (now : Q)
        (song : Song) (hasVocal : bool) (e : Engine) :
  genre song <> chinese ->
  playSongDemo rng now song hasVocal e = playSongDemo rng' now song hasVocal e.
Proof.
  intros Hg. unfold playSongDemo.
  rewrite (forEachM_ext _ (playSection rng' (genre song) (bpmOf (tempo song))));
    [reflexivity|].
  intros section s. now apply playSection_rng.
Qed.

Lemma only_chinese_arrangement_is_random_witness :
  playSongDemo (fun _ => 0) 0 (oneSectionSong country "90" VERSE ["D A"]) false emptyEngine
  = playSongDemo (fun _ => 9 # 10) 0 (oneSectionSong country "90" VERSE ["D A"]) false
                 emptyEngine
  /\ playSongDemo (fun _ => 0) 0 (oneSectionSong chinese "90" VERSE ["D A"]) false
                  emptyEngine
     <> playSongDemo (fun _ => 9 # 10) 0 (oneSectionSong chinese "90" VERSE ["D A"])
                     false emptyEngine.
Proof.
  split.
  - apply (only_chinese_arrangement_is_random (fun _ => 0) (fun _ => 9 # 10) 0
             (oneSectionSong country "90" VERSE ["D A"]) false emptyEngine).
    discriminate.
  - vm_compute. discriminate.
Defined.

(** ** The length of a song *)

Lemma Qsum_const {A} (x : Q) (l : list A) :
  Qsum (List.map (fun _ => x) l) == ofNat (length l) * x.
Proof.
  induction l as [|a l IH]; simpl.
  - change (ofNat 0) with 0. ring.
  - rewrite IH. change (ofNat (Datatypes.S (length l))) with (ofNat (Datatypes.S (length l))).
    rewrite ofNat_S. ring.
Qed.

Lemma Qsum_flat_map {A} (f : A -> list Q) (g : A -> Q) (l : list A) :
  (forall x, Qsum (f x) == g x) ->
  Qsum (flat_map f l) == Qsum (List.map g l).
Proof.
  intros H. induction l as [|x l IH]; simpl; [reflexivity|].
  now rewrite Qsum_app, IH, H.
Qed.

Lemma flat_map_nested {A B C} (f : B -> list C) (g : A -> list B) (l : list A) :
  flat_map (fun x => flat_map f (g x)) l = flat_map f (flat_map g l).
Proof.
  induction l as [|x l IH]; simpl; [reflexivity|].
  now rewrite flat_map_app, IH.
Qed.

(** A chord line that holds at least one chord. *)
Definition sounding (chordLine : string) : bool :=
  (0 <? length (chordsInLine chordLine))%nat.

Lemma Qsum_sounding (B : Q) (l : list string) :
  Qsum (List.map (fun cl => if sounding cl then B else 0) l)
  == ofNat (length (List.filter sounding l)) * B.
Proof.
  induction l as [|cl l IH]; simpl.
  - change (ofNat 0) with 0. ring.
  - destruct (sounding cl); simpl; rewrite IH; [rewrite ofNat_S|]; ring.
Qed.

Lemma lineSlots_bar bpm chordLine :
  (0 < bpm)%Z ->
  Qsum (lineSlots bpm chordLine) == if sounding chordLine then secondsPerBar bpm else 0.
Proof.
  intros Hb. unfold lineSlots, sounding, durationPerChord, lengthOr1.
  rewrite Qsum_const. destruct (chordsInLine chordLine) as [|c cs]; simpl length.
  - change (ofNat 0) with 0. simpl. ring.
  - change (0 <? Datatypes.S (length cs))%nat with true. cbv iota.
    apply Qmult_div_r. unfold ofNat, Qeq. simpl. lia.
Qed.

Lemma songSlots_by_line (song : Song) :
  (0 < bpmOf (tempo song))%Z ->
  Qsum (songSlots song)
  == Qsum (List.map (fun cl => if sounding cl
                               then secondsPerBar (bpmOf (tempo song)) else 0)
                    (flat_map chordsOf (sections song))).
Proof.
  intros Hb. unfold songSlots, sectionSlots. rewrite flat_map_nested.
  apply Qsum_flat_map. intros cl. now apply lineSlots_bar.
Qed.

(** The live render of a song lasts one bar for each chord line that
    holds at least one chord, whatever the number of chords in the line
    and whether they resolve; a section without chord lines counts a
    line on the chord C for each of its lyric lines. *)
Theorem song_lasts_one_bar_per_chord_line (rng : nat -> Q) (now : Q) (song : Song)
        (hasVocal : bool) (e : Engine) :
  (forall i, 0 <= rng i) -> (0 < bpmOf (tempo song))%Z ->
  exists p,
    playSongDemo rng now song hasVocal e = Some p
    /\ duration p
       == ofNat (length (List.filter sounding (flat_map chordsOf (sections song))))
          * (60 / inject_Z (bpmOf (tempo song)) * 4).
Proof.
  intros Hr Hb.
  destruct (playSongDemo_walks rng now song hasVocal e Hr Hb) as (p & E & D & _).
  exists p. split; [exact E|]. rewrite D, songSlots_by_line by exact Hb.
  apply Qsum_sounding.
Qed.

Lemma song_lasts_one_bar_per_chord_line_witness :
  exists p,
    playSongDemo (fun _ => 1 # 2) 0
                 (oneSectionSong pop "120" VERSE ["C G Am F"; ""; "F-G"; "Xyz"])
                 false emptyEngine = Some p
    /\ duration p == 6.
Proof.
  destruct (song_lasts_one_bar_per_chord_line (fun _ => 1 # 2) 0
              (oneSectionSong pop "120" VERSE ["C G Am F"; ""; "F-G"; "Xyz"])
              false emptyEngine half_nonneg eq_refl) as (p & E & D).
  exists p. split; [exact E|]. rewrite D. reflexivity.
Defined.

(** ** Invariants of a render *)

(** A property of the engine that every voice keeps, at the places where
    [playArrangement] and [playSongDemo] call it, is kept by a render. *)
Section Preserved.
Variable Inv : Engine -> Prop.
Hypothesis Inv_drawn : forall e, Inv e -> Inv (drawn e).
Hypothesis Inv_playKick :
  forall t v e, Inv e -> Inv (playKick t v (ToBus MasterCompressor) e).
Hypothesis Inv_playSnare :
  forall t v e, Inv e -> Inv (playSnare t v (ToBus MasterCompressor) e).
Hypothesis Inv_playHiHat :
  forall t v p o e, Inv e -> Inv (playHiHat t v (ToBus MasterCompressor) p o e).
Hypothesis Inv_playWoodblock :
  forall t e, Inv e -> Inv (playWoodblock t (ToBus MasterCompressor) e).
Hypothesis Inv_playCrash :
  forall t e, Inv e -> Inv (playCrash t (ToBus MusicBus) e).
Hypothesis Inv_playNote :
  forall f t d cfg dest pan vol e,
    dest = ToBus MusicBus \/ dest = ToBus ReverbNode ->
    Inv e -> Inv (playNote f t d cfg dest pan vol e).
Hypothesis Inv_playVocals : forall t e, Inv e -> Inv (playVocals t e).

Ltac preserved_step :=
  lazymatch goal with
  | |- Inv (forI _ _ _) => apply (StopFacts.inv_foldl Inv); [intros ? ? ?|]
  | |- Inv (forEachI _ _ _) => apply (StopFacts.inv_foldl Inv); [intros ? ? ?|]
  | |- Inv (drawn _) => apply Inv_drawn
  | |- Inv (playKick _ _ _ _) => apply Inv_playKick
  | |- Inv (playSnare _ _ _ _) => apply Inv_playSnare
  | |- Inv (playHiHat _ _ _ _ _ _) => apply Inv_playHiHat
  | |- Inv (playWoodblock _ _ _) => apply Inv_playWoodblock
  | |- Inv (playCrash _ _ _) => apply Inv_playCrash
  | |- Inv (playNote _ _ _ _ _ _ _ _) => apply Inv_playNote; [tauto|]
  end.

Lemma preserved_bar rng genre frequencies bpm sectionType s :
  Inv (snd s) ->
  Inv (snd (bar rng genre frequencies bpm (ToBus MusicBus) (ToBus MasterCompressor)
                (ToBus ReverbNode) sectionType s)).
Proof using Inv_drawn Inv_playKick Inv_playSnare Inv_playHiHat Inv_playWoodblock
            Inv_playCrash Inv_playNote.
  destruct s as [ct e]. intros H. unfold bar, harmony, drums. cbn [snd].
  destruct (SongGenre_eqb genre country);
    destruct (SongGenre_eqb genre pop && isChorus sectionType);
    destruct genre; try destruct (isChorus sectionType);
    try destruct (Qltb 0.6 _);
    repeat preserved_step; assumption.
Qed.

Lemma preserved_playArrangement rng genre frequencies startTime duration bpm
      sectionType e e' :
  Inv e ->
  playArrangement rng genre frequencies startTime duration bpm (ToBus MusicBus)
                  (ToBus MasterCompressor) (ToBus ReverbNode) sectionType e = Some e' ->
  Inv e'.
Proof using Inv_drawn Inv_playKick Inv_playSnare Inv_playHiHat Inv_playWoodblock
            Inv_playCrash Inv_playNote.
  intros H. unfold playArrangement.
  destruct (while _ _ _ _) as [s'|] eqn:Ew; [|discriminate]. intros [= <-].
  refine (proj1 (while_inv (fun s => Inv (snd s)) _ _ _ _ _ _ _ Ew)).
  - intros s Hs _. now apply preserved_bar.
  - cbn [snd]. destruct (_ && _); [apply Inv_playCrash|]; assumption.
Qed.

Lemma preserved_playSection rng genre bpm section s s' :
  Inv (snd s) -> playSection rng genre bpm section s = Some s' -> Inv (snd s').
Proof using Inv_drawn Inv_playKick Inv_playSnare Inv_playHiHat Inv_playWoodblock
            Inv_playCrash Inv_playNote.
  unfold playSection. apply (StopFacts.inv_forEachM Inv).
  intros cl s0 s1. unfold playChordLine. apply (StopFacts.inv_forEachM Inv).
  intros c [cursor e] s3 He. unfold playChord.
  destruct (0 <? length _)%nat.
  - destruct (playArrangement _ _ _ _ _ _ _ _ _ _ _) as [e'|] eqn:E; [|discriminate].
    intros [= <-]. eapply preserved_playArrangement; eassumption.
  - now intros [= <-].
Qed.

(** The walk of [playSongDemo] over the sections. *)
Lemma preserved_sections rng genre bpm (l : list SongSection) s s' :
  Inv (snd s) -> forEachM (playSection rng genre bpm) l s = Some s' -> Inv (snd s').
Proof using Inv_drawn Inv_playKick Inv_playSnare Inv_playHiHat Inv_playWoodblock
            Inv_playCrash Inv_playNote.
  apply (StopFacts.inv_forEachM Inv). intros section s0 s1.
  apply preserved_playSection.
Qed.

Lemma preserved_playSongDemo rng now song hasVocal e p :
  Inv (stopAudio e) -> playSongDemo rng now song hasVocal e = Some p -> Inv (engine p).
Proof using All.
  intros H. unfold playSongDemo.
  destruct (forEachM _ _ _) as [[cursor e']|] eqn:E; [|discriminate]. intros [= <-].
  apply preserved_sections in E; [exact E|].
  cbn [snd]. destruct hasVocal; [apply Inv_playVocals|]; assumption.
Qed.
End Preserved.

(** ** What the kick ducks *)

(** Where the harmonic voices and the vocal track enter the master
    chain. *)
Definition ducked (n : AudioNode) : Prop :=
  forall b, In (ToBus b) (outputs n) ->
    match voice n with
    | Note _ => (b = MusicBus \/ b = ReverbNode) /\ passesThrough MusicBus b = true
    | Vocal => (b = MasterCompressor /\ passesThrough MusicBus b = false)
               \/ (b = ReverbNode /\ passesThrough MusicBus b = true)
    | _ => True
    end.

Ltac ducked_nodes :=
  repeat match goal with
         | |- Forall _ (_ :: _) => constructor
         | |- Forall _ [] => constructor
         | |- ducked _ =>
             let b := fresh "b" in let Hb := fresh "Hb" in
             intros b Hb; simpl in Hb |- *;
             intuition (try discriminate; try (simplify_eq; simpl; tauto))
         end.

Ltac ducked_voice He :=
  repeat (first [apply adds_automate | apply adds_push | apply adds_create]);
  [exact He|..]; ducked_nodes.

Lemma ducked_playSongDemo rng now song hasVocal e p :
  playSongDemo rng now song hasVocal e = Some p ->
  adds ducked (stopAudio e) (engine p).
Proof.
  apply (preserved_playSongDemo (adds ducked (stopAudio e))).
  - intros e1 He. exact He.
  - intros t v e1 He. unfold playKick, triggerSidechain. ducked_voice He.
  - intros t v e1 He. unfold playSnare. ducked_voice He.
  - intros t v p0 o e1 He. unfold playHiHat. ducked_voice He.
  - intros t e1 He. unfold playWoodblock. ducked_voice He.
  - intros t e1 He. unfold playCrash. ducked_voice He.
  - intros f t d cfg dest pan vol e1 Hdest He. unfold playNote.
    destruct (isBass (InstrumentConfig.type cfg));
      destruct (isLayered (InstrumentConfig.type cfg));
      destruct Hdest as [-> | ->]; ducked_voice He.
  - intros t e1 He. unfold playVocals. ducked_voice He.
  - apply adds_refl.
Qed.

(** The three events that [triggerSidechain] writes on the gain of the
    music bus for a kick at [t]. *)
Definition envelope (t : Q) : list Automation :=
  [ SetValueAtTime 1 t; SetTargetAtTime 0.4 t 0.01; SetTargetAtTime 1 (t + 0.1) 0.1 ].

Definition sidechained (e0 e : Engine) : Prop :=
  exists new,
    nodes e = nodes e0 ++ new
    /\ musicBusGain e = musicBusGain e0 ++ flat_map envelope (triggers Kick new).

Ltac sidechained_voice He :=
  let new := fresh "new" in let Hn := fresh "Hn" in let Hg := fresh "Hg" in
  destruct He as (new & Hn & Hg); eexists (new ++ _); split;
  [ simpl; rewrite Hn, <- ?app_assoc; reflexivity
  | simpl; rewrite ?Hg, triggers_app, flat_map_app; simpl;
    rewrite ?app_nil_r, <- ?app_assoc; reflexivity ].

Lemma sidechained_playSongDemo rng now song hasVocal e p :
  playSongDemo rng now song hasVocal e = Some p ->
  sidechained (stopAudio e) (engine p).
Proof.
  apply (preserved_playSongDemo (sidechained (stopAudio e))).
  - intros e1 He. exact He.
  - intros t v e1 He. unfold playKick, triggerSidechain. sidechained_voice He.
  - intros t v e1 He. unfold playSnare. sidechained_voice He.
  - intros t v p0 o e1 He. unfold playHiHat. sidechained_voice He.
  - intros t e1 He. unfold playWoodblock. sidechained_voice He.
  - intros t e1 He. unfold playCrash. sidechained_voice He.
  - intros f t d cfg dest pan vol e1 _ He. unfold playNote.
    destruct (isBass (InstrumentConfig.type cfg));
      destruct (isLayered (InstrumentConfig.type cfg)); sidechained_voice He.
  - intros t e1 He. unfold playVocals. sidechained_voice He.
  - exists []. split; [now rewrite app_nil_r|]. simpl. now rewrite app_nil_r.
Qed.

(** The gain of the music bus is automated by the kicks and by nothing
    else: a render adds to it, in the order of the kicks it schedules, the
    three events of the ducking envelope at the time of each kick. *)
Theorem music_bus_ducked_at_each_kick (rng : nat -> Q) (now : Q) (song : Song)
        (hasVocal : bool) (e : Engine) :
  (forall i, 0 <= rng i) -> (0 < bpmOf (tempo song))%Z ->
  exists p,
    playSongDemo rng now song hasVocal e = Some p
    /\ musicBusGain (engine p)
       = musicBusGain e
         ++ flat_map envelope (triggers Kick (newNodes (stopAudio e) (engine p))).
Proof.
  intros Hr Hb.
  destruct (playSongDemo_walks rng now song hasVocal e Hr Hb) as (p & E & _).
  exists p. split; [exact E|].
  destruct (sidechained_playSongDemo _ _ _ _ _ _ E) as (new & Hn & Hg).
  unfold newNodes. rewrite Hn, drop_app_length. exact Hg.
Qed.

Lemma music_bus_ducked_at_each_kick_witness :
  exists p,
    playSongDemo (fun _ => 1 # 2) 0 (oneSectionSong rnb "60" VERSE ["Am"])
                 false emptyEngine = Some p
    /\ musicBusGain (engine p)
       = musicBusGain emptyEngine
         ++ flat_map envelope
                     (triggers Kick (newNodes (stopAudio emptyEngine) (engine p))).
Proof.
  apply (music_bus_ducked_at_each_kick (fun _ => 1 # 2) 0
           (oneSectionSong rnb "60" VERSE ["Am"]) false emptyEngine half_nonneg).
  reflexivity.
Defined.

(** ** What the registry leaves out *)

(** The high-pass filter of a snare, hi-hat or crash voice. *)
Definition isDrumFilter (n : AudioNode) : bool :=
  match kind n, voice n with
  | BiquadFilterNode, (Snare | HiHat | Crash) => true
  | _, _ => false
  end.

(** Since [e0], whose registry is taken as empty, the engine has added
    nodes, and its registry holds the positions of exactly those that
    are no drum filter. *)
Definition registered (e0 e : Engine) : Prop :=
  exists new,
    nodes e = nodes e0 ++ new
    /\ forall id,
        In id (activeNodes e)
        <-> exists i n, id = (length (nodes e0) + i)%nat
                        /\ new !! i = Some n /\ isDrumFilter n = false.

Lemma registered_grow e0 e e' ns ids :
  nodes e' = nodes e ++ ns ->
  activeNodes e' = activeNodes e ++ ids ->
  (forall id,
      In id ids
      <-> exists j n, id = (length (nodes e) + j)%nat
                      /\ ns !! j = Some n /\ isDrumFilter n = false) ->
  registered e0 e -> registered e0 e'.
Proof.
  intros Hn Ha Hids (new & Hnew & Hreg). exists (new ++ ns).
  split; [rewrite Hn, Hnew; now rewrite app_assoc|].
  intros id. rewrite Ha, in_app_iff, Hreg, Hids. split.
  - intros [(i & n & -> & Hl & Hf) | (j & n & -> & Hl & Hf)].
    + exists i, n. repeat split; [|assumption]. now apply lookup_app_l_Some.
    + exists (length new + j)%nat, n. split; [rewrite Hnew, length_app; lia|].
      split; [|assumption]. rewrite lookup_app_r by lia.
      now replace (length new + j - length new)%nat with j by lia.
  - intros (i & n & -> & Hl & Hf). destruct (lt_dec i (length new)) as [Hi|Hi].
    + left. exists i, n. rewrite lookup_app_l in Hl by lia. now repeat split.
    + right. exists (i - length new)%nat, n. rewrite lookup_app_r in Hl by lia.
      split; [rewrite Hnew, length_app; lia|now split].
Qed.

Ltac node_at j fuel :=
  lazymatch fuel with
  | O => fail
  | Datatypes.S ?f =>
      first [ solve [exists j; eexists; split; [lia|split; reflexivity]]
            | node_at (Datatypes.S j) f ]
  end.

Ltac registry_ids :=
  let id := fresh "id" in
  intros id; simpl; unfold nextId; simpl; rewrite ?length_app; simpl; split;
  [ let H := fresh "H" in
    intros H;
    repeat (destruct H as [<-|H]; [node_at 0%nat 12%nat|]); contradiction
  | let j := fresh "j" in let n := fresh "n" in
    let Hl := fresh "Hl" in let Hf := fresh "Hf" in
    intros (j & n & -> & Hl & Hf);
    repeat (destruct j as [|j];
            [ simpl in Hl; injection Hl as <-;
              first [discriminate Hf | solve [repeat first [left; lia | right]]]
            | simpl in Hl ]);
    rewrite ?lookup_nil in Hl; discriminate Hl ].

Ltac registered_voice He :=
  eapply registered_grow;
  [ simpl; rewrite <- ?app_assoc; reflexivity
  | simpl; rewrite <- ?app_assoc; reflexivity
  | registry_ids
  | exact He ].

Lemma registered_playSongDemo rng now song hasVocal e p :
  playSongDemo rng now song hasVocal e = Some p ->
  registered (stopAudio e) (engine p).
Proof.
  apply (preserved_playSongDemo (registered (stopAudio e))).
  - intros e1 He. exact He.
  - intros t v e1 He. unfold playKick, triggerSidechain. registered_voice He.
  - intros t v e1 He. unfold playSnare. registered_voice He.
  - intros t v p0 o e1 He. unfold playHiHat. registered_voice He.
  - intros t e1 He. unfold playWoodblock. registered_voice He.
  - intros t e1 He. unfold playCrash. registered_voice He.
  - intros f t d cfg dest pan vol e1 _ He. unfold playNote.
    destruct (isBass (InstrumentConfig.type cfg));
      destruct (isLayered (InstrumentConfig.type cfg)); registered_voice He.
  - intros t e1 He. unfold playVocals. registered_voice He.
  - exists []. split; [now rewrite app_nil_r|]. intros id. simpl. split; [contradiction|].
    intros (i & n & _ & Hl & _). rewrite lookup_nil in Hl. discriminate Hl.
Qed.

(** A node as a voice leaves it: connected, and started when it is a
    source. *)
Definition wired (n : AudioNode) : Prop :=
  outputs n <> [] /\ (isSource n = true -> isStarted n = true).

Ltac wired_nodes :=
  repeat match goal with
         | |- Forall _ (_ :: _) => constructor
         | |- Forall _ [] => constructor
         | |- wired _ =>
             first [ solve [split; [discriminate|intros _; reflexivity]]
                   | split; [discriminate|intros Hsrc; discriminate Hsrc] ]
         end.

Ltac wired_voice He :=
  repeat (first [apply adds_automate | apply adds_push | apply adds_create]);
  [exact He|..]; wired_nodes.

Lemma wired_playSongDemo rng now song hasVocal e p :
  playSongDemo rng now song hasVocal e = Some p ->
  adds wired (stopAudio e) (engine p).
Proof.
  apply (preserved_playSongDemo (adds wired (stopAudio e))).
  - intros e1 He. exact He.
  - intros t v e1 He. unfold playKick, triggerSidechain. wired_voice He.
  - intros t v e1 He. unfold playSnare. wired_voice He.
  - intros t v p0 o e1 He. unfold playHiHat. wired_voice He.
  - intros t e1 He. unfold playWoodblock. wired_voice He.
  - intros t e1 He. unfold playCrash. wired_voice He.
  - intros f t d cfg dest pan vol e1 _ He. unfold playNote.
    destruct (isBass (InstrumentConfig.type cfg));
      destruct (isLayered (InstrumentConfig.type cfg)); wired_voice He.
  - intros t e1 He. unfold playVocals. wired_voice He.
  - apply adds_refl.
Qed.

(** A render enters in the registry every node it creates except the
    high-pass filters of the snare, hi-hat and crash voices.  So the
    [stopAudio] that follows disconnects every node of the render but
    these filters, which it leaves as they are, connected to the gain
    that follows them. *)
Theorem stopAudio_leaves_drum_filters_connected (rng : nat -> Q) (now : Q)
        (song : Song) (hasVocal : bool) (e : Engine) :
  (forall i, 0 <= rng i) -> (0 < bpmOf (tempo song))%Z ->
  exists p,
    playSongDemo rng now song hasVocal e = Some p
    /\ forall i n,
        newNodes (stopAudio e) (engine p) !! i = Some n ->
        let id := (length (nodes e) + i)%nat in
        (In id (activeNodes (engine p)) <-> isDrumFilter n = false)
        /\ nodes (stopAudio (engine p)) !! id
           = Some (if isDrumFilter n then n else stopNode n)
        /\ (isDrumFilter n = true -> outputs n <> [])
        /\ (isDrumFilter n = false -> outputs (stopNode n) = []).
Proof.
  intros Hr Hb.
  destruct (playSongDemo_walks rng now song hasVocal e Hr Hb) as (p & E & _).
  exists p. split; [exact E|]. intros i n Hi id.
  destruct (registered_playSongDemo _ _ _ _ _ _ E) as (new & Hn & Hreg).
  destruct (adds_newNodes _ _ _ (wired_playSongDemo _ _ _ _ _ _ E)) as [_ Hw].
  rewrite List.Forall_forall in Hw.
  destruct (Hw n (proj1 (list_elem_of_In _ _) (list_elem_of_lookup_2 _ _ _ Hi)))
    as [Hout Hstart].
  unfold newNodes in Hi. rewrite Hn, drop_app_length in Hi.
  assert (Hlen : length (nodes (stopAudio e)) = length (nodes e)).
  { simpl. unfold stopAll. generalize (nodes e).
    induction (activeNodes e) as [|a l IH]; intros h; simpl; [reflexivity|].
    now rewrite IH, length_alter. }
  rewrite Hlen in Hreg.
  assert (Hin : In id (activeNodes (engine p)) <-> isDrumFilter n = false).
  { rewrite Hreg. split.
    - intros (i' & n' & Hid & Hl & Hf). unfold id in Hid.
      assert (i' = i) by lia. subst i'. rewrite Hi in Hl. now injection Hl as <-.
    - intros Hf. now exists i, n. }
  assert (Hat : nodes (engine p) !! id = Some n).
  { rewrite Hn. unfold id. rewrite <- Hlen, lookup_app_r by lia.
    now replace (length (nodes (stopAudio e)) + i - length (nodes (stopAudio e)))%nat
      with i by lia. }
  split; [exact Hin|]. split; [|split].
  - simpl. rewrite StopFacts.stopAll_lookup, Hat. simpl. f_equal.
    destruct (isDrumFilter n) eqn:Ef.
    + rewrite bool_decide_eq_false_2; [reflexivity|].
      rewrite list_elem_of_In, Hin. discriminate.
    + rewrite bool_decide_eq_true_2; [reflexivity|].
      now rewrite list_elem_of_In, Hin.
  - intros _. exact Hout.
  - intros Hf. unfold stopNode. destruct (isSource n) eqn:Es; [|reflexivity].
    now rewrite Hstart.
Qed.

Lemma stopAudio_leaves_drum_filters_connected_witness :
  exists p,
    playSongDemo (fun _ => 1 # 2) 0 (oneSectionSong pop "120" CHORUS ["C"])
                 false emptyEngine = Some p
    /\ forall i n,
        newNodes (stopAudio emptyEngine) (engine p) !! i = Some n ->
        let id := (length (nodes emptyEngine) + i)%nat in
        (In id (activeNodes (engine p)) <-> isDrumFilter n = false)
        /\ nodes (stopAudio (engine p)) !! id
           = Some (if isDrumFilter n then n else stopNode n)
        /\ (isDrumFilter n = true -> outputs n <> [])
        /\ (isDrumFilter n = false -> outputs (stopNode n) = []).
Proof.
  apply (stopAudio_leaves_drum_filters_connected (fun _ => 1 # 2) 0
           (oneSectionSong pop "120" CHORUS ["C"]) false emptyEngine half_nonneg).
  reflexivity.
Defined.

End ArrangementFacts.

(* ================================================================== *)
(** * Where the voices enter the master chain *)
(* ================================================================== *)

Module RoutingFacts.
Import WebAudio.
Local Open Scope Q_scope.

(** ** Following the connections *)

(** What [entries] finds from a target stays when nodes are added to
    the heap. *)
Lemma entries_app fuel heap more t bs :
  entries fuel heap t = Some bs -> entries fuel (heap ++ more) t = Some bs.
Proof.
  revert t bs. induction fuel as [|fuel IH]; intros [b|id] bs; simpl; try easy.
  destruct (heap !! id) as [n|] eqn:E; [|discriminate].
  rewrite (lookup_app_l_Some _ _ _ _ E). revert bs.
  induction (outputs n) as [|t' outs IHo]; simpl; intros bs; [easy|].
  destruct (entries fuel heap t') as [bs1|] eqn:E1; [|discriminate].
  rewrite (IH _ _ E1).
  destruct (foldr _ _ outs) as [bs2|]; [|discriminate].
  now rewrite (IHo _ eq_refl).
Qed.

(** A node and a target moved [d] places up the heap. *)
Definition shiftTarget (d : nat) (t : Target) : Target :=
  match t with
  | ToNode i => ToNode (i + d)
  | ToBus b => ToBus b
  end.

Definition shiftNode (d : nat) (n : AudioNode) : AudioNode :=
  mkNode (kind n) (voice n) (List.map (shiftTarget d) (outputs n)) (frequency n)
         (param n) (startTime n) (stopTime n).

Lemma lookup_map {A B} (f : A -> B) (l : list A) (i : nat) :
  List.map f l !! i = f <$> l !! i.
Proof. revert i. induction l as [|x l IH]; intros [|i]; simpl; auto. Qed.

(** The connections of a block of nodes that is put at the end of a
    heap lead where they lead in the block alone. *)
Lemma entries_block fuel heap blk t bs :
  entries fuel blk t = Some bs ->
  entries fuel (heap ++ List.map (shiftNode (length heap)) blk)
          (shiftTarget (length heap) t) = Some bs.
Proof.
  revert t bs. induction fuel as [|fuel IH]; intros [b|id] bs; simpl; try easy.
  destruct (blk !! id) as [n|] eqn:E; [|discriminate].
  rewrite lookup_app_r by lia.
  replace (id + length heap - length heap)%nat with id by lia.
  rewrite lookup_map, E. simpl. revert bs.
  induction (outputs n) as [|t' outs IHo]; simpl; intros bs; [easy|].
  destruct (entries fuel blk t') as [bs1|] eqn:E1; [|discriminate].
  rewrite (IH _ _ E1).
  destruct (foldr _ _ outs) as [bs2|]; [|discriminate].
  now rewrite (IHo _ eq_refl).
Qed.

(** ** The voices of the live engine *)

Section Live.
Import ChordResolver AudioEngine AudioEngineFacts.

(** A voice puts its nodes at the end of the heap, connected among
    themselves as they are when the voice plays on an empty engine. *)
Definition relocates (play : Engine -> Engine) : Prop :=
  forall e, nodes (play e)
            = nodes e ++ List.map (shiftNode (length (nodes e))) (nodes (play emptyEngine)).

Ltac relocated :=
  let e := fresh "e" in
  intros e; simpl; unfold nextId; simpl; rewrite ?length_app; simpl;
  rewrite <- ?app_assoc; unfold shiftNode, shiftTarget; simpl; repeat f_equal; lia.

Lemma relocates_playKick t v b : relocates (playKick t v (ToBus b)).
Proof. unfold playKick, triggerSidechain. relocated. Qed.

Lemma relocates_playSnare t v b : relocates (playSnare t v (ToBus b)).
Proof. unfold playSnare. relocated. Qed.

Lemma relocates_playHiHat t v b p o : relocates (playHiHat t v (ToBus b) p o).
Proof. unfold playHiHat. relocated. Qed.

Lemma relocates_playCrash t b : relocates (playCrash t (ToBus b)).
Proof. unfold playCrash. relocated. Qed.

Lemma relocates_playWoodblock t b : relocates (playWoodblock t (ToBus b)).
Proof. unfold playWoodblock. relocated. Qed.

Lemma relocates_playNote f t d cfg b pan vol :
  relocates (playNote f t d cfg (ToBus b) pan vol).
Proof.
  unfold playNote.
  destruct (isBass (InstrumentConfig.type cfg));
    destruct (isLayered (InstrumentConfig.type cfg)); relocated.
Qed.

Lemma relocates_playVocals t : relocates (playVocals t).
Proof. unfold playVocals. relocated. Qed.

(** Where the source at [id] enters the master chain: a kick, snare,
    hi-hat or woodblock at the compressor and nowhere else, a crash at
    the music bus, a note at the music bus or at the reverb.  (The
    vocal track is looked at apart.) *)
Definition entersAt (heap : list AudioNode) (id : nat) (n : AudioNode) : Prop :=
  isSource n = true ->
  match voice n with
  | Kick | Snare | HiHat | Woodblock =>
      entries maxHops heap (ToNode id) = Some [MasterCompressor]
  | Crash => entries maxHops heap (ToNode id) = Some [MusicBus]
  | Note _ => entries maxHops heap (ToNode id) = Some [MusicBus]
              \/ entries maxHops heap (ToNode id) = Some [ReverbNode]
  | Vocal => False
  end.

Lemma entersAt_app heap more id n : entersAt heap id n -> entersAt (heap ++ more) id n.
Proof.
  unfold entersAt. intros H Hs. specialize (H Hs).
  destruct (voice n); try (now apply entries_app); [|exact H].
  destruct H as [H|H]; [left|right]; now apply entries_app.
Qed.

Lemma entersAt_block heap blk k n :
  entersAt blk k n ->
  entersAt (heap ++ List.map (shiftNode (length heap)) blk) (k + length heap)
           (shiftNode (length heap) n).
Proof.
  unfold entersAt. intros H Hs. specialize (H Hs). cbn [voice shiftNode].
  change (ToNode (k + length heap)) with (shiftTarget (length heap) (ToNode k)).
  destruct (voice n); try (now apply entries_block); [|exact H].
  destruct H as [H|H]; [left|right]; now apply entries_block.
Qed.

(** Every node from [base] on enters the chain where its voice says. *)
Definition wiredFrom (base : nat) (e : Engine) : Prop :=
  forall id n, nodes e !! id = Some n -> (base <= id)%nat -> entersAt (nodes e) id n.

Lemma wiredFrom_voice base play e :
  relocates play ->
  (forall k n, nodes (play emptyEngine) !! k = Some n ->
               entersAt (nodes (play emptyEngine)) k n) ->
  wiredFrom base e -> wiredFrom base (play e).
Proof.
  intros Hrel Hblk He id n. rewrite (Hrel e). intros Hl Hid.
  apply lookup_app_Some in Hl as [Hl|[Hge Hl]].
  - apply entersAt_app. now apply He.
  - rewrite lookup_map in Hl.
    destruct (nodes (play emptyEngine) !! (id - length (nodes e))%nat) as [n0|] eqn:E;
      [|discriminate].
    injection Hl as <-.
    replace id with (id - length (nodes e) + length (nodes e))%nat at 1 by lia.
    apply entersAt_block. now apply Hblk.
Qed.

Ltac block_check :=
  let k := fresh "k" in let n := fresh "n" in
  let Hk := fresh "Hk" in let Hs := fresh "Hs" in
  intros k n Hk Hs;
  repeat (destruct k as [|k];
          [ simpl in Hk; injection Hk as <-;
            first [ discriminate Hs
                  | reflexivity
                  | left; reflexivity
                  | right; reflexivity ]
          | simpl in Hk ]);
  rewrite ?lookup_nil in Hk; discriminate Hk.

Lemma wiredFrom_playSections rng genre bpm (l : list SongSection) base s s' :
  wiredFrom base (snd s) ->
  forEachM (playSection rng genre bpm) l s = Some s' ->
  wiredFrom base (snd s').
Proof.
  apply (ArrangementFacts.preserved_sections (wiredFrom base)).
  - intros e He. exact He.
  - intros t v e He. apply wiredFrom_voice; [apply relocates_playKick| |exact He].
    unfold playKick, triggerSidechain. block_check.
  - intros t v e He. apply wiredFrom_voice; [apply relocates_playSnare| |exact He].
    unfold playSnare. block_check.
  - intros t v p o e He. apply wiredFrom_voice; [apply relocates_playHiHat| |exact He].
    unfold playHiHat. block_check.
  - intros t e He. apply wiredFrom_voice; [apply relocates_playWoodblock| |exact He].
    unfold playWoodblock. block_check.
  - intros t e He. apply wiredFrom_voice; [apply relocates_playCrash| |exact He].
    unfold playCrash. block_check.
  - intros f t d cfg dest pan vol e Hdest He.
    destruct Hdest as [-> | ->];
      (apply wiredFrom_voice; [apply relocates_playNote| |exact He]);
      unfold playNote;
      destruct (isBass (InstrumentConfig.type cfg));
      destruct (isLayered (InstrumentConfig.type cfg)); block_check.
Qed.

Lemma length_stopAudio e : length (nodes (stopAudio e)) = length (nodes e).
Proof.
  simpl. unfold stopAll. generalize (nodes e).
  induction (activeNodes e) as [|a l IH]; intros h; simpl; [reflexivity|].
  now rewrite IH, length_alter.
Qed.

(** The engine keeps the nodes of [e1] at the start of its heap. *)
Definition extends (e1 e : Engine) : Prop := exists more, nodes e = nodes e1 ++ more.

Lemma extends_voice e1 play e : relocates play -> extends e1 e -> extends e1 (play e).
Proof.
  intros Hrel (more & Hm). unfold extends. rewrite (Hrel e), Hm, <- app_assoc.
  eexists. reflexivity.
Qed.

Lemma extends_playSections rng genre bpm (l : list SongSection) e1 s s' :
  extends e1 (snd s) ->
  forEachM (playSection rng genre bpm) l s = Some s' ->
  extends e1 (snd s').
Proof.
  apply (ArrangementFacts.preserved_sections (extends e1)).
  - intros e He. exact He.
  - intros t v e. apply extends_voice, relocates_playKick.
  - intros t v e. apply extends_voice, relocates_playSnare.
  - intros t v p o e. apply extends_voice, relocates_playHiHat.
  - intros t e. apply extends_voice, relocates_playWoodblock.
  - intros t e. apply extends_voice, relocates_playCrash.
  - intros f t d cfg dest pan vol e [-> | ->]; apply extends_voice, relocates_playNote.
Qed.

(** The engine as [playSongDemo] has it when the walk over the sections
    begins. *)
Definition opened (now : Q) (hasVocal : bool) (e : Engine) : Engine :=
  if hasVocal then playVocals (now + 0.2) (stopAudio e) else stopAudio e.

Lemma routed_playSongDemo rng now song hasVocal e p :
  playSongDemo rng now song hasVocal e = Some p ->
  extends (opened now hasVocal e) (engine p)
  /\ wiredFrom (length (nodes (opened now hasVocal e))) (engine p).
Proof.
  unfold playSongDemo. fold (opened now hasVocal e).
  destruct (forEachM _ _ _) as [[cursor e']|] eqn:E; [|discriminate]. intros [= <-].
  cbn [engine]. split.
  - apply (extends_playSections _ _ _ _ (opened now hasVocal e)) in E; [exact E|].
    exists []. cbn [snd]. now rewrite app_nil_r.
  - apply (wiredFrom_playSections _ _ _ _ (length (nodes (opened now hasVocal e)))) in E;
      [exact E|].
    intros id n Hl Hid. cbn [snd] in Hl. apply lookup_lt_Some in Hl. lia.
Qed.

(** The sources of the vocal track, in the block of [playVocals]: the
    lead, started at [t], enters the chain at the compressor; the two
    doubles, started later, at the reverb. *)
Lemma vocals_block t k n :
  nodes (playVocals t emptyEngine) !! k = Some n ->
  voice n = Vocal
  /\ (isSource n = true ->
      exists t', startTime n = Some t'
        /\ ((t' == t /\ entries maxHops (nodes (playVocals t emptyEngine)) (ToNode k)
                        = Some [MasterCompressor])
            \/ (~ t' == t /\ entries maxHops (nodes (playVocals t emptyEngine)) (ToNode k)
                             = Some [ReverbNode]))).
Proof.
  intros Hk.
  repeat (destruct k as [|k];
          [ simpl in Hk; injection Hk as <-; split; [reflexivity|];
            intros Hs;
            first [ discriminate Hs
                  | eexists; split; [reflexivity|];
                    first [ left; split; [reflexivity|reflexivity]
                          | right; split; [intros H; lra|reflexivity] ] ]
          | simpl in Hk ]).
  rewrite lookup_nil in Hk. discriminate Hk.
Qed.

(** Where every source of a render enters the master chain. *)
Lemma sources_enter rng now song hasVocal e p :
  playSongDemo rng now song hasVocal e = Some p ->
  forall id n,
    nodes (engine p) !! id = Some n -> (length (nodes e) <= id)%nat ->
    isSource n = true ->
    match voice n with
    | Kick | Snare | HiHat | Woodblock =>
        entries maxHops (nodes (engine p)) (ToNode id) = Some [MasterCompressor]
    | Crash => entries maxHops (nodes (engine p)) (ToNode id) = Some [MusicBus]
    | Note _ => entries maxHops (nodes (engine p)) (ToNode id) = Some [MusicBus]
                \/ entries maxHops (nodes (engine p)) (ToNode id) = Some [ReverbNode]
    | Vocal =>
        forall t, startTime n = Some t ->
          (t == now + 0.2 ->
           entries maxHops (nodes (engine p)) (ToNode id) = Some [MasterCompressor])
          /\ (~ t == now + 0.2 ->
              entries maxHops (nodes (engine p)) (ToNode id) = Some [ReverbNode])
    end.
Proof.
  intros E id n Hl Hid Hs.
  destruct (routed_playSongDemo _ _ _ _ _ _ E) as [(more & Hm) Hw].
  destruct (le_lt_dec (length (nodes (opened now hasVocal e))) id) as [Hge|Hlt].
  - specialize (Hw id n Hl Hge Hs). destruct (voice n); try exact Hw. contradiction.
  - unfold opened in *. destruct hasVocal; [|rewrite length_stopAudio in Hlt; lia].
    rewrite Hm in Hl |- *. rewrite lookup_app_l in Hl by exact Hlt.
    rewrite (relocates_playVocals (now + 0.2) (stopAudio e)) in Hl |- *.
    pose proof (length_stopAudio e) as Hlen.
    set (d := length (nodes (stopAudio e))) in *.
    rewrite lookup_app_r in Hl by lia. rewrite lookup_map in Hl. fold d in Hl.
    destruct (nodes (playVocals (now + 0.2) emptyEngine) !! (id - d)%nat)
      as [n0|] eqn:E0; [|discriminate Hl].
    injection Hl as <-.
    destruct (vocals_block _ _ _ E0) as [Hv Hsrc]. cbn [voice shiftNode]. rewrite Hv.
    intros t Ht. cbn [startTime shiftNode] in Ht.
    destruct (Hsrc Hs) as (t' & Ht' & Hcase). rewrite Ht' in Ht. injection Ht as <-.
    assert (Hid' : ToNode id = shiftTarget d (ToNode (id - d)))
      by (simpl; f_equal; lia).
    destruct Hcase as [[Heq Hent]|[Hne Hent]]; split; intros H;
      first [ contradiction
            | rewrite Hid'; apply entries_app; unfold d; apply entries_block, Hent ].
Qed.

(** C2, as the code has it.  In a live render every source of a kick,
    snare, hi-hat or woodblock voice is connected, through the nodes of
    its voice, to the compressor of the master chain and to no other
    stage, and from the compressor the signal does not pass through the
    music bus, whose gain the kick ducks; every source of a crash voice
    is connected to the music bus and to no other stage.  No node of
    these voices has a connection to another stage. *)
Theorem drums_to_compressor_crash_to_music_bus (rng : nat -> Q) (now : Q)
        (song : Song) (hasVocal : bool) (e : Engine) :
  (forall i, 0 <= rng i) -> (0 < bpmOf (tempo song))%Z ->
  exists p,
    playSongDemo rng now song hasVocal e = Some p
    /\ (forall id n,
          nodes (engine p) !! id = Some n -> (length (nodes e) <= id)%nat ->
          isSource n = true ->
          match voice n with
          | Kick | Snare | HiHat | Woodblock =>
              entries maxHops (nodes (engine p)) (ToNode id) = Some [MasterCompressor]
          | Crash => entries maxHops (nodes (engine p)) (ToNode id) = Some [MusicBus]
          | Note _ | Vocal => True
          end)
    /\ (forall n b,
          In n (newNodes (stopAudio e) (engine p)) -> In (ToBus b) (outputs n) ->
          match voice n with
          | Kick | Snare | HiHat | Woodblock => b = MasterCompressor
          | Crash => b = MusicBus
          | Note _ | Vocal => True
          end)
    /\ passesThrough MusicBus MasterCompressor = false
    /\ passesThrough MusicBus MusicBus = true.
Proof.
  intros Hr Hb.
  destruct (playSongDemo_walks rng now song hasVocal e Hr Hb) as (p & E & _ & A).
  exists p. split; [exact E|]. split; [|split; [|split; reflexivity]].
  - intros id n Hl Hid Hs.
    pose proof (sources_enter _ _ _ _ _ _ E id n Hl Hid Hs) as H.
    destruct (voice n); first [exact H | exact I].
  - intros n b Hn Hout.
    apply adds_newNodes in A as [_ A]. rewrite List.Forall_forall in A.
    destruct (A n Hn) as [_ Hroute]. specialize (Hroute b Hout).
    destruct (voice n); first [exact I | exact Hroute].
Qed.

Lemma drums_to_compressor_crash_to_music_bus_witness :
  exists p,
    playSongDemo (fun _ => 1 # 2) 0 (oneSectionSong pop "120 BPM" CHORUS ["C G"])
                 false emptyEngine = Some p
    /\ (forall id n,
          nodes (engine p) !! id = Some n -> (length (nodes emptyEngine) <= id)%nat ->
          isSource n = true ->
          match voice n with
          | Kick | Snare | HiHat | Woodblock =>
              entries maxHops (nodes (engine p)) (ToNode id) = Some [MasterCompressor]
          | Crash => entries maxHops (nodes (engine p)) (ToNode id) = Some [MusicBus]
          | Note _ | Vocal => True
          end).
Proof.
  destruct (drums_to_compressor_crash_to_music_bus (fun _ => 1 # 2) 0
              (oneSectionSong pop "120 BPM" CHORUS ["C G"]) false emptyEngine
              half_nonneg eq_refl) as (p & E & H & _).
  exists p. split; [exact E|exact H].
Defined.

(** Every source of the harmony (chords, pad, bass, arpeggio, strum) is
    connected, through the nodes of its voice, to the music bus or to
    the reverb, and to no other stage of the master chain; the signal of
    both passes through the gain that the kick ducks.  Of the vocal
    track, the lead, started at the start of the song, is connected to
    the compressor, past the ducked gain, and the doubles, started
    later, are connected to the reverb. *)
Theorem harmony_passes_through_ducked_bus (rng : nat -> Q) (now : Q) (song : Song)
        (hasVocal : bool) (e : Engine) :
  (forall i, 0 <= rng i) -> (0 < bpmOf (tempo song))%Z ->
  exists p,
    playSongDemo rng now song hasVocal e = Some p
    /\ (forall id n,
          nodes (engine p) !! id = Some n -> (length (nodes e) <= id)%nat ->
          isSource n = true ->
          match voice n with
          | Note _ =>
              entries maxHops (nodes (engine p)) (ToNode id) = Some [MusicBus]
              \/ entries maxHops (nodes (engine p)) (ToNode id) = Some [ReverbNode]
          | Vocal =>
              forall t, startTime n = Some t ->
                (t == now + 0.2 ->
                 entries maxHops (nodes (engine p)) (ToNode id) = Some [MasterCompressor])
                /\ (~ t == now + 0.2 ->
                    entries maxHops (nodes (engine p)) (ToNode id) = Some [ReverbNode])
          | _ => True
          end)
    /\ (forall n b,
          In n (newNodes (stopAudio e) (engine p)) -> In (ToBus b) (outputs n) ->
          match voice n with
          | Note _ => b = MusicBus \/ b = ReverbNode
          | Vocal => b = MasterCompressor \/ b = ReverbNode
          | _ => True
          end)
    /\ passesThrough MusicBus MusicBus = true
    /\ passesThrough MusicBus ReverbNode = true
    /\ passesThrough MusicBus MasterCompressor = false.
Proof.
  intros Hr Hb.
  destruct (playSongDemo_walks rng now song hasVocal e Hr Hb) as (p & E & _).
  exists p. split; [exact E|]. split; [|split; [|repeat split]].
  - intros id n Hl Hid Hs.
    pose proof (sources_enter _ _ _ _ _ _ E id n Hl Hid Hs) as H.
    destruct (voice n); first [exact H | exact I].
  - intros n b Hn Hout.
    destruct (adds_newNodes _ _ _ (ArrangementFacts.ducked_playSongDemo _ _ _ _ _ _ E))
      as [_ A].
    rewrite List.Forall_forall in A. specialize (A n Hn b Hout).
    destruct (voice n); try exact I; tauto.
Qed.

Lemma harmony_passes_through_ducked_bus_witness :
  exists p,
    playSongDemo (fun _ => 1 # 2) 0 (oneSectionSong country "100" BRIDGE ["D A7"])
                 true emptyEngine = Some p
    /\ (forall id n,
          nodes (engine p) !! id = Some n -> (length (nodes emptyEngine) <= id)%nat ->
          isSource n = true ->
          match voice n with
          | Note _ =>
              entries maxHops (nodes (engine p)) (ToNode id) = Some [MusicBus]
              \/ entries maxHops (nodes (engine p)) (ToNode id) = Some [ReverbNode]
          | Vocal =>
              forall t, startTime n = Some t ->
                (t == 0 + 0.2 ->
                 entries maxHops (nodes (engine p)) (ToNode id) = Some [MasterCompressor])
                /\ (~ t == 0 + 0.2 ->
                    entries maxHops (nodes (engine p)) (ToNode id) = Some [ReverbNode])
          | _ => True
          end).
Proof.
  destruct (harmony_passes_through_ducked_bus (fun _ => 1 # 2) 0
              (oneSectionSong country "100" BRIDGE ["D A7"]) true emptyEngine
              half_nonneg eq_refl) as (p & E & H & _).
  exists p. split; [exact E|exact H].
Defined.

End Live.

End RoutingFacts.

(* ================================================================== *)
(** * More on the shared walk and the offline buffer *)
(* ================================================================== *)

Module SharedWalkFacts.
Import WebAudio ChordResolver OfflineEngine OfflineEngineFacts RoutingFacts.
Import AudioEngineFacts (Qsum, Qsum_app, ofNat_S, barDuration_pos).
Local Open Scope Q_scope.

(** ** The length of the walk *)

(** The chord lines of a song, in the order of the walk. *)
Definition chordLines (song : Song) : list string :=
  flat_map chords (sections song).

(** A chord line that holds at least one chord. *)
Definition holdsChord (chordLine : string) : bool :=
  (0 <? length (chordsOfLine chordLine))%nat.

Lemma Qsum_map_ext {A} (f g : A -> Q) (l : list A) :
  (forall x, In x l -> f x == g x) ->
  Qsum (List.map f l) == Qsum (List.map g l).
Proof.
  induction l as [|x l IH]; intros H; simpl; [reflexivity|].
  rewrite (H x) by now left. rewrite IH; [reflexivity|].
  intros y Hy. apply H. now right.
Qed.

Lemma Qsum_map_le {A} (f g : A -> Q) (l : list A) :
  (forall x, In x l -> f x <= g x) ->
  Qsum (List.map f l) <= Qsum (List.map g l).
Proof.
  induction l as [|x l IH]; intros H; simpl; [lra|].
  pose proof (H x (or_introl eq_refl)).
  assert (Qsum (List.map f l) <= Qsum (List.map g l))
    by (apply IH; intros y Hy; apply H; now right).
  lra.
Qed.

Lemma Qsum_lines {A} (f : A -> list Q) (g : A -> Q) (l : list A) :
  (forall x, Qsum (f x) == g x) ->
  Qsum (flat_map f l) == Qsum (List.map g l).
Proof.
  intros H. induction l as [|x l IH]; simpl; [reflexivity|].
  now rewrite Qsum_app, IH, H.
Qed.

Lemma Qsum_repeat {A} (x : Q) (l : list A) :
  Qsum (List.map (fun _ => x) l) == ofNat (length l) * x.
Proof.
  induction l as [|a l IH]; simpl.
  - change (ofNat 0) with 0. ring.
  - rewrite IH, ofNat_S. ring.
Qed.

Lemma lineSlots_sum barDur chordLine :
  Qsum (lineSlots barDur chordLine) == if holdsChord chordLine then barDur else 0.
Proof.
  unfold lineSlots, holdsChord, lengthOr1.
  rewrite Qsum_repeat. destruct (chordsOfLine chordLine) as [|c cs]; simpl length.
  - change (ofNat 0) with 0. simpl. ring.
  - change (0 <? Datatypes.S (length cs))%nat with true. cbv iota.
    apply Qmult_div_r. unfold ofNat, Qeq. simpl. lia.
Qed.

Lemma flat_map_lines {A B C} (f : B -> list C) (g : A -> list B) (l : list A) :
  flat_map (fun x => flat_map f (g x)) l = flat_map f (flat_map g l).
Proof.
  induction l as [|x l IH]; simpl; [reflexivity|].
  now rewrite flat_map_app, IH.
Qed.

Lemma duration_by_line ctx song hasVocal startTime :
  duration (renderMusicToContext ctx song hasVocal startTime)
  == Qsum (List.map (fun cl => if holdsChord cl
                               then barDurOf (bpmOf (tempo song)) else 0)
                    (chordLines song)).
Proof.
  rewrite renderMusicToContext_duration. unfold songSlots, chordLines.
  rewrite flat_map_lines. apply Qsum_lines. intros cl. apply lineSlots_sum.
Qed.




(** ** The size of the offline buffer *)

Lemma totalChords_sum (song : Song) :
  totalChords song
  = list_sum (List.map (fun cl => length (chordsOfLine cl)) (chordLines song)).
Proof.
  unfold totalChords, chordLines.
  assert (Hin : forall (l : list string) n,
             foldl (fun n cl => (n + length (chordsOfLine cl))%nat) n l
             = (n + list_sum (List.map (fun cl => length (chordsOfLine cl)) l))%nat).
  { induction l as [|cl l IH]; intros n; simpl; [lia|]. rewrite IH. lia. }
  assert (Hout : forall (l : list SongSection) n,
             foldl (fun n s =>
                      foldl (fun n cl => (n + length (chordsOfLine cl))%nat) n (chords s))
                   n l
             = (n + list_sum (List.map (fun cl => length (chordsOfLine cl))
                                       (flat_map chords l)))%nat).
  { induction l as [|s l IH]; intros n; simpl; [lia|].
    rewrite IH, Hin, map_app, list_sum_app. lia. }
  now rewrite Hout.
Qed.

Lemma ofNat_list_sum (l : list nat) :
  ofNat (list_sum l) == Qsum (List.map ofNat l).
Proof.
  induction l as [|n l IH]; simpl; [reflexivity|].
  rewrite <- IH. unfold ofNat. rewrite Nat2Z.inj_add, inject_Z_plus. reflexivity.
Qed.

Lemma Qsum_scale {A} (k : Q) (f : A -> Q) (l : list A) :
  Qsum (List.map (fun x => f x * k) l) == Qsum (List.map f l) * k.
Proof.
  induction l as [|x l IH]; simpl; [ring|]. rewrite IH. ring.
Qed.

Lemma totalDuration_by_line (song : Song) :
  totalDuration song
  == Qsum (List.map (fun cl => ofNat (length (chordsOfLine cl))
                               * (barDurOf (bpmOf (tempo song)) / 4))
                    (chordLines song)) + 5.
Proof.
  unfold totalDuration. rewrite totalChords_sum, ofNat_list_sum, map_map, Qsum_scale.
  reflexivity.
Qed.

(** [renderSongToBlob] counts a quarter of a bar for each chord.  With
    a positive tempo the walk of the export returns, and the duration
    that [renderSongToBlob] computes, before it is rounded up to a number
    of frames, is the length of the walk plus the tail of five seconds
    when every chord line holds four chords or none; it falls short of
    that when no line holds more than four chords, and exceeds it when
    every line that holds a chord holds four or more. *)
Theorem offline_buffer_fits_four_chord_lines (song : Song) (hasVocal : bool) :
  (0 < bpmOf (tempo song))%Z ->
  exists r,
    Exceptions.renderMusicToContext newContext song hasVocal 0 = Exceptions.Returned r
    /\ ((forall cl, In cl (chordLines song) ->
                    length (chordsOfLine cl) = 4%nat \/ length (chordsOfLine cl) = 0%nat) ->
        totalDuration song == duration r + 5)
    /\ ((forall cl, In cl (chordLines song) -> (length (chordsOfLine cl) <= 4)%nat) ->
        totalDuration song <= duration r + 5)
    /\ ((forall cl, In cl (chordLines song) ->
                    (4 <= length (chordsOfLine cl))%nat
                    \/ length (chordsOfLine cl) = 0%nat) ->
        duration r + 5 <= totalDuration song).
Proof.
  intros Hb. eexists.
  split; [apply (ExceptionFacts.renderMusicToContext_returns _ _ _ _ Hb), Qle_refl|].
  set (B := barDurOf (bpmOf (tempo song))).
  assert (HB : 0 < B) by apply (barDuration_pos _ Hb).
  split; [|split].
  - intros H4.
    rewrite totalDuration_by_line, duration_by_line. fold B.
    apply Qplus_inj_r, Qsum_map_ext. intros cl Hcl. unfold holdsChord.
    destruct (H4 cl Hcl) as [-> | ->]; simpl.
    + change (ofNat 4) with 4. field.
    + change (ofNat 0) with 0. field.
  - intros H4.
    rewrite totalDuration_by_line, duration_by_line. fold B.
    apply Qplus_le_l, Qsum_map_le. intros cl Hcl. unfold holdsChord.
    specialize (H4 cl Hcl). destruct (length (chordsOfLine cl)) as [|n] eqn:En.
    + change (ofNat 0) with 0. simpl. lra.
    + change (0 <? Datatypes.S n)%nat with true. cbv iota.
      assert (ofNat (Datatypes.S n) <= 4)
        by (unfold ofNat; rewrite <- (Zle_Qle _ 4); lia).
      unfold Qdiv. change (/ 4) with (1 # 4). nra.
  - intros H4.
    rewrite totalDuration_by_line, duration_by_line. fold B.
    apply Qplus_le_l, Qsum_map_le. intros cl Hcl. unfold holdsChord.
    destruct (H4 cl Hcl) as [Hn|Hn].
    + destruct (length (chordsOfLine cl)) as [|n]; [lia|].
      change (0 <? Datatypes.S n)%nat with true. cbv iota.
      assert (4 <= ofNat (Datatypes.S n))
        by (unfold ofNat; rewrite <- (Zle_Qle 4); lia).
      unfold Qdiv. change (/ 4) with (1 # 4). nra.
    + rewrite Hn. change (ofNat 0) with 0. simpl. lra.
Qed.

Lemma offline_buffer_fits_four_chord_lines_witness :
  exists r,
    Exceptions.renderMusicToContext newContext
      (oneLineSong "120" ["C G Am F"; "   "; "F G C G"]) true 0 = Exceptions.Returned r
    /\ totalDuration (oneLineSong "120" ["C G Am F"; "   "; "F G C G"]) == duration r + 5.
Proof.
  destruct (offline_buffer_fits_four_chord_lines
              (oneLineSong "120" ["C G Am F"; "   "; "F G C G"]) true eq_refl)
    as (r & E & H4 & _).
  exists r. split; [exact E|]. apply H4.
  intros cl Hcl. simpl in Hcl.
  repeat (destruct Hcl as [<-|Hcl]; [vm_compute; tauto|]). contradiction.
Defined.

(** ** Where the voices of the walk fall *)

(** A node that starts between [lo] and [hi] and, when it is a note,
    stops by [hi]. *)
Definition timed (lo hi : Q) (n : AudioNode) : Prop :=
  (forall t, startTime n = Some t -> lo <= t <= hi)
  /\ (forall ty s, voice n = Note ty -> stopTime n = Some s -> s <= hi).

Lemma timed_le lo lo' hi hi' n :
  lo' <= lo -> hi <= hi' -> timed lo hi n -> timed lo' hi' n.
Proof.
  intros Hlo Hhi [H1 H2]. split.
  - intros t Ht. specialize (H1 t Ht). lra.
  - intros ty s Hv Hs. specialize (H2 ty s Hv Hs). lra.
Qed.

(** [ctx'] keeps the nodes of [ctx] and adds nodes that satisfy [P]. *)
Definition grows (P : AudioNode -> Prop) (ctx ctx' : Context) : Prop :=
  exists new, nodes ctx' = nodes ctx ++ new /\ Forall P new.

Lemma grows_refl P ctx : grows P ctx ctx.
Proof. exists []. split; [now rewrite app_nil_r|constructor]. Qed.

Lemma grows_trans P ctx0 ctx1 ctx2 :
  grows P ctx0 ctx1 -> grows P ctx1 ctx2 -> grows P ctx0 ctx2.
Proof.
  intros (n1 & H1 & P1) (n2 & H2 & P2). exists (n1 ++ n2). split.
  - now rewrite H2, H1, <- app_assoc.
  - now apply Forall_app.
Qed.

Lemma grows_weaken (P R : AudioNode -> Prop) ctx ctx' :
  (forall n, P n -> R n) -> grows P ctx ctx' -> grows R ctx ctx'.
Proof.
  intros H (new & Hn & HP). exists new. split; [assumption|].
  eapply Forall_impl; eassumption.
Qed.

(** The walk is at cursor [c] and has added nodes with [P] since [ctx0]. *)
Definition slotState (P : AudioNode -> Prop) (c : Q) (ctx0 : Context) (w : Walk) : Prop :=
  cursor w = c /\ grows P ctx0 (context w).

Lemma slotState_pushed P c ctx0 play w :
  (forall ctx, grows P ctx (fst (play ctx))) ->
  slotState P c ctx0 w -> slotState P c ctx0 (pushed play w).
Proof.
  intros Hp [Hc Hg]. split; [now rewrite cursor_pushed|].
  unfold pushed. specialize (Hp (context w)).
  destruct (play (context w)) as [ctx node]. simpl in *.
  eapply grows_trans; eassumption.
Qed.

Lemma slotState_foldl {A} P c ctx0 (f : Walk -> A -> Walk) (l : list A) w :
  (forall x w, slotState P c ctx0 w -> slotState P c ctx0 (f w x)) ->
  slotState P c ctx0 w -> slotState P c ctx0 (foldl f w l).
Proof.
  intros Hf. revert w. induction l as [|x l IH]; intros w Hw; simpl; [assumption|].
  now apply IH, Hf.
Qed.

Ltac timed_node :=
  split;
  [ intros t' Ht'; simpl in Ht';
    first [discriminate Ht' | injection Ht' as <-; lra]
  | intros ty' s' Hv' Hs'; simpl in Hv', Hs';
    first [discriminate Hv' | discriminate Hs' | injection Hs' as <-; lra] ].

Ltac timed_nodes :=
  eexists; split; [simpl; reflexivity|];
  repeat match goal with
         | |- Forall _ (_ :: _) => constructor
         | |- Forall _ [] => constructor
         | |- timed _ _ _ => timed_node
         end.

Lemma timed_playNote lo hi f t d ty dest vol ctx :
  lo <= t -> t <= hi -> t + d <= hi ->
  grows (timed lo hi) ctx (fst (playNote f t d ty dest vol ctx)).
Proof. intros H1 H2 H3. unfold playNote. timed_nodes. Qed.

Lemma timed_playKick lo hi t v dest musicBus ctx :
  lo <= t -> t <= hi ->
  grows (timed lo hi) ctx (fst (playKick t v dest musicBus ctx)).
Proof. intros H1 H2. unfold playKick. destruct musicBus; timed_nodes. Qed.

Lemma timed_playSnare lo hi t v dest ctx :
  lo <= t -> t <= hi ->
  grows (timed lo hi) ctx (fst (playSnare t v dest ctx)).
Proof. intros H1 H2. unfold playSnare. timed_nodes. Qed.

Lemma timed_playHiHat lo hi t v dest ctx :
  lo <= t -> t <= hi ->
  grows (timed lo hi) ctx (fst (playHiHat t v dest ctx)).
Proof. intros H1 H2. unfold playHiHat. timed_nodes. Qed.

Lemma slotState_voice P c ctx0 (play : Q -> Context -> Context * nat) w :
  (forall ctx, grows P ctx (fst (play c ctx))) ->
  slotState P c ctx0 w ->
  slotState P c ctx0 (pushed (play (cursor w)) w).
Proof.
  intros Hp Hw. apply slotState_pushed; [|exact Hw].
  intros ctx. rewrite (proj1 Hw). apply Hp.
Qed.

(** The voices of a chord slot start inside the slot, and its notes
    stop at its end. *)
Lemma renderChord_timed dur c w :
  0 <= dur ->
  grows (timed (cursor w) (cursor w + dur)) (context w) (context (renderChord dur c w)).
Proof.
  intros Hd. unfold renderChord.
  destruct (0 <? length (getChordFrequencies_offline c))%nat; cbn [context];
    [|apply grows_refl].
  set (P := timed (cursor w) (cursor w + dur)).
  refine (proj2 (_ : slotState P (cursor w) (context w) _)).
  cbn [foldl seq].
  apply (slotState_voice P _ _
           (fun cur => playHiHat (cur + dur / 4 * ofNat 3) 0.3 (ToBus MasterCompressor)));
    [intros ctx; apply timed_playHiHat; unfold Qdiv;
     change (/ 4) with (1 # 4); change (ofNat 3) with 3; lra|].
  apply (slotState_voice P _ _
           (fun cur => playHiHat (cur + dur / 4 * ofNat 2) 0.3 (ToBus MasterCompressor)));
    [intros ctx; apply timed_playHiHat; unfold Qdiv;
     change (/ 4) with (1 # 4); change (ofNat 2) with 2; lra|].
  apply (slotState_voice P _ _
           (fun cur => playHiHat (cur + dur / 4 * ofNat 1) 0.3 (ToBus MasterCompressor)));
    [intros ctx; apply timed_playHiHat; unfold Qdiv;
     change (/ 4) with (1 # 4); change (ofNat 1) with 1; lra|].
  apply (slotState_voice P _ _
           (fun cur => playHiHat (cur + dur / 4 * ofNat 0) 0.3 (ToBus MasterCompressor)));
    [intros ctx; apply timed_playHiHat; unfold Qdiv;
     change (/ 4) with (1 # 4); change (ofNat 0) with 0; lra|].
  apply (slotState_voice P _ _
           (fun cur => playSnare (cur + dur / 2) 0.7 (ToBus MasterCompressor)));
    [intros ctx; apply timed_playSnare; unfold Qdiv; change (/ 2) with (1 # 2); lra|].
  apply (slotState_voice P _ _
           (fun cur => playKick cur 0.9 (ToBus MasterCompressor) true));
    [intros ctx; apply timed_playKick; lra|].
  apply (slotState_voice P _ _
           (fun cur => playNote (scaleFreq (1 / 2)
                                   (nth 0 (getChordFrequencies_offline c) (mkFreq 0 0 0)))
                                cur dur bass (ToBus MusicBus) 0.4));
    [intros ctx; apply timed_playNote; lra|].
  apply slotState_foldl; [|split; [reflexivity|apply grows_refl]].
  intros f w' Hw'.
  apply (slotState_voice P _ _ (fun cur => playNote f cur dur synth (ToBus MusicBus) 0.15));
    [intros ctx; apply timed_playNote; lra|exact Hw'].
Qed.

(** The walk has added nodes that start between [lo] and its cursor. *)
Definition walked (lo : Q) (ctx0 : Context) (w : Walk) : Prop :=
  lo <= cursor w /\ grows (timed lo (cursor w)) ctx0 (context w).

Lemma walked_renderChord lo ctx0 dur c w :
  0 <= dur -> walked lo ctx0 w -> walked lo ctx0 (renderChord dur c w).
Proof.
  intros Hd [Hc Hg]. unfold walked. rewrite renderChord_cursor. split; [lra|].
  eapply grows_trans.
  - eapply grows_weaken; [|exact Hg]. intros n. apply timed_le; lra.
  - eapply grows_weaken; [|apply renderChord_timed, Hd]. intros n. apply timed_le; lra.
Qed.

Lemma walked_foldl {A} lo ctx0 (f : Walk -> A -> Walk) (l : list A) w :
  (forall x w, walked lo ctx0 w -> walked lo ctx0 (f w x)) ->
  walked lo ctx0 w -> walked lo ctx0 (foldl f w l).
Proof.
  intros Hf. revert w. induction l as [|x l IH]; intros w Hw; simpl; [assumption|].
  now apply IH, Hf.
Qed.

Lemma slot_nonneg barDur (chordLine : string) :
  0 <= barDur -> 0 <= barDur / ofNat (lengthOr1 (chordsOfLine chordLine)).
Proof.
  intros HB. apply Qle_shift_div_l; [|lra].
  unfold lengthOr1, ofNat. destruct (length _); rewrite <- (Zlt_Qlt 0); lia.
Qed.

(** With a positive tempo, every node that the walk starts is started
    between the start time and the end of the walk, and every note of the
    harmony and of the bass stops by the end of the walk (the drums and
    the vocal track may sound longer). *)
Theorem walk_voices_fall_inside_the_walk (ctx : Context) (song : Song)
        (hasVocal : bool) (startTime : Q) :
  (0 < bpmOf (tempo song))%Z ->
  let r := renderMusicToContext ctx song hasVocal startTime in
  exists new,
    nodes (rendered r) = nodes ctx ++ new
    /\ forall n, In n new ->
         (forall t, WebAudio.startTime n = Some t ->
                    startTime <= t <= startTime + duration r)
         /\ (forall ty s, voice n = Note ty -> stopTime n = Some s ->
                          s <= startTime + duration r).
Proof.
  intros Hb r.
  pose proof (Qlt_le_weak _ _ (barDuration_pos _ Hb)) as HB.
  change (AudioEngine.barDuration (bpmOf (tempo song)))
    with (barDurOf (bpmOf (tempo song))) in HB.
  assert (Hw : walked startTime ctx
                      (foldl (fun w section =>
                                renderSection (barDurOf (bpmOf (tempo song))) section w)
                             (if hasVocal then playVocals startTime (mkWalk startTime ctx [])
                              else mkWalk startTime ctx [])
                             (sections song))).
  { apply walked_foldl.
    - intros section w Hw. unfold renderSection. apply walked_foldl; [|exact Hw].
      intros cl w1 Hw1. unfold renderChordLine. apply walked_foldl; [|exact Hw1].
      intros c w2 Hw2. apply walked_renderChord; [|exact Hw2]. now apply slot_nonneg.
    - destruct hasVocal; (split; [simpl; lra|]); [|apply grows_refl].
      unfold playVocals. cbn [context cursor]. timed_nodes. }
  destruct Hw as [Hc (new & Hn & Hnew)]. exists new. split; [exact Hn|].
  intros n Hin. rewrite List.Forall_forall in Hnew. destruct (Hnew n Hin) as [H1 H2].
  unfold r, renderMusicToContext. cbn [duration]. split.
  - intros t Ht. specialize (H1 t Ht). lra.
  - intros ty s Hv Hs. specialize (H2 ty s Hv Hs). lra.
Qed.

Lemma walk_voices_fall_inside_the_walk_witness :
  exists new,
    nodes (rendered (renderMusicToContext newContext (oneLineSong "120" ["C G"]) true 0))
    = nodes newContext ++ new
    /\ forall n, In n new ->
         (forall t, WebAudio.startTime n = Some t ->
                    0 <= t <= 0 + duration (renderMusicToContext newContext
                                              (oneLineSong "120" ["C G"]) true 0))
         /\ (forall ty s, voice n = Note ty -> stopTime n = Some s ->
                          s <= 0 + duration (renderMusicToContext newContext
                                               (oneLineSong "120" ["C G"]) true 0)).
Proof.
  apply (walk_voices_fall_inside_the_walk newContext (oneLineSong "120" ["C G"]) true 0).
  reflexivity.
Defined.

(** ** Routing and ducking in the walk *)

(** Where the voices of the walk enter the master chain; the walk has
    no crash and no woodblock. *)
Definition routedInWalk (n : AudioNode) : Prop :=
  voice n <> Crash /\ voice n <> Woodblock
  /\ forall b, In (ToBus b) (outputs n) ->
       match voice n with
       | Kick | Snare | HiHat => b = MasterCompressor
       | Note _ => b = MusicBus
       | _ => b = MasterCompressor \/ b = ReverbNode
       end.

(** The two events that [triggerSidechain] writes on the gain of the
    music bus for a kick at [t]. *)
Definition duck (t : Q) : list Automation :=
  [ SetTargetAtTime 0.5 t 0.01; SetTargetAtTime 1 (t + 0.1) 0.1 ].

(** [ctx'] keeps the nodes of [ctx], adds nodes routed as above, and
    adds to the gain of the music bus the events of their kicks. *)
Definition ducks (ctx ctx' : Context) : Prop :=
  exists new,
    nodes ctx' = nodes ctx ++ new
    /\ Forall routedInWalk new
    /\ musicBusGain ctx'
       = musicBusGain ctx ++ flat_map duck (AudioEngineFacts.triggers Kick new).

Lemma ducks_refl ctx : ducks ctx ctx.
Proof.
  exists []. split; [now rewrite app_nil_r|]. split; [constructor|].
  simpl. now rewrite app_nil_r.
Qed.

Lemma ducks_trans ctx0 ctx1 ctx2 : ducks ctx0 ctx1 -> ducks ctx1 ctx2 -> ducks ctx0 ctx2.
Proof.
  intros (n1 & H1 & P1 & G1) (n2 & H2 & P2 & G2). exists (n1 ++ n2). split; [|split].
  - now rewrite H2, H1, <- app_assoc.
  - now apply Forall_app.
  - now rewrite G2, G1, AudioEngineFacts.triggers_app, flat_map_app, <- app_assoc.
Qed.

Ltac routed_node :=
  split; [discriminate|split; [discriminate|]];
  let b := fresh "b" in let Hb := fresh "Hb" in
  intros b Hb; simpl in Hb |- *;
  intuition (try discriminate; try (simplify_eq; tauto)).

Ltac ducks_voice :=
  eexists; split; [simpl; reflexivity|]; split;
  [ repeat match goal with
           | |- Forall _ (_ :: _) => constructor
           | |- Forall _ [] => constructor
           | |- routedInWalk _ => routed_node
           end
  | simpl; rewrite ?app_nil_r; reflexivity ].

Lemma ducks_playNote f t d ty vol ctx :
  ducks ctx (fst (playNote f t d ty (ToBus MusicBus) vol ctx)).
Proof. unfold playNote. ducks_voice. Qed.

Lemma ducks_playKick t v ctx :
  ducks ctx (fst (playKick t v (ToBus MasterCompressor) true ctx)).
Proof. unfold playKick, triggerSidechain. ducks_voice. Qed.

Lemma ducks_playSnare t v ctx :
  ducks ctx (fst (playSnare t v (ToBus MasterCompressor) ctx)).
Proof. unfold playSnare. ducks_voice. Qed.

Lemma ducks_playHiHat t v ctx :
  ducks ctx (fst (playHiHat t v (ToBus MasterCompressor) ctx)).
Proof. unfold playHiHat. ducks_voice. Qed.

(** ** Where the sources of the walk enter the master chain *)

(** A voice of the walk puts its nodes at the end of the heap, connected
    among themselves as they are in a new context. *)
Definition relocatesInWalk (play : Context -> Context) : Prop :=
  forall ctx, nodes (play ctx)
              = nodes ctx ++ List.map (shiftNode (length (nodes ctx)))
                                      (nodes (play newContext)).

Ltac relocated :=
  let ctx := fresh "ctx" in
  intros ctx; simpl; unfold nextId; simpl; rewrite ?length_app; simpl;
  rewrite <- ?app_assoc; unfold shiftNode, shiftTarget; simpl; repeat f_equal; lia.

Lemma relocatesInWalk_playNote f t d ty b vol :
  relocatesInWalk (fun ctx => fst (playNote f t d ty (ToBus b) vol ctx)).
Proof. unfold playNote. relocated. Qed.

Lemma relocatesInWalk_playKick t v b :
  relocatesInWalk (fun ctx => fst (playKick t v (ToBus b) true ctx)).
Proof. unfold playKick, triggerSidechain. relocated. Qed.

Lemma relocatesInWalk_playSnare t v b :
  relocatesInWalk (fun ctx => fst (playSnare t v (ToBus b) ctx)).
Proof. unfold playSnare. relocated. Qed.

Lemma relocatesInWalk_playHiHat t v b :
  relocatesInWalk (fun ctx => fst (playHiHat t v (ToBus b) ctx)).
Proof. unfold playHiHat. relocated. Qed.

Lemma relocatesInWalk_playVocals t :
  relocatesInWalk (fun ctx => context (playVocals t (mkWalk t ctx []))).
Proof. unfold playVocals. relocated. Qed.

(** Where the source at [id] enters the master chain: a kick, snare or
    hi-hat at the compressor, a note at the music bus, the vocal source
    at the compressor, through the main gain, and twice at the reverb,
    through the two delays of the side chain.  The walk has no crash and
    no woodblock. *)
Definition entersWalkAt (heap : list AudioNode) (id : nat) (n : AudioNode) : Prop :=
  isSource n = true ->
  match voice n with
  | Kick | Snare | HiHat => entries maxHops heap (ToNode id) = Some [MasterCompressor]
  | Note _ => entries maxHops heap (ToNode id) = Some [MusicBus]
  | Vocal => entries maxHops heap (ToNode id)
             = Some [MasterCompressor; ReverbNode; ReverbNode]
  | Crash | Woodblock => False
  end.

Definition wiredWalk (base : nat) (ctx : Context) : Prop :=
  forall id n, nodes ctx !! id = Some n -> (base <= id)%nat ->
               entersWalkAt (nodes ctx) id n.

Lemma wiredWalk_voice base play ctx :
  relocatesInWalk play ->
  (forall k n, nodes (play newContext) !! k = Some n ->
               entersWalkAt (nodes (play newContext)) k n) ->
  wiredWalk base ctx -> wiredWalk base (play ctx).
Proof.
  intros Hrel Hblk Hc id n. rewrite (Hrel ctx). intros Hl Hid.
  apply lookup_app_Some in Hl as [Hl|[Hge Hl]].
  - specialize (Hc id n Hl Hid). unfold entersWalkAt in *. intros Hs. specialize (Hc Hs).
    destruct (voice n); first [now apply entries_app | exact Hc].
  - rewrite lookup_map in Hl.
    destruct (nodes (play newContext) !! (id - length (nodes ctx))%nat) as [n0|] eqn:E;
      [|discriminate Hl].
    injection Hl as <-. specialize (Hblk _ _ E). unfold entersWalkAt in *.
    intros Hs. specialize (Hblk Hs). cbn [voice shiftNode].
    assert (Hid' : ToNode id = shiftTarget (length (nodes ctx))
                                           (ToNode (id - length (nodes ctx))))
      by (simpl; f_equal; lia).
    rewrite Hid'.
    destruct (voice n0); first [now apply entries_block | exact Hblk].
Qed.

Ltac block_check :=
  let k := fresh "k" in let n := fresh "n" in
  let Hk := fresh "Hk" in let Hs := fresh "Hs" in
  intros k n Hk Hs;
  repeat (destruct k as [|k];
          [ simpl in Hk; injection Hk as <-;
            first [ discriminate Hs | reflexivity ]
          | simpl in Hk ]);
  rewrite ?lookup_nil in Hk; discriminate Hk.

(** A property of the context that the voices keep is kept by the walk. *)
Section KeptByWalk.
Variable Inv : Context -> Prop.
Hypothesis Inv_playNote :
  forall f t d ty vol ctx,
    Inv ctx -> Inv (fst (playNote f t d ty (ToBus MusicBus) vol ctx)).
Hypothesis Inv_playKick :
  forall t v ctx, Inv ctx -> Inv (fst (playKick t v (ToBus MasterCompressor) true ctx)).
Hypothesis Inv_playSnare :
  forall t v ctx, Inv ctx -> Inv (fst (playSnare t v (ToBus MasterCompressor) ctx)).
Hypothesis Inv_playHiHat :
  forall t v ctx, Inv ctx -> Inv (fst (playHiHat t v (ToBus MasterCompressor) ctx)).
Hypothesis Inv_playVocals :
  forall t ctx, Inv ctx -> Inv (context (playVocals t (mkWalk t ctx []))).

Lemma kept_pushed play w :
  (forall ctx, Inv ctx -> Inv (fst (play ctx))) ->
  Inv (context w) -> Inv (context (pushed play w)).
Proof using Type.
  intros Hp Hw. unfold pushed. specialize (Hp (context w) Hw).
  now destruct (play (context w)).
Qed.

Lemma kept_foldl {A} (f : Walk -> A -> Walk) (l : list A) w :
  (forall x w, Inv (context w) -> Inv (context (f w x))) ->
  Inv (context w) -> Inv (context (foldl f w l)).
Proof using Type.
  intros Hf. revert w. induction l as [|x l IH]; intros w Hw; simpl; [assumption|].
  now apply IH, Hf.
Qed.

Lemma kept_renderChord dur c w :
  Inv (context w) -> Inv (context (renderChord dur c w)).
Proof using Inv_playNote Inv_playKick Inv_playSnare Inv_playHiHat.
  intros Hw. unfold renderChord.
  assert (Hm : forall w', Inv (context w') ->
                          Inv (context (mkWalk (cursor w' + dur) (context w') (handles w'))))
    by (intros w' H; exact H).
  destruct (0 <? length (getChordFrequencies_offline c))%nat; apply Hm; [|assumption].
  apply kept_foldl; [intros i w' Hw'; apply kept_pushed;
                     [intros ctx; apply Inv_playHiHat|exact Hw']|].
  apply kept_pushed; [intros ctx; apply Inv_playSnare|].
  apply kept_pushed; [intros ctx; apply Inv_playKick|].
  apply kept_pushed; [intros ctx; apply Inv_playNote|].
  apply kept_foldl; [|exact Hw].
  intros f w' Hw'. apply kept_pushed; [intros ctx; apply Inv_playNote|exact Hw'].
Qed.

Lemma kept_renderMusicToContext ctx song hasVocal startTime :
  Inv ctx -> Inv (rendered (renderMusicToContext ctx song hasVocal startTime)).
Proof using All.
  intros H. unfold renderMusicToContext. cbn [rendered].
  apply kept_foldl.
  - intros section w Hw. unfold renderSection. apply kept_foldl; [|exact Hw].
    intros cl w1 Hw1. unfold renderChordLine. apply kept_foldl; [|exact Hw1].
    intros c w2 Hw2. now apply kept_renderChord.
  - destruct hasVocal; [|exact H]. now apply Inv_playVocals.
Qed.
End KeptByWalk.

Lemma wiredWalk_renderMusicToContext ctx song hasVocal startTime :
  wiredWalk (length (nodes ctx))
            (rendered (renderMusicToContext ctx song hasVocal startTime)).
Proof.
  apply (kept_renderMusicToContext (wiredWalk (length (nodes ctx)))).
  - intros f t d ty vol c Hc.
    apply (wiredWalk_voice _ _ _ (relocatesInWalk_playNote f t d ty MusicBus vol)); [|exact Hc].
    unfold playNote. block_check.
  - intros t v c Hc.
    apply (wiredWalk_voice _ _ _ (relocatesInWalk_playKick t v MasterCompressor)); [|exact Hc].
    unfold playKick, triggerSidechain. block_check.
  - intros t v c Hc.
    apply (wiredWalk_voice _ _ _ (relocatesInWalk_playSnare t v MasterCompressor)); [|exact Hc].
    unfold playSnare. block_check.
  - intros t v c Hc.
    apply (wiredWalk_voice _ _ _ (relocatesInWalk_playHiHat t v MasterCompressor)); [|exact Hc].
    unfold playHiHat. block_check.
  - intros t c Hc.
    apply (wiredWalk_voice _ _ _ (relocatesInWalk_playVocals t)); [|exact Hc].
    unfold playVocals. block_check.
  - intros id n Hl Hid. apply lookup_lt_Some in Hl. lia.
Qed.

(** With a positive tempo the walk returns, and it has connected every
    source it created to the master chain: the source of a kick, a snare
    or a hi-hat to the compressor and to no other stage, the source of a
    note to the music bus, the vocal source to the compressor through
    the main gain and to the reverb through the two delays of the side
    gain.  No node of a drum voice has a connection to another stage
    than the compressor and no node of a note to another than the music
    bus; no crash and no woodblock is created; and the gain of the music
    bus is automated by the kicks and by nothing else, with the two
    events of a ducking to one half at the time of each kick. *)
Theorem walk_routes_and_ducks (ctx : Context) (song : Song) (hasVocal : bool)
        (startTime : Q) :
  (0 < bpmOf (tempo song))%Z -> 0 <= startTime ->
  exists r new,
    Exceptions.renderMusicToContext ctx song hasVocal startTime = Exceptions.Returned r
    /\ nodes (rendered r) = nodes ctx ++ new
    /\ (forall id n,
          nodes (rendered r) !! id = Some n -> (length (nodes ctx) <= id)%nat ->
          isSource n = true ->
          match voice n with
          | Kick | Snare | HiHat =>
              entries maxHops (nodes (rendered r)) (ToNode id) = Some [MasterCompressor]
          | Note _ => entries maxHops (nodes (rendered r)) (ToNode id) = Some [MusicBus]
          | Vocal => entries maxHops (nodes (rendered r)) (ToNode id)
                     = Some [MasterCompressor; ReverbNode; ReverbNode]
          | Crash | Woodblock => False
          end)
    /\ (forall n, In n new ->
          voice n <> Crash /\ voice n <> Woodblock
          /\ forall b, In (ToBus b) (outputs n) ->
               match voice n with
               | Kick | Snare | HiHat => b = MasterCompressor
               | Note _ => b = MusicBus
               | _ => b = MasterCompressor \/ b = ReverbNode
               end)
    /\ musicBusGain (rendered r)
       = musicBusGain ctx ++ flat_map duck (AudioEngineFacts.triggers Kick new).
Proof.
  intros Hb Hs.
  exists (renderMusicToContext ctx song hasVocal startTime).
  assert (H : ducks ctx (rendered (renderMusicToContext ctx song hasVocal startTime))).
  { apply (kept_renderMusicToContext (ducks ctx)).
    - intros f t d ty vol c Hc. eapply ducks_trans; [exact Hc|apply ducks_playNote].
    - intros t v c Hc. eapply ducks_trans; [exact Hc|apply ducks_playKick].
    - intros t v c Hc. eapply ducks_trans; [exact Hc|apply ducks_playSnare].
    - intros t v c Hc. eapply ducks_trans; [exact Hc|apply ducks_playHiHat].
    - intros t c Hc. eapply ducks_trans; [exact Hc|].
      unfold playVocals. cbn [context]. ducks_voice.
    - apply ducks_refl. }
  destruct H as (new & Hn & Hp & Hg). exists new.
  split; [now apply ExceptionFacts.renderMusicToContext_returns|].
  split; [exact Hn|]. split; [|split; [|exact Hg]].
  - intros id n Hl Hid Hsrc.
    exact (wiredWalk_renderMusicToContext ctx song hasVocal startTime id n Hl Hid Hsrc).
  - intros n Hin. rewrite List.Forall_forall in Hp. exact (Hp n Hin).
Qed.

Lemma walk_routes_and_ducks_witness :
  exists r new,
    Exceptions.renderMusicToContext newContext (oneLineSong "100" ["Am F"]) true 0
    = Exceptions.Returned r
    /\ nodes (rendered r) = nodes newContext ++ new
    /\ musicBusGain (rendered r)
       = musicBusGain newContext ++ flat_map duck (AudioEngineFacts.triggers Kick new).
Proof.
  destruct (walk_routes_and_ducks newContext (oneLineSong "100" ["Am F"]) true 0
              eq_refl (Qle_refl 0))
    as (r & new & E & Hn & _ & _ & Hg).
  exists r, new. split; [exact E|]. split; [exact Hn|exact Hg].
Defined.

End SharedWalkFacts.

(* ================================================================== *)
(** * The vocal track: from PCM bytes to samples and back *)
(* ================================================================== *)

Module VocalFacts.
Import WebAudio GeminiService Wav WavFacts.
Local Open Scope Z_scope.

Definition byte (b : Z) : Prop := 0 <= b < 256.

Lemma nth_byte (data : list Z) (i : nat) :
  Forall byte data -> byte (nth i data 0).
Proof.
  intros H. revert i. induction H as [|b l Hb Hl IH]; intros [|i]; simpl;
    try (unfold byte; lia); [assumption|apply IH].
Qed.

Lemma int16At_range (data : list Z) (k : nat) :
  Forall byte data -> -32768 <= int16At data k <= 32767.
Proof.
  intros H. unfold int16At.
  pose proof (nth_byte data (2 * k) H) as H0.
  pose proof (nth_byte data (2 * k + 1) H) as H1. unfold byte in *.
  destruct (Z.ltb_spec (nth (2 * k) data 0 + 256 * nth (2 * k + 1) data 0) 32768); lia.
Qed.

Lemma nth_map_seq {A} (f : nat -> A) (n i : nat) (d : A) :
  (i < n)%nat -> nth i (List.map f (seq 0 n)) d = f i.
Proof.
  intros Hi. rewrite (nth_indep _ d (f 0%nat)) by now rewrite length_map, length_seq.
  rewrite (map_nth f (seq 0 n) 0%nat i), seq_nth by assumption. reflexivity.
Qed.

(** ** The decoder *)

(** The buffer that [decodeAudioData] returns when it returns. *)
Lemma decodeAudioData_some (data : list Z) (sampleRate : Z) (numChannels : nat)
      (buffer : AudioBuffer.t) :
  decodeAudioData data sampleRate numChannels = Some buffer ->
  (length data mod 2 = 0 /\ numChannels <> 0 /\ length data / 2 / numChannels <> 0)%nat
  /\ buffer
     = {| AudioBuffer.numberOfChannels := numChannels;
          AudioBuffer.length := (length data / 2 / numChannels)%nat;
          AudioBuffer.sampleRate := sampleRate;
          AudioBuffer.channelData :=
            List.map (fun channel =>
                        List.map (fun i =>
                                    (inject_Z (int16At data (i * numChannels + channel))
                                     / 32768)%Q)
                                 (seq 0 (length data / 2 / numChannels)))
                     (seq 0 numChannels) |}.
Proof.
  unfold decodeAudioData.
  destruct (Nat.eqb_spec (length data mod 2) 0); cbn [negb orb];
    [|intros H; discriminate H].
  destruct (Nat.eqb_spec numChannels 0); cbn [negb orb];
    [intros H; discriminate H|].
  destruct (Nat.eqb_spec (length data / 2 / numChannels) 0); cbn [negb orb];
    [intros H; discriminate H|].
  intros [= <-]. now repeat split.
Qed.

Lemma decoded_sampleAt (data : list Z) (sampleRate : Z) (numChannels : nat)
      (buffer : AudioBuffer.t) :
  decodeAudioData data sampleRate numChannels = Some buffer ->
  forall frame ch,
  (frame < length data / 2 / numChannels)%nat -> (ch < numChannels)%nat ->
  sampleAt (AudioBuffer.channelData buffer) ch frame
  = (inject_Z (int16At data (frame * numChannels + ch)) / 32768)%Q.
Proof.
  intros Hd frame ch Hframe Hch. apply decodeAudioData_some in Hd as [_ ->].
  unfold sampleAt. cbn [AudioBuffer.channelData].
  rewrite (nth_map_seq _ numChannels ch) by assumption.
  now rewrite (nth_map_seq _ _ frame) by assumption.
Qed.

(** Channel counts and sample rates that [createBuffer] does not
    support left aside, [decodeAudioData] throws exactly on a buffer
    with an odd number of bytes, for no channel, and for fewer samples
    than channels (no frame).  Otherwise it returns a buffer of the channel count and rate
    asked for, with as many frames as whole groups of [numChannels]
    16-bit samples fit the bytes; each channel holds one sample per
    frame, the sample of frame [i] being the [i * numChannels + channel]-th
    16-bit integer divided by 32768, which lies between -1 and
    32767/32768. *)
Theorem decodeAudioData_frames (data : list Z) (sampleRate : Z) (numChannels : nat) :
  (decodeAudioData data sampleRate numChannels = None
   <-> (length data mod 2 = 1 \/ numChannels = 0
        \/ length data / 2 < numChannels)%nat)
  /\ forall buffer,
      decodeAudioData data sampleRate numChannels = Some buffer ->
      AudioBuffer.numberOfChannels buffer = numChannels
      /\ AudioBuffer.length buffer = (length data / 2 / numChannels)%nat
      /\ AudioBuffer.sampleRate buffer = sampleRate
      /\ length (AudioBuffer.channelData buffer) = numChannels
      /\ Forall (fun ch => length ch = AudioBuffer.length buffer)
                (AudioBuffer.channelData buffer)
      /\ (forall frame ch,
            (frame < AudioBuffer.length buffer)%nat -> (ch < numChannels)%nat ->
            sampleAt (AudioBuffer.channelData buffer) ch frame
            = (inject_Z (int16At data (frame * numChannels + ch)) / 32768)%Q)
      /\ (Forall byte data ->
          Forall (Forall (fun x => (-1 <= x <= 32767 # 32768)%Q))
                 (AudioBuffer.channelData buffer)).
Proof.
  split.
  - unfold decodeAudioData.
    destruct (Nat.eqb_spec (length data mod 2) 0) as [He|He]; cbn [negb orb].
    2: { split; [intros _|reflexivity].
         left. pose proof (Nat.mod_upper_bound (length data) 2). lia. }
    destruct (Nat.eqb_spec numChannels 0) as [Hn|Hn]; cbn [negb orb].
    { split; [intros _; tauto|reflexivity]. }
    destruct (Nat.eqb_spec (length data / 2 / numChannels) 0) as [Hf|Hf]; cbn [negb orb].
    { split; [intros _|reflexivity].
      right; right. apply Nat.div_small_iff in Hf; [exact Hf|exact Hn]. }
    split; [intros H; discriminate H|]. intros [H|[H|H]]; [lia|lia|].
    apply Nat.div_small_iff in H; [contradiction|exact Hn].
  - intros buffer Hd. pose proof (decoded_sampleAt _ _ _ _ Hd) as Hs.
    apply decodeAudioData_some in Hd as [_ ->].
    cbn [AudioBuffer.numberOfChannels AudioBuffer.length
         AudioBuffer.sampleRate AudioBuffer.channelData] in *.
    repeat split.
    + now rewrite length_map, length_seq.
    + apply List.Forall_forall. intros ch Hch. apply in_map_iff in Hch as (c & <- & _).
      now rewrite length_map, length_seq.
    + intros frame ch. apply Hs.
    + intros Hb. apply List.Forall_forall. intros ch Hch.
      apply in_map_iff in Hch as (c & <- & _).
      apply List.Forall_forall. intros x Hx. apply in_map_iff in Hx as (i & <- & _).
      pose proof (int16At_range data (i * numChannels + c) Hb) as [Hlo Hhi].
      rewrite Zle_Qle in Hlo, Hhi.
      change (inject_Z (-32768)) with (-32768)%Q in Hlo.
      change (inject_Z 32767) with 32767%Q in Hhi.
      unfold Qdiv. change (/ 32768)%Q with (1 # 32768)%Q. split; lra.
Qed.

Lemma length_list_ascii (s : string) :
  length (list_ascii_of_string s) = String.length s.
Proof. induction s as [|c s IH]; simpl; congruence. Qed.

(** The bytes that [decode] hands to the decoder. *)
Lemma decode_bytes (atob : string -> option string) (base64 : string) (data : list Z) :
  decode atob base64 = Some data ->
  Forall byte data
  /\ exists binaryString,
      atob base64 = Some binaryString /\ length data = String.length binaryString.
Proof.
  unfold decode. destruct (atob base64) as [bin|]; [|intros H; discriminate H].
  intros [= <-]. split.
  - apply List.Forall_forall. intros b Hb. apply in_map_iff in Hb as (c & <- & _).
    unfold byte, JS.code. pose proof (N_ascii_bounded c). lia.
  - exists bin. split; [reflexivity|]. now rewrite length_map, length_list_ascii.
Qed.

(** The vocal track of [generateTTSAudio]: one channel at 24000 Hz with
    a frame for every two characters of the decoded text, every sample
    between -1 and 32767/32768; there is no track when the text cannot
    be decoded, is empty or has an odd length. *)
Theorem decodeVocal_track (atob : string -> option string) (base64Audio : string) :
  (forall buffer,
      decodeVocal atob base64Audio = Some buffer ->
      exists binaryString,
        atob base64Audio = Some binaryString
        /\ AudioBuffer.numberOfChannels buffer = 1%nat
        /\ AudioBuffer.sampleRate buffer = 24000
        /\ (2 * AudioBuffer.length buffer)%nat = String.length binaryString
        /\ AudioBuffer.length buffer <> 0%nat
        /\ Forall (Forall (fun x => (-1 <= x <= 32767 # 32768)%Q))
                  (AudioBuffer.channelData buffer))
  /\ (decodeVocal atob base64Audio = None
      <-> match atob base64Audio with
          | None => True
          | Some binaryString =>
              (String.length binaryString mod 2 = 1
               \/ String.length binaryString = 0)%nat
          end).
Proof.
  unfold decodeVocal. split.
  - intros buffer H. destruct (decode atob base64Audio) as [data|] eqn:Ed;
      [|discriminate H].
    destruct (decode_bytes _ _ _ Ed) as (Hb & bin & Ha & Hl).
    destruct (decodeAudioData_some _ _ _ _ H) as [(Heven & _ & Hf) ->].
    exists bin. split; [exact Ha|].
    cbn [AudioBuffer.numberOfChannels AudioBuffer.length AudioBuffer.sampleRate
         AudioBuffer.channelData].
    rewrite Nat.div_1_r in *. repeat split; try assumption.
    + rewrite <- Hl. pose proof (Nat.div_mod_eq (length data) 2). lia.
    + apply List.Forall_forall. intros ch Hch.
      apply in_map_iff in Hch as (c & <- & _).
      apply List.Forall_forall. intros x Hx. apply in_map_iff in Hx as (i & <- & _).
      pose proof (int16At_range data (i * 1 + c) Hb) as [Hlo Hhi].
      rewrite Zle_Qle in Hlo, Hhi.
      change (inject_Z (-32768)) with (-32768)%Q in Hlo.
      change (inject_Z 32767) with 32767%Q in Hhi.
      unfold Qdiv. change (/ 32768)%Q with (1 # 32768)%Q. split; lra.
  - unfold decode. destruct (atob base64Audio) as [bin|]; [|tauto].
    set (data := List.map _ _).
    assert (Hl : length data = String.length bin)
      by (unfold data; now rewrite length_map, length_list_ascii).
    rewrite <- Hl. unfold decodeAudioData.
    destruct (Nat.eqb_spec (length data mod 2) 0) as [He|He]; cbn [negb orb].
    2: { split; [intros _|reflexivity].
         left. pose proof (Nat.mod_upper_bound (length data) 2). lia. }
    rewrite Nat.div_1_r.
    destruct (Nat.eqb_spec (length data / 2) 0) as [Hf|Hf]; cbn [negb orb].
    + split; [intros _|reflexivity]. right.
      pose proof (Nat.div_mod_eq (length data) 2). lia.
    + split; [intros H; discriminate H|]. intros [H|H]; [lia|].
      rewrite H in Hf. now contradiction Hf.
Qed.

Lemma decodeVocal_track_witness :
  exists buffer,
    decodeVocal (fun _ => Some "abcd") "YWJjZA==" = Some buffer
    /\ (2 * AudioBuffer.length buffer)%nat = 4%nat
    /\ decodeVocal (fun _ => Some "abc") "YWJj" = None.
Proof.
  destruct (decodeVocal (fun _ => Some "abcd") "YWJjZA==") as [buffer|] eqn:E;
    [|vm_compute in E; discriminate E].
  exists buffer. split; [reflexivity|].
  destruct (proj1 (decodeVocal_track (fun _ => Some "abcd") "YWJjZA==") buffer E)
    as (bin & Ha & _ & _ & Hl & _).
  injection Ha as <-. split; [exact Hl|].
  apply (proj2 (decodeVocal_track (fun _ => Some "abc") "YWJj")). left. reflexivity.
Defined.

Lemma decodeAudioData_frames_witness :
  exists buffer,
    decodeAudioData [0; 128; 255; 127; 1; 0; 255; 255] 24000 1 = Some buffer
    /\ AudioBuffer.length buffer = 4%nat
    /\ decodeAudioData [0; 128; 255] 24000 1 = None.
Proof.
  destruct (decodeAudioData_frames [0; 128; 255; 127; 1; 0; 255; 255] 24000 1)
    as [_ H].
  destruct (decodeAudioData_frames [0; 128; 255] 24000 1) as [[_ Hnone] _].
  eexists. split; [reflexivity|]. split.
  - exact (proj1 (proj2 (H _ eq_refl))).
  - apply Hnone. left. reflexivity.
Defined.

(** ** From the decoder to the encoder *)

Lemma truncate_quot (a : Z) (b : positive) : truncate (a # b) = Z.quot a (Z.pos b).
Proof. reflexivity. Qed.

(** What the encoder writes for a sample that the decoder produced from
    the 16-bit integer [x]. *)
Lemma reencoded_sample (x : Z) :
  -32768 <= x <= 32767 ->
  truncate (scale (clamp (inject_Z x / 32768)%Q)) = if 0 <? x then x - 1 else x.
Proof.
  intros [Hlo Hhi].
  assert (Hq : (inject_Z x / 32768 == inject_Z x * (1 # 32768))%Q) by reflexivity.
  assert (Hlo' := Hlo). assert (Hhi' := Hhi). rewrite Zle_Qle in Hlo', Hhi'.
  change (inject_Z (-32768)) with (-32768)%Q in Hlo'.
  change (inject_Z 32767) with 32767%Q in Hhi'.
  unfold clamp.
  destruct (Qltb (inject_Z x / 32768) 1) eqn:E1.
  2: { apply AudioEngineFacts.Qltb_ge in E1. rewrite Hq in E1. lra. }
  destruct (Qltb (inject_Z x / 32768) (-1)) eqn:E2.
  1: { apply AudioEngineFacts.Qltb_lt in E2. rewrite Hq in E2. lra. }
  unfold scale.
  destruct (Qltb (inject_Z x / 32768) 0) eqn:E0.
  - apply AudioEngineFacts.Qltb_lt in E0. rewrite Hq in E0.
    assert (Hx : x < 0).
    { apply Z.lt_nge. intros H0. rewrite Zle_Qle in H0. change (inject_Z 0) with 0%Q in H0.
      lra. }
    destruct (Z.ltb_spec 0 x); [lia|].
    unfold truncate, Qdiv, Qmult, Qinv, inject_Z. simpl.
    rewrite Z.mul_1_r. change (Z.pos (32768 * 1)) with 32768.
    Z.quot_rem_to_equations. lia.
  - apply AudioEngineFacts.Qltb_ge in E0. rewrite Hq in E0.
    assert (Hx : 0 <= x).
    { apply Z.le_ngt. intros H0. rewrite Zlt_Qlt in H0. change (inject_Z 0) with 0%Q in H0.
      lra. }
    unfold truncate, Qdiv, Qmult, Qinv, inject_Z. simpl.
    rewrite Z.mul_1_r. change (Z.pos (32768 * 1)) with 32768.
    destruct (Z.ltb_spec 0 x); Z.quot_rem_to_equations; lia.
Qed.

(** A vocal track that is decoded and then encoded as a WAV file keeps
    its frames and the place of every sample; a sample that is zero or
    negative keeps its value, a positive one loses one unit (the encoder
    scales the positive samples by 32767, the decoder divides by
    32768). *)
Theorem decoded_vocal_reencoded (data : list Z) (sampleRate : Z) (numChannels : nat)
        (buffer : AudioBuffer.t) :
  Forall byte data ->
  decodeAudioData data sampleRate numChannels = Some buffer ->
  exists file,
    audioBufferToWav buffer = Some file
    /\ length file = (44 + 2 * numChannels * (length data / 2 / numChannels))%nat
    /\ forall frame ch,
        (frame < length data / 2 / numChannels)%nat -> (ch < numChannels)%nat ->
        let x := int16At data (frame * numChannels + ch) in
        i16At file (44 + 2 * (frame * numChannels + ch))
        = if 0 <? x then x - 1 else x.
Proof.
  intros Hb Hd.
  pose proof (decoded_sampleAt _ _ _ _ Hd) as Hs.
  destruct (decodeAudioData_some _ _ _ _ Hd) as [_ Hbuf].
  assert (Hn : AudioBuffer.numberOfChannels buffer = numChannels) by now rewrite Hbuf.
  assert (Hl : AudioBuffer.length buffer = (length data / 2 / numChannels)%nat)
    by now rewrite Hbuf.
  rewrite audioBufferToWav_bytes. eexists. split; [reflexivity|].
  split.
  - rewrite length_app, length_header, length_sampleData, Hn, Hl. reflexivity.
  - intros frame ch Hf Hc x.
    rewrite i16At_drop, drop_app_add' by reflexivity.
    destruct (sample_bytes buffer frame ch) as (rest & E);
      [now rewrite Hl|now rewrite Hn|].
    rewrite Hn in E. rewrite E. rewrite Hs by assumption.
    rewrite i16_littleEndian.
    + apply reencoded_sample, int16At_range, Hb.
    + apply sample_fits, clamp_bounds.
Qed.

Lemma decoded_vocal_reencoded_witness :
  exists buffer file,
    decodeAudioData [0; 128; 255; 127; 1; 0; 255; 255] 24000 1 = Some buffer
    /\ audioBufferToWav buffer = Some file
    /\ List.map (fun k => i16At file (44 + 2 * k)) [0; 1; 2; 3]%nat
       = [-32768; 32766; 0; -1].
Proof.
  assert (Hb : Forall byte [0; 128; 255; 127; 1; 0; 255; 255])
    by (repeat constructor; unfold byte; lia).
  destruct (decodeAudioData [0; 128; 255; 127; 1; 0; 255; 255] 24000 1)
    as [buffer|] eqn:Hd; [|discriminate Hd].
  destruct (decoded_vocal_reencoded _ _ _ buffer Hb Hd) as (file & Hf & _ & Hs).
  exists buffer, file. split; [reflexivity|]. split; [exact Hf|].
  cbn [List.map].
  change (44 + 2 * 0)%nat with (44 + 2 * (0 * 1 + 0))%nat.
  change (44 + 2 * 1)%nat with (44 + 2 * (1 * 1 + 0))%nat.
  change (44 + 2 * 2)%nat with (44 + 2 * (2 * 1 + 0))%nat.
  change (44 + 2 * 3)%nat with (44 + 2 * (3 * 1 + 0))%nat.
  rewrite (Hs 0%nat 0%nat), (Hs 1%nat 0%nat), (Hs 2%nat 0%nat), (Hs 3%nat 0%nat)
    by (vm_compute; lia).
  reflexivity.
Defined.

(** ** The accuracy of the encoder *)

Lemma truncate_toward_zero (q : Q) :
  ((0 <= q -> inject_Z (truncate q) <= q /\ q < inject_Z (truncate q) + 1
               /\ 0 <= inject_Z (truncate q))
   /\ (q <= 0 -> q <= inject_Z (truncate q) /\ inject_Z (truncate q) - 1 < q
                  /\ inject_Z (truncate q) <= 0))%Q.
Proof.
  destruct q as [a b]. unfold truncate, Qle, Qlt. simpl.
  assert (Hb : 0 < Z.pos b) by lia.
  split; intros Ha; rewrite Z.mul_1_r in Ha; repeat split;
    Z.quot_rem_to_equations; nia.
Qed.

(** A sample that is encoded and then read back as the decoder reads
    (the 16-bit integer divided by 32768) is never larger in magnitude
    than the clamped sample, and differs from it by less than 1/32768
    for a negative sample and by less than 1/16384 for the others. *)
Theorem encoded_sample_rounds_toward_zero (sample : Q) :
  let x := clamp sample in
  let decoded := (inject_Z (truncate (scale x)) / 32768)%Q in
  ((x < 0 -> x <= decoded /\ decoded < x + (1 # 32768) /\ decoded <= 0)
   /\ (0 <= x -> x - (1 # 16384) < decoded /\ decoded <= x /\ 0 <= decoded))%Q.
Proof.
  intros x decoded. pose proof (clamp_bounds sample) as [Hlo Hhi]. fold x in Hlo, Hhi.
  unfold decoded, scale.
  assert (Hd : forall t, (inject_Z t / 32768 == inject_Z t * (1 # 32768))%Q)
    by (intros t; reflexivity).
  rewrite Hd. split; intros Hx.
  - destruct (Qltb x 0) eqn:E0;
      [|apply AudioEngineFacts.Qltb_ge in E0; lra].
    destruct (truncate_toward_zero (x * 0x8000)) as [_ H].
    change (0x8000)%Q with 32768%Q in *.
    destruct H as (H1 & H2 & H3); [lra|]. repeat split; lra.
  - destruct (Qltb x 0) eqn:E0;
      [apply AudioEngineFacts.Qltb_lt in E0; lra|].
    destruct (truncate_toward_zero (x * 0x7FFF)) as [H _].
    change (0x7FFF)%Q with 32767%Q in *.
    destruct H as (H1 & H2 & H3); [lra|]. repeat split; lra.
Qed.

End VocalFacts.

(* ================================================================== *)
(** * The song card: lyrics, file name and clock *)
(* ================================================================== *)

Module SongCardFacts.
Import SongCard.

(** ** The lyrics handed to the player *)

Lemma append_empty (a b : string) : (a ++ b)%string = "" -> a = "" /\ b = "".
Proof. destruct a; simpl; [now split|discriminate]. Qed.

Lemma length_zero (s : string) : (0 <? String.length s)%nat = false <-> s = "".
Proof. destruct s; simpl; split; intros H; try reflexivity; discriminate H. Qed.

(** A joined list is empty only for no string and for the one empty
    string. *)
Lemma join_empty (sep : string) (l : list string) :
  sep <> "" -> join sep l = "" <-> l = [] \/ l = [""].
Proof.
  intros Hsep. split.
  - destruct l as [|x [|y l]]; simpl; intros H.
    + now left.
    + right. now rewrite H.
    + apply append_empty in H as [_ H]. apply append_empty in H as [H _]. contradiction.
  - intros [-> | ->]; reflexivity.
Qed.

Lemma join_nonempty (sep : string) (l : list string) :
  Forall (fun s => s <> "") l -> join sep l = "" -> l = [].
Proof.
  intros Hl. destruct l as [|x [|y l]]; simpl; intros H; [reflexivity| |].
  - apply Forall_cons_1 in Hl as [Hx _]. contradiction.
  - apply append_empty in H as [H _]. apply Forall_cons_1 in Hl as [Hx _]. contradiction.
Qed.

Lemma filter_none {A} (f : A -> bool) (l : list A) :
  (forall x, In x l -> f x = false) -> List.filter f l = [].
Proof.
  induction l as [|x l IH]; intros H; simpl; [reflexivity|].
  rewrite (H x) by now left. apply IH. intros y Hy. apply H. now right.
Qed.

(** The text for which the card disables its two buttons: [fullLyrics]
    is empty exactly when every section has no lyric line or the one
    empty line.  (Two empty lines already give a line break, and the
    buttons stay enabled.) *)
Theorem fullLyrics_empty (song : Song) :
  fullLyrics song = ""
  <-> forall section, In section (sections song) ->
                      lyrics section = [] \/ lyrics section = [""].
Proof.
  unfold fullLyrics.
  set (keep := fun l : string => (0 <? String.length l)%nat).
  set (texts := List.map (fun s => join newline (lyrics s)) (sections song)).
  assert (Hkept : Forall (fun s => s <> "") (List.filter keep texts)).
  { apply List.Forall_forall. intros s Hs. apply filter_In in Hs as [_ Hs].
    intros ->. discriminate Hs. }
  assert (Hnl : newline <> "") by discriminate.
  split.
  - intros H section Hin. apply (join_nonempty _ _ Hkept) in H.
    apply (join_empty newline); [exact Hnl|]. apply length_zero.
    destruct (keep (join newline (lyrics section))) eqn:E; [|exact E].
    assert (Hf : In (join newline (lyrics section)) (List.filter keep texts)).
    { apply filter_In. split; [|exact E]. unfold texts.
      apply in_map_iff. now exists section. }
    rewrite H in Hf. contradiction.
  - intros H.
    assert (Hnone : List.filter keep texts = []).
    { apply filter_none.
      intros s Hs. unfold texts in Hs. apply in_map_iff in Hs as (section & <- & Hin).
      apply length_zero, (join_empty newline); [exact Hnl|].
      now apply H. }
    now rewrite Hnone.
Qed.

Lemma fullLyrics_empty_witness :
  fullLyrics {| title := "Demo"; genre := pop; artistStyle := ""; tempo := "120";
                key := "C"; description := "";
                sections := [ {| type := VERSE; lyrics := [""]; chords := ["C"] |};
                              {| type := CHORUS; lyrics := []; chords := ["G"] |} ] |}
  = "".
Proof.
  apply (proj2 (fullLyrics_empty _)). simpl. intros section [<-|[<-|[]]]; simpl; tauto.
Defined.

(** ** The name of the downloaded file *)

Definition noWhiteSpace (s : string) : bool :=
  JS.forallb_string (fun c => negb (JS.isWhiteSpace c)) s.

Lemma forallb_string_app (p : ascii -> bool) (a b : string) :
  JS.forallb_string p (a ++ b)%string = JS.forallb_string p a && JS.forallb_string p b.
Proof.
  induction a as [|c a IH]; simpl; [reflexivity|]. now rewrite IH, andb_assoc.
Qed.

Lemma replaceRuns_clean (sep : ascii -> bool) (repl s : string) (inRun : bool) :
  JS.forallb_string (fun c => negb (sep c)) repl = true ->
  JS.forallb_string (fun c => negb (sep c)) (replaceRuns sep repl s inRun) = true.
Proof.
  intros Hr. revert inRun. induction s as [|c s IH]; intros inRun; simpl; [reflexivity|].
  destruct (sep c) eqn:Ec.
  - destruct inRun; [apply IH|]. rewrite forallb_string_app, Hr. apply IH.
  - simpl. rewrite Ec. apply IH.
Qed.

Lemma replaceRuns_kept (sep : ascii -> bool) (repl s : string) (inRun : bool) :
  JS.forallb_string (fun c => negb (sep c)) s = true ->
  replaceRuns sep repl s inRun = s.
Proof.
  revert inRun. induction s as [|c s IH]; intros inRun; simpl; [reflexivity|].
  destruct (sep c); simpl; [discriminate|]. intros H. now rewrite IH.
Qed.

Lemma replaceRuns_length (sep : ascii -> bool) (c : ascii) (s : string) (inRun : bool) :
  (String.length (replaceRuns sep (String c "") s inRun) <= String.length s)%nat.
Proof.
  revert inRun. induction s as [|d s IH]; intros inRun; simpl; [lia|].
  pose proof (IH true). pose proof (IH false).
  destruct (sep d); [destruct inRun|]; simpl; lia.
Qed.

Lemma length_append (a b : string) :
  String.length (a ++ b)%string = (String.length a + String.length b)%nat.
Proof. induction a as [|c a IH]; simpl; [reflexivity|]. now rewrite IH. Qed.

(** The file name offered for the download holds no white space, is the
    title followed by [.wav] when the title holds none, and is never
    longer than that. *)
Theorem downloadName_has_no_white_space (song : Song) :
  noWhiteSpace (downloadName song) = true
  /\ (noWhiteSpace (title song) = true ->
      downloadName song = (title song ++ ".wav")%string)
  /\ (String.length (downloadName song) <= String.length (title song) + 4)%nat
  /\ exists stem, downloadName song = (stem ++ ".wav")%string.
Proof.
  unfold downloadName, noWhiteSpace. repeat split.
  - rewrite forallb_string_app, replaceRuns_clean; reflexivity.
  - intros H. now rewrite replaceRuns_kept.
  - rewrite length_append.
    pose proof (replaceRuns_length JS.isWhiteSpace "_" (title song) false). simpl. lia.
  - eexists. reflexivity.
Qed.

Lemma downloadName_has_no_white_space_witness :
  downloadName {| title := "Blue  moon rising"; genre := country; artistStyle := "";
                  tempo := "90"; key := "G"; description := ""; sections := [] |}
  = "Blue_moon_rising.wav"
  /\ downloadName {| title := "Nocturne"; genre := rnb; artistStyle := "";
                     tempo := "90"; key := "G"; description := ""; sections := [] |}
     = "Nocturne.wav".
Proof.
  split; [reflexivity|].
  apply (proj1 (proj2 (downloadName_has_no_white_space
                         {| title := "Nocturne"; genre := rnb; artistStyle := "";
                            tempo := "90"; key := "G"; description := "";
                            sections := [] |}))).
  reflexivity.
Defined.

(** ** The clock *)
Local Open Scope Z_scope.

Lemma Qfloor_frac (a : Z) (b : positive) : Qfloor (a # b) = a / Z.pos b.
Proof. reflexivity. Qed.








End SongCardFacts.

(* ================================================================== *)
(** * The chords of a chord line *)
(* ================================================================== *)

Module ChordLineFacts.

(** A string with its separator characters removed. *)
Fixpoint withoutSeparators (sep : ascii -> bool) (s : string) : string :=
  match s with
  | EmptyString => ""
  | String c s' =>
      if sep c then withoutSeparators sep s' else String c (withoutSeparators sep s')
  end.

Definition separatorFree (sep : ascii -> bool) (s : string) : bool :=
  JS.forallb_string (fun c => negb (sep c)) s.

Lemma separatorFree_app sep (a b : string) :
  separatorFree sep (a ++ b)%string = separatorFree sep a && separatorFree sep b.
Proof.
  unfold separatorFree. induction a as [|c a IH]; simpl; [reflexivity|].
  now rewrite IH, andb_assoc.
Qed.

Lemma append_nil_r (s : string) : (s ++ "")%string = s.
Proof. induction s as [|c s IH]; simpl; congruence. Qed.

Lemma append_assoc (a b c : string) : ((a ++ b) ++ c)%string = (a ++ b ++ c)%string.
Proof. induction a as [|x a IH]; simpl; congruence. Qed.

Lemma concat_nonEmpty (l : list string) :
  String.concat "" (JS.nonEmpty l) = String.concat "" l.
Proof.
  induction l as [|x l IH]; [reflexivity|].
  assert (Hc : forall y k, String.concat "" (y :: k) = (y ++ String.concat "" k)%string).
  { intros y [|z k]; simpl; [now rewrite append_nil_r|reflexivity]. }
  unfold JS.nonEmpty in *. simpl List.filter.
  destruct x as [|c x]; simpl negb; cbv iota.
  - rewrite IH, (Hc "" l). reflexivity.
  - rewrite !Hc, IH. reflexivity.
Qed.

Lemma splitRuns_pieces sep (s cur : string) (inSep : bool) :
  separatorFree sep cur = true ->
  Forall (fun p => separatorFree sep p = true) (JS.splitRuns sep s cur inSep)
  /\ String.concat "" (JS.splitRuns sep s cur inSep)
     = (cur ++ withoutSeparators sep s)%string.
Proof.
  assert (Hc : forall y k, String.concat "" (y :: k) = (y ++ String.concat "" k)%string).
  { intros y [|z k]; simpl; [now rewrite append_nil_r|reflexivity]. }
  revert cur inSep. induction s as [|c s IH]; intros cur inSep Hcur; simpl.
  - split; [now repeat constructor|now rewrite append_nil_r].
  - destruct (sep c) eqn:Ec.
    + destruct inSep.
      * apply IH, Hcur.
      * destruct (IH "" true eq_refl) as [H1 H2]. split; [now constructor|].
        rewrite Hc, H2. reflexivity.
    + destruct (IH (cur ++ String c "")%string false) as [H1 H2].
      { rewrite separatorFree_app, Hcur. unfold separatorFree. simpl. now rewrite Ec. }
      split; [exact H1|]. rewrite H2, append_assoc. reflexivity.
Qed.

Lemma concat_empty (l : list string) :
  Forall (fun p => p <> "") l -> String.concat "" l = "" -> l = [].
Proof.
  intros Hl. destruct l as [|x [|y l]]; simpl; intros H; [reflexivity| |].
  - apply Forall_cons_1 in Hl as [Hx _]. contradiction.
  - apply Forall_cons_1 in Hl as [Hx _]. destruct x; [contradiction|discriminate].
Qed.

Lemma withoutSeparators_empty sep (s : string) :
  withoutSeparators sep s = "" <-> JS.forallb_string sep s = true.
Proof.
  induction s as [|c s IH]; simpl; [tauto|].
  destruct (sep c); simpl; [exact IH|]. split; discriminate.
Qed.

(** A line gives no name exactly when it holds separators only. *)
Lemma names_none sep (s : string) :
  JS.nonEmpty (JS.split sep s) = [] <-> JS.forallb_string sep s = true.
Proof.
  unfold JS.split.
  destruct (splitRuns_pieces sep s "" false eq_refl) as [_ H2].
  change ("" ++ withoutSeparators sep s)%string with (withoutSeparators sep s) in H2.
  rewrite <- withoutSeparators_empty, <- H2, <- concat_nonEmpty. split.
  - now intros ->.
  - apply concat_empty, List.Forall_forall. intros c Hc.
    apply filter_In in Hc as [_ Hc]. intros ->. discriminate Hc.
Qed.

(** The chord names that the two engines read from a chord line, the
    live engine with white space and hyphens as separators, the shared
    walk with white space only: no name is empty, none holds a
    separator, put end to end they are the line without its separators,
    and there is none exactly when the line holds separators only. *)
Theorem chord_names_of_a_line (chordLine : string) :
  (Forall (fun c => c <> "" /\ separatorFree AudioEngine.isChordSeparator c = true)
          (AudioEngine.chordsInLine chordLine)
   /\ String.concat "" (AudioEngine.chordsInLine chordLine)
      = withoutSeparators AudioEngine.isChordSeparator chordLine
   /\ (AudioEngine.chordsInLine chordLine = []
       <-> JS.forallb_string AudioEngine.isChordSeparator chordLine = true))
  /\ (Forall (fun c => c <> "" /\ separatorFree JS.isWhiteSpace c = true)
             (OfflineEngine.chordsOfLine chordLine)
      /\ String.concat "" (OfflineEngine.chordsOfLine chordLine)
         = withoutSeparators JS.isWhiteSpace chordLine
      /\ (OfflineEngine.chordsOfLine chordLine = []
          <-> JS.forallb_string JS.isWhiteSpace chordLine = true)).
Proof.
  assert (H : forall sep,
             Forall (fun c => c <> "" /\ separatorFree sep c = true)
                    (JS.nonEmpty (JS.split sep chordLine))
             /\ String.concat "" (JS.nonEmpty (JS.split sep chordLine))
                = withoutSeparators sep chordLine).
  { intros sep. unfold JS.split.
    destruct (splitRuns_pieces sep chordLine "" false eq_refl) as [H1 H2]. split.
    - apply List.Forall_forall. intros c Hc. apply filter_In in Hc as [Hin Hc].
      rewrite List.Forall_forall in H1. split; [|now apply H1].
      intros ->. discriminate Hc.
    - rewrite concat_nonEmpty. exact H2. }
  split; (split; [apply H|split; [apply H|apply names_none]]).
Qed.

Lemma chord_names_of_a_line_witness :
  AudioEngine.chordsInLine " C - G/B   Am-F " = ["C"; "G/B"; "Am"; "F"]
  /\ OfflineEngine.chordsOfLine " C - G/B   Am-F " = ["C"; "-"; "G/B"; "Am-F"]
  /\ AudioEngine.chordsInLine " - " = [].
Proof.
  split; [reflexivity|]. split; [reflexivity|].
  apply (proj2 (proj2 (proj1 (chord_names_of_a_line " - ")))). reflexivity.
Defined.

End ChordLineFacts.

(* ================================================================== *)
(** * The two engines side by side: the length of a song *)
(* ================================================================== *)

Module EngineAgreement.
Import WebAudio AudioEngineFacts.
Local Open Scope Q_scope.

Lemma forallb_string_impl (p q : ascii -> bool) (s : string) :
  (forall c, p c = true -> q c = true) ->
  JS.forallb_string p s = true -> JS.forallb_string q s = true.
Proof.
  intros H. induction s as [|c s IH]; simpl; [reflexivity|].
  intros Hs. apply andb_true_iff in Hs as [Hc Hs]. now rewrite (H c Hc), IH.
Qed.

Lemma length_positive {A} (l : list A) : (0 <? length l)%nat = negb (bool_decide (l = [])).
Proof. now destruct l. Qed.

(** On a line that holds a chord name or no hyphen, the two engines
    agree on whether the line holds a chord. *)
Lemma sounding_holdsChord (chordLine : string) :
  (JS.forallb_string AudioEngine.isChordSeparator chordLine = true ->
   JS.forallb_string JS.isWhiteSpace chordLine = true) ->
  ArrangementFacts.sounding chordLine = SharedWalkFacts.holdsChord chordLine.
Proof.
  intros H. unfold ArrangementFacts.sounding, SharedWalkFacts.holdsChord.
  unfold AudioEngine.chordsInLine, OfflineEngine.chordsOfLine.
  rewrite !length_positive. f_equal. apply bool_decide_ext.
  rewrite !ChordLineFacts.names_none. split; [exact H|].
  apply forallb_string_impl. intros c Hc. unfold AudioEngine.isChordSeparator.
  now rewrite Hc.
Qed.

Lemma flat_map_same {A B} (f g : A -> list B) (l : list A) :
  (forall x, In x l -> f x = g x) -> flat_map f l = flat_map g l.
Proof.
  induction l as [|x l IH]; intros H; simpl; [reflexivity|].
  rewrite (H x) by now left. rewrite IH; [reflexivity|].
  intros y Hy. apply H. now right.
Qed.

(** The live engine and the shared walk give a song the same length
    when they read the same tempo from it (the live engine takes the
    first run of digits, the walk an integer at the start), every
    section has chord lines (the walk does not fall back on the lyric
    lines), and no chord line is made of separators with a hyphen among
    them (such a line gives the walk the chord name of a hyphen). *)
Theorem engines_agree_on_the_length (rng : nat -> Q) (now : Q) (song : Song)
        (hasVocal : bool) (e : AudioEngine.Engine) (ctx : OfflineEngine.Context)
        (startTime : Q) :
  (forall i, 0 <= rng i) ->
  (0 < AudioEngine.bpmOf (tempo song))%Z ->
  AudioEngine.bpmOf (tempo song) = OfflineEngine.bpmOf (tempo song) ->
  (forall section, In section (sections song) -> chords section <> []) ->
  (forall chordLine,
      In chordLine (SharedWalkFacts.chordLines song) ->
      JS.forallb_string AudioEngine.isChordSeparator chordLine = true ->
      JS.forallb_string JS.isWhiteSpace chordLine = true) ->
  exists p,
    AudioEngine.playSongDemo rng now song hasVocal e = Some p
    /\ AudioEngine.duration p
       == OfflineEngine.duration
            (OfflineEngine.renderMusicToContext ctx song hasVocal startTime).
Proof.
  intros Hr Hb Hbpm Hchords Hlines.
  destruct (playSongDemo_walks rng now song hasVocal e Hr Hb) as (p & E & D & _).
  exists p. split; [exact E|].
  rewrite D, ArrangementFacts.songSlots_by_line, SharedWalkFacts.duration_by_line
    by exact Hb.
  rewrite <- Hbpm.
  assert (Hsame : flat_map AudioEngine.chordsOf (sections song)
                  = SharedWalkFacts.chordLines song).
  { apply flat_map_same. intros section Hin. unfold AudioEngine.chordsOf.
    specialize (Hchords section Hin). now destruct (chords section). }
  rewrite Hsame. apply SharedWalkFacts.Qsum_map_ext. intros cl Hcl.
  rewrite (sounding_holdsChord cl (Hlines cl Hcl)). reflexivity.
Qed.

Lemma engines_agree_on_the_length_witness :
  exists p,
    AudioEngine.playSongDemo (fun _ => 1 # 2) 0
      (oneSectionSong pop "120 BPM" VERSE ["C G"; "Am-F"; "  "]) false emptyEngine
    = Some p
    /\ AudioEngine.duration p
       == OfflineEngine.duration
            (OfflineEngine.renderMusicToContext OfflineEngine.newContext
               (oneSectionSong pop "120 BPM" VERSE ["C G"; "Am-F"; "  "]) false 0).
Proof.
  apply (engines_agree_on_the_length (fun _ => 1 # 2) 0
           (oneSectionSong pop "120 BPM" VERSE ["C G"; "Am-F"; "  "]) false emptyEngine
           OfflineEngine.newContext 0 half_nonneg).
  - reflexivity.
  - reflexivity.
  - intros section [<-|[]]. discriminate.
  - intros cl Hcl. simpl in Hcl.
    repeat (destruct Hcl as [<-|Hcl]; [vm_compute; try discriminate; tauto|]).
    contradiction.
Defined.

End EngineAgreement.
